(** * Component definition resolution of the LWC engine

    A shallow embedding of [packages/@lwc/engine/src/framework/def.ts]:
    [getCtorProto], [createComponentDef], [isComponentConstructor] and
    [getComponentDef], together with the fragment of the JavaScript object
    model these four functions read and write. *)

From Stdlib Require Import ZArith Ascii.
From stdpp Require Import base gmap strings list.

(** ** JavaScript values *)

(** Objects (functions included) live in a heap and are named by references;
    two objects are the same object exactly when their references are equal. *)
Definition ref := nat.

Inductive prim :=
  | PBool (b : bool)
  | PNum (z : Z)
  | PStr (s : string).

Inductive value :=
  | VUndefined
  | VNull
  | VPrim (p : prim)
  | VObj (r : ref).

#[global] Instance prim_eq_dec : EqDecision prim.
Proof. solve_decision. Defined.

#[global] Instance value_eq_dec : EqDecision value.
Proof. solve_decision. Defined.

(** ToBoolean, as used by [||], [&&] and [assert.isTrue]. *)
Definition truthy (v : value) : bool :=
  match v with
  | VUndefined | VNull => false
  | VPrim (PBool b) => b
  | VPrim (PNum z) => negb (z =? 0)%Z
  | VPrim (PStr s) => negb (String.eqb s "")
  | VObj _ => true
  end.

(** [a || b] *)
Definition or_else (a b : value) : value := if truthy a then a else b.

Definition isNull (v : value) : bool :=
  match v with VNull => true | _ => false end.

Definition isUndefined (v : value) : bool :=
  match v with VUndefined => true | _ => false end.

(** An object as this module sees it. Every property the module reads is a
    data property; accessor properties are outside the model.

    [circular] is [Some v] exactly when the object is a circular-module
    placeholder, and [v] is then what its resolver returns (see
    [isCircularModuleDependency] and [resolveCircularModuleDependency]
    below). *)
Record obj := {
  callable : bool;              (* typeof o === 'function' *)
  proto : option ref;           (* the prototype link; None is null *)
  own : gmap string value;      (* own data properties *)
  circular : option value;
}.

#[global] Instance obj_inhabited : Inhabited obj :=
  populate {| callable := false; proto := None; own := ∅; circular := None |}.

(** ** Errors, results and the trace of external calls *)

Inductive message :=
  | InvalidPrototypeChain (subclassComponentName : value)
      (* `Invalid prototype chain for ${subclassComponentName}, you must extend LightningElement.` *)
  | CircularModuleDependency (subclassComponentName : value)
      (* `Circular module dependency for ${subclassComponentName}, must resolve to a constructor that extends LightningElement.` *)
  | NotValidComponent (Ctor : value)
      (* `${Ctor} is not a valid component, or does not extends LightningElement from "lwc". ...` *)
  | MissingConstructor (ctorName : value)
      (* `Missing ${ctorName}.constructor, ${ctorName} should have a "constructor" property.` *)
  | Native (operation : string).
      (* raised by the language runtime itself *)

Inductive error :=
  | ReferenceError (m : message)
  | TypeError (m : message)
  | AssertionError (m : message).

(** A call either returns, throws, or has not returned within the fuel it
    was given. *)
Inductive failure :=
  | Thrown (e : error)
  | Diverged.

Inductive result (A : Type) :=
  | Ok (a : A)
  | Fail (f : failure).
Arguments Ok {A} a.
Arguments Fail {A} f.

Abbreviation Throw e := (Fail (Thrown e)).
Abbreviation OutOfFuel := (Fail Diverged).

Definition rbind {A B} (r : result A) (k : A → result B) : result B :=
  match r with
  | Ok a => k a
  | Fail f => Fail f
  end.

Notation "'let?' x := r 'in' k" := (rbind r (fun x => k))
  (at level 10, x name, r at level 100, k at level 200).

(** Calls into collaborators whose number and order the specification talks
    about. *)
Inductive event :=
  | EvResolveCircular (placeholder : value)
  | EvRegisteredMeta (Ctor : value)
  | EvDecoratorsMeta (Ctor : value).

#[global] Instance event_eq_dec : EqDecision event.
Proof. solve_decision. Defined.

(** ** Definitions and metadata *)

(** Modelled from the spec: [HTMLBridgeElementFactory] and
    [BaseBridgeElement] of [./base-bridge-element] are missing. The factory,
    "given a superclass bridge prototype and this class's own public
    property/method name lists", produces "a new prototype that inherits from
    the superclass bridge"; a bridge is represented by the way it was
    built. *)
Inductive Bridge :=
  | BaseBridgeElement
  | HTMLBridgeElementFactory (SuperBridge : Bridge) (apiFields apiMethods : list string).

Record ComponentDef := {
  def_oid : nat;                (* identity of the object *)
  def_name : value;
  def_props : list string;
  def_wire : list string;
  def_template : value;
  def_ctor : value;
  def_bridge : Bridge;
  def_connectedCallback : value;
  def_disconnectedCallback : value;
  def_renderedCallback : value;
  def_errorCallback : value;
  def_render : value;
}.

Record ComponentMeta := {
  meta_name : value;
  meta_template : value;
}.

Record DecoratorMeta := {
  apiFields : list string;
  apiMethods : list string;
  wiredFields : list string;
  wiredMethods : list string;
  fields : option (list string);   (* None is undefined *)
}.

(** ** The environment of the module

    Everything the module imports or finds already loaded: the build mode, the
    object graph of the loaded classes, and the collaborators of
    [./component], [./decorators/register], [./html-properties] and
    [./secure-template]. *)
Record Env := {
  production : bool;            (* process.env.NODE_ENV === 'production' *)
  heap : gmap ref obj;
  BaseLightningElement : ref;
  defaultEmptyTemplate : ref;
  HTMLElementOriginalDescriptors : list string;   (* its own property names *)
  PrimitivePrototype : prim → ref;                (* prototype of the wrapper of a primitive *)
  getDecoratorsMeta : value → DecoratorMeta;
  getComponentRegisteredMeta : value → option ComponentMeta;
}.

(** What the module mutates: the cache, and on prototypes the frozen flag and
    the observed-field descriptors it installs. The descriptors are kept
    apart from the data properties of the object graph: the module never
    reads an observed field, so its reads are reads of [heap]. [next_oid] is
    the identity the next object literal gets. *)
Record state := {
  CtorToDefMap : gmap ref ComponentDef;
  frozen : gset ref;
  observed : gmap ref (list string);
  next_oid : nat;
}.

Definition M (A : Type) : Type := state → result A * state * list event.

Definition ret {A} (a : A) : M A := fun s => (Ok a, s, []).

Definition bind {A B} (m : M A) (k : A → M B) : M B :=
  fun s =>
    match m s with
    | (Ok a, s1, t1) =>
        match k a s1 with
        | (r, s2, t2) => (r, s2, t1 ++ t2)
        end
    | (Fail f, s1, t1) => (Fail f, s1, t1)
    end.

Notation "'let*' x := m 'in' k" := (bind m (fun x => k))
  (at level 10, x name, m at level 100, k at level 200).

Definition lift {A} (r : result A) : M A := fun s => (r, s, []).
Definition throw {A} (e : error) : M A := lift (Throw e).
Definition diverge {A} : M A := lift OutOfFuel.
Definition emit (e : event) : M unit := fun s => (Ok tt, s, [e]).

Section Engine.
Variable E : Env.

(** ** The language operations the module uses *)

(** The language keeps prototype chains acyclic, so a walk along one visits
    at most [size (heap E)] objects; the walks below stop after that many
    steps. *)
Definition chain_fuel : nat := S (size (heap E)).

(** The object a reference denotes; a reference outside the heap reads as
    an object without properties. *)
Definition object (r : ref) : obj := heap E !!! r.

Fixpoint lookup_chain (fuel : nat) (r : ref) (key : string) : value :=
  match fuel with
  | 0 => VUndefined
  | S fuel' =>
      match own (object r) !! key with
      | Some v => v
      | None =>
          match proto (object r) with
          | Some p => lookup_chain fuel' p key
          | None => VUndefined
          end
      end
  end.

(** [v.key] *)
Definition Get (v : value) (key : string) : result value :=
  match v with
  | VUndefined | VNull => Throw (TypeError (Native "property access"))
  | VPrim p => Ok (lookup_chain chain_fuel (PrimitivePrototype E p) key)
  | VObj r => Ok (lookup_chain chain_fuel r key)
  end.

(** [Object.getPrototypeOf(v)] *)
Definition getPrototypeOf (v : value) : result value :=
  match v with
  | VUndefined | VNull => Throw (TypeError (Native "Object.getPrototypeOf"))
  | VPrim p => Ok (VObj (PrimitivePrototype E p))
  | VObj r =>
      match proto (object r) with
      | Some p => Ok (VObj p)
      | None => Ok VNull
      end
  end.

Definition isFunction (v : value) : bool :=
  match v with
  | VObj r => callable (object r)
  | _ => false
  end.

Fixpoint has_in_chain (fuel : nat) (o P : ref) : bool :=
  match fuel with
  | 0 => false
  | S fuel' =>
      match proto (object o) with
      | None => false
      | Some q => if decide (q = P) then true else has_in_chain fuel' q P
      end
  end.

(** [O instanceof C] for a function [C] without a [Symbol.hasInstance] of
    its own, which is the case of a class: false on a primitive [O], a
    TypeError when [C] is not callable or [C.prototype] is not an object. *)
Definition instanceof (O : value) (C : ref) : result bool :=
  if negb (callable (object C)) then Throw (TypeError (Native "instanceof"))
  else
    match O with
    | VObj o =>
        let? P := Get (VObj C) "prototype" in
        match P with
        | VObj p => Ok (has_in_chain chain_fuel o p)
        | _ => Throw (TypeError (Native "instanceof"))
        end
    | _ => Ok false
    end.

(** [assert.isTrue(value, msg)] *)
Definition assert_isTrue (v : value) (msg : message) : M unit :=
  if truthy v then ret tt else throw (AssertionError msg).

(** Modelled from the spec: [createObservedFieldsDescriptorMap] of
    [./observed-fields] is missing. It turns the "internal-observed-field
    names" into a descriptor map with one accessor descriptor per name; the
    map is represented by its keys. *)
Definition createObservedFieldsDescriptorMap (fields : list string) : list string :=
  fields.

(** [Object.defineProperties(O, descriptors)] for accessor descriptors:
    refused on a value that is not an object, and on a frozen object as soon
    as there is a descriptor to define. *)
Definition defineProperties (O : value) (descriptors : list string) : M unit :=
  fun s =>
    match O with
    | VObj r =>
        match descriptors with
        | [] => (Ok tt, s, [])
        | _ :: _ =>
            if decide (r ∈ frozen s)
            then (Throw (TypeError (Native "Object.defineProperties")), s, [])
            else
              (Ok tt,
               {| CtorToDefMap := CtorToDefMap s;
                  frozen := frozen s;
                  observed := <[r := default [] (observed s !! r) ++ descriptors]> (observed s);
                  next_oid := next_oid s |},
               [])
        end
    | _ => (Throw (TypeError (Native "Object.defineProperties")), s, [])
    end.

(** [Object.freeze(O)] *)
Definition freeze (O : value) : M unit :=
  fun s =>
    match O with
    | VObj r =>
        (Ok tt,
         {| CtorToDefMap := CtorToDefMap s;
            frozen := {[r]} ∪ frozen s;
            observed := observed s;
            next_oid := next_oid s |},
         [])
    | _ => (Ok tt, s, [])
    end.

(** [CtorToDefMap.get(Ctor)]: a WeakMap has no entry under a key that is
    not an object. *)
Definition CtorToDefMap_get (Ctor : value) : M (option ComponentDef) :=
  fun s =>
    match Ctor with
    | VObj r => (Ok (CtorToDefMap s !! r), s, [])
    | _ => (Ok None, s, [])
    end.

(** [CtorToDefMap.set(Ctor, def)] *)
Definition CtorToDefMap_set (Ctor : value) (def : ComponentDef) : M unit :=
  fun s =>
    match Ctor with
    | VObj r =>
        (Ok tt,
         {| CtorToDefMap := <[r := def]> (CtorToDefMap s);
            frozen := frozen s;
            observed := observed s;
            next_oid := next_oid s |},
         [])
    | _ => (Throw (TypeError (Native "WeakMap.prototype.set")), s, [])
    end.

(** Evaluation of an object literal: the new object gets the next unused
    identity. *)
Definition new_object (mk : nat → ComponentDef) : M ComponentDef :=
  fun s =>
    (Ok (mk (next_oid s)),
     {| CtorToDefMap := CtorToDefMap s;
        frozen := frozen s;
        observed := observed s;
        next_oid := S (next_oid s) |},
     []).

(** ** Collaborators *)

(** Modelled from the spec: [isCircularModuleDependency] of [./utils] is
    missing; it is the "circular-module placeholder predicate",
    [value → boolean]. *)
Definition isCircularModuleDependency (v : value) : bool :=
  match v with
  | VObj r => bool_decide (is_Some (circular (object r)))
  | _ => false
  end.

(** Modelled from the spec: [resolveCircularModuleDependency] of [./utils]
    is missing; it is the "single-step resolver", [placeholder → value],
    which "may return the placeholder itself". Each call is recorded in the
    trace. *)
Definition resolveCircularModuleDependency (v : value) : M value :=
  let* _ := emit (EvResolveCircular v) in
  match v with
  | VObj r =>
      match circular (object r) with
      | Some p => ret p
      | None => throw (TypeError (Native "call"))
      end
  | _ => throw (TypeError (Native "call"))
  end.

(** [getDecoratorsMeta(Ctor)] and [getComponentRegisteredMeta(Ctor)], each
    call recorded in the trace. *)
Definition call_getDecoratorsMeta (Ctor : value) : M DecoratorMeta :=
  let* _ := emit (EvDecoratorsMeta Ctor) in
  ret (getDecoratorsMeta E Ctor).

Definition call_getComponentRegisteredMeta (Ctor : value) : M (option ComponentMeta) :=
  let* _ := emit (EvRegisteredMeta Ctor) in
  ret (getComponentRegisteredMeta E Ctor).

(** A property read while the module is being loaded. *)
Definition loaded (r : result value) : value :=
  match r with
  | Ok v => v
  | Fail _ => VUndefined
  end.

Definition lightingElementDef : ComponentDef :=
  {| def_oid := 0;
     def_ctor := VObj (BaseLightningElement E);
     def_name := loaded (Get (VObj (BaseLightningElement E)) "name");
     def_props := HTMLElementOriginalDescriptors E;
     def_wire := [];
     def_bridge := BaseBridgeElement;
     def_template := VObj (defaultEmptyTemplate E);
     def_connectedCallback := VUndefined;
     def_disconnectedCallback := VUndefined;
     def_renderedCallback := VUndefined;
     def_errorCallback := VUndefined;
     def_render :=
       loaded (let? p := Get (VObj (BaseLightningElement E)) "prototype" in Get p "render") |}.

(** ** def.ts *)

Definition getCtorProto (Ctor : value) (subclassComponentName : value) : M value :=
  let* proto := lift (getPrototypeOf Ctor) in
  if isNull proto then
    throw (ReferenceError (InvalidPrototypeChain subclassComponentName))
  else if isCircularModuleDependency proto then
    let* p := resolveCircularModuleDependency proto in
    let* _ :=
      (if negb (production E) then
         if isNull p then
           throw (ReferenceError (CircularModuleDependency subclassComponentName))
         else ret tt
       else ret tt) in
    ret (if decide (p = proto) then VObj (BaseLightningElement E) else p)
  else ret proto.

Definition createComponentDef
    (getComponentDef : value → value → M ComponentDef)
    (Ctor : value) (meta : ComponentMeta) (subclassComponentName : value)
    : M ComponentDef :=
  let* _ :=
    (if negb (production E) then
       let* ctorName := lift (Get Ctor "name") in
       let* c := lift (Get Ctor "constructor") in
       assert_isTrue c (MissingConstructor ctorName)
     else ret tt) in
  let name := meta_name meta in
  let template := meta_template meta in
  let* decoratorsMeta := call_getDecoratorsMeta Ctor in
  let* proto := lift (Get Ctor "prototype") in
  let* connectedCallback := lift (Get proto "connectedCallback") in
  let* disconnectedCallback := lift (Get proto "disconnectedCallback") in
  let* renderedCallback := lift (Get proto "renderedCallback") in
  let* errorCallback := lift (Get proto "errorCallback") in
  let* render := lift (Get proto "render") in
  let* superProto := getCtorProto Ctor subclassComponentName in
  let* superDef :=
    (if decide (superProto ≠ VObj (BaseLightningElement E))
     then getComponentDef superProto subclassComponentName
     else ret lightingElementDef) in
  (* isNull(superDef) ? BaseBridgeElement : superDef.bridge, where superDef
   is a definition on both branches above, never null *)
  let SuperBridge := def_bridge superDef in
  let bridge :=
    HTMLBridgeElementFactory SuperBridge (apiFields decoratorsMeta) (apiMethods decoratorsMeta) in
  let props := def_props superDef ++ apiFields decoratorsMeta in
  let wire := def_wire superDef ++ wiredFields decoratorsMeta ++ wiredMethods decoratorsMeta in
  let connectedCallback := or_else connectedCallback (def_connectedCallback superDef) in
  let disconnectedCallback := or_else disconnectedCallback (def_disconnectedCallback superDef) in
  let renderedCallback := or_else renderedCallback (def_renderedCallback superDef) in
  let errorCallback := or_else errorCallback (def_errorCallback superDef) in
  let render := or_else render (def_render superDef) in
  let template := or_else template (def_template superDef) in
  let* _ :=
    match fields decoratorsMeta with
    | Some fs => defineProperties proto (createObservedFieldsDescriptorMap fs)
    | None => ret tt
    end in
  let* def :=
    new_object (fun oid =>
      {| def_oid := oid;
         def_ctor := Ctor;
         def_name := name;
         def_wire := wire;
         def_props := props;
         def_bridge := bridge;
         def_template := template;
         def_connectedCallback := connectedCallback;
         def_disconnectedCallback := disconnectedCallback;
         def_renderedCallback := renderedCallback;
         def_errorCallback := errorCallback;
         def_render := render |}) in
  let* _ :=
    (if negb (production E) then
       let* p := lift (Get Ctor "prototype") in
       freeze p
     else ret tt) in
  ret def.

(** The do-while loop of the slow path, one iteration per unit of fuel. *)
Fixpoint isComponentConstructor_loop (fuel : nat) (current : value) : M bool :=
  match fuel with
  | 0 => diverge
  | S fuel' =>
      let* step :=
        (if isCircularModuleDependency current then
           let* circularResolved := resolveCircularModuleDependency current in
           if decide (circularResolved = current) then ret None
           else ret (Some circularResolved)
         else ret (Some current)) in
      match step with
      | None => ret true
      | Some current =>
          if decide (current = VObj (BaseLightningElement E)) then ret true
          else if isNull current then ret false
          else
            let* next := lift (getPrototypeOf current) in
            if truthy next then isComponentConstructor_loop fuel' next
            else ret false
      end
  end.

Definition isComponentConstructor (fuel : nat) (ctor : value) : M bool :=
  if negb (isFunction ctor) then ret false
  else
    let* prototype := lift (Get ctor "prototype") in
    let* fast := lift (instanceof prototype (BaseLightningElement E)) in
    if fast then ret true
    else isComponentConstructor_loop fuel ctor.

Fixpoint getComponentDef (fuel : nat) (Ctor : value) (subclassComponentName : value)
    : M ComponentDef :=
  match fuel with
  | 0 => diverge
  | S fuel' =>
      let* def := CtorToDefMap_get Ctor in
      match def with
      | Some def => ret def
      | None =>
          let* recognized := isComponentConstructor (S fuel') Ctor in
          if negb recognized then throw (TypeError (NotValidComponent Ctor))
          else
            let* registered := call_getComponentRegisteredMeta Ctor in
            let* meta :=
              match registered with
              | Some meta => ret meta
              | None =>
                  let* name := lift (Get Ctor "name") in
                  ret {| meta_template := VUndefined; meta_name := name |}
              end in
            let* name :=
              (if truthy subclassComponentName then ret subclassComponentName
               else lift (Get Ctor "name")) in
            let* def := createComponentDef (getComponentDef fuel') Ctor meta name in
            let* _ := CtorToDefMap_set Ctor def in
            ret def
      end
  end.

Definition init_state : state :=
  {| CtorToDefMap := ∅; frozen := ∅; observed := ∅; next_oid := 1 |}.

End Engine.

(** ** The stages of one resolution

    [createComponentDef] first reads what the class itself declares, then
    obtains the definition of the superclass, and finally merges the two;
    the stages are named here so that statements can refer to them. *)
Section Stages.
Variable E : Env.

(** The development-mode assertion at the head of [createComponentDef]. *)
Definition dev_check (Ctor : value) : result unit :=
  if negb (production E) then
    let? ctorName := Get E Ctor "name" in
    let? c := Get E Ctor "constructor" in
    if truthy c then Ok tt else Throw (AssertionError (MissingConstructor ctorName))
  else Ok tt.

(** What is read off the class and its prototype. *)
Record members := {
  m_decorators : DecoratorMeta;
  m_proto : value;
  m_connectedCallback : value;
  m_disconnectedCallback : value;
  m_renderedCallback : value;
  m_errorCallback : value;
  m_render : value;
}.

Definition read_members (Ctor : value) : result members :=
  let? proto := Get E Ctor "prototype" in
  let? connectedCallback := Get E proto "connectedCallback" in
  let? disconnectedCallback := Get E proto "disconnectedCallback" in
  let? renderedCallback := Get E proto "renderedCallback" in
  let? errorCallback := Get E proto "errorCallback" in
  let? render := Get E proto "render" in
  Ok {| m_decorators := getDecoratorsMeta E Ctor;
        m_proto := proto;
        m_connectedCallback := connectedCallback;
        m_disconnectedCallback := disconnectedCallback;
        m_renderedCallback := renderedCallback;
        m_errorCallback := errorCallback;
        m_render := render |}.

(** The definition of the superclass: the canonical one for the base
    class, otherwise whatever the recursive call yields. *)
Definition super_def (rec : value → value → M ComponentDef)
    (superProto subclassComponentName : value) : M ComponentDef :=
  if decide (superProto ≠ VObj (BaseLightningElement E))
  then rec superProto subclassComponentName
  else ret (lightingElementDef E).

(** The object literal at the end of [createComponentDef]. *)
Definition merged (oid : nat) (Ctor : value) (meta : ComponentMeta)
    (m : members) (superDef : ComponentDef) : ComponentDef :=
  {| def_oid := oid;
     def_ctor := Ctor;
     def_name := meta_name meta;
     def_wire :=
       def_wire superDef ++ wiredFields (m_decorators m) ++ wiredMethods (m_decorators m);
     def_props := def_props superDef ++ apiFields (m_decorators m);
     def_bridge :=
       HTMLBridgeElementFactory (def_bridge superDef)
         (apiFields (m_decorators m)) (apiMethods (m_decorators m));
     def_template := or_else (meta_template meta) (def_template superDef);
     def_connectedCallback :=
       or_else (m_connectedCallback m) (def_connectedCallback superDef);
     def_disconnectedCallback :=
       or_else (m_disconnectedCallback m) (def_disconnectedCallback superDef);
     def_renderedCallback :=
       or_else (m_renderedCallback m) (def_renderedCallback superDef);
     def_errorCallback := or_else (m_errorCallback m) (def_errorCallback superDef);
     def_render := or_else (m_render m) (def_render superDef) |}.

(** What follows the superclass lookup. *)
Definition finish (Ctor : value) (meta : ComponentMeta) (m : members)
    (superDef : ComponentDef) : M ComponentDef :=
  let* _ :=
    match fields (m_decorators m) with
    | Some fs => defineProperties (m_proto m) (createObservedFieldsDescriptorMap fs)
    | None => ret tt
    end in
  let* def := new_object (fun oid => merged oid Ctor meta m superDef) in
  let* _ :=
    (if negb (production E) then
       let* p := lift (Get E Ctor "prototype") in
       freeze p
     else ret tt) in
  ret def.

(** The metadata [getComponentDef] hands to [createComponentDef]. *)
Definition resolved_meta (Ctor : value) : result ComponentMeta :=
  match getComponentRegisteredMeta E Ctor with
  | Some meta => Ok meta
  | None =>
      let? name := Get E Ctor "name" in
      Ok {| meta_template := VUndefined; meta_name := name |}
  end.

(** [subclassComponentName || Ctor.name] *)
Definition display_name (subclassComponentName Ctor : value) : result value :=
  if truthy subclassComponentName then Ok subclassComponentName
  else Get E Ctor "name".

End Stages.

(** ** Vocabulary of the statements *)

(** The cache entry of a value. *)
Definition cached (s : state) (Ctor : value) : option ComponentDef :=
  match Ctor with
  | VObj c => CtorToDefMap s !! c
  | _ => None
  end.

(** The constructors whose decorator metadata a trace looks up. *)
Definition decorator_lookups (t : list event) : list value :=
  omap (fun e => match e with EvDecoratorsMeta c => Some c | _ => None end) t.

(** A trace made of placeholder resolutions only: no metadata is looked up. *)
Definition only_resolutions (t : list event) : Prop :=
  Forall (fun e => ∃ v, e = EvResolveCircular v) t.

Section Vocabulary.
Variable E : Env.

(** Same state apart from the cache. *)
Definition same_marks (s s' : state) : Prop :=
  frozen s' = frozen s ∧ observed s' = observed s ∧ next_oid s' = next_oid s.

(** [s'] holds every cache entry of [s], unchanged. *)
Definition extends (s s' : state) : Prop :=
  ∀ c d, CtorToDefMap s !! c = Some d → CtorToDefMap s' !! c = Some d.

(** [superProto] is the superclass [getCtorProto] finds for [Ctor]. *)
Definition super_of (Ctor superProto : value) : Prop :=
  ∃ n s t, getCtorProto E Ctor n s = (Ok superProto, s, t).

(** [superDef] is the definition of [superProto]: the canonical one for the
    base class, the cached one otherwise. *)
Definition super_def_in (s : state) (superProto : value) (superDef : ComponentDef) : Prop :=
  (superProto = VObj (BaseLightningElement E) ∧ superDef = lightingElementDef E)
  ∨ (superProto ≠ VObj (BaseLightningElement E) ∧ cached s superProto = Some superDef).

Definition recognized (Ctor : value) : Prop :=
  ∃ fuel s t, isComponentConstructor E fuel Ctor s = (Ok true, s, t).

(** [d] is what the merge produces for [Ctor] over the superclass
    definition found in [s]. *)
Definition built (s : state) (Ctor : value) (d : ComponentDef) : Prop :=
  ∃ superProto superDef meta m,
    recognized Ctor ∧
    super_of Ctor superProto ∧
    super_def_in s superProto superDef ∧
    resolved_meta E Ctor = Ok meta ∧
    read_members E Ctor = Ok m ∧
    d = merged (def_oid d) Ctor meta m superDef ∧
    truthy (def_template d) = true.

(** Every cache entry is the merge for its key. The empty cache is, and
    [getComponentDef] keeps it so. *)
Definition cache_ok (s : state) : Prop :=
  ∀ c d, CtorToDefMap s !! c = Some d → built s (VObj c) d.

(** A sequence of calls made by a client that catches what they throw. *)
Fixpoint run_calls (calls : list (nat * value * value)) (s : state) : state * list event :=
  match calls with
  | [] => (s, [])
  | (fuel, Ctor, n) :: calls =>
      match getComponentDef E fuel Ctor n s with
      | (_, s1, t1) =>
          match run_calls calls s1 with
          | (s2, t2) => (s2, t1 ++ t2)
          end
      end
  end.

(** The value the slow path of [isComponentConstructor] continues with at
    a node: the resolution of a placeholder, the node itself otherwise. *)
Definition effective (v : value) : value :=
  match v with
  | VObj r =>
      match circular (object E r) with
      | Some p => p
      | None => v
      end
  | _ => v
  end.

(** One turn of the slow path from [v] to [v']. *)
Definition chain_step (v v' : value) : Prop :=
  getPrototypeOf E (effective v) = Ok v' ∧ truthy v' = true.

(** The base class is a function whose [prototype] is an object. *)
Definition base_ok : Prop :=
  callable (object E (BaseLightningElement E)) = true ∧
  ∃ bp, Get E (VObj (BaseLightningElement E)) "prototype" = Ok (VObj bp).


(** [proto] declares a (truthy) member [key] of its own. *)
Definition declares (proto : value) (key : string) (v : value) : Prop :=
  ∃ p, proto = VObj p ∧ own (object E p) !! key = Some v ∧ truthy v = true.

(** After at most [n] links the prototype chain of [r] has ended. *)
Fixpoint ends_within (n : nat) (r : ref) : Prop :=
  match proto (object E r) with
  | None => True
  | Some p =>
      match n with
      | 0 => False
      | S n' => ends_within n' p
      end
  end.

(** No prototype chain runs forever. *)
Definition acyclic : Prop := ∀ r, ∃ n, ends_within n r.

(** The chain of [r] has exactly [k] links. *)
Fixpoint exact_links (k : nat) (r : ref) : Prop :=
  match proto (object E r) with
  | None => k = 0
  | Some p =>
      match k with
      | 0 => False
      | S k' => exact_links k' p
      end
  end.

(** The objects met within [n] steps from [r] that have a link to follow. *)
Fixpoint links (n : nat) (r : ref) : list ref :=
  match n with
  | 0 => []
  | S n' =>
      match proto (object E r) with
      | Some p => r :: links n' p
      | None => []
      end
  end.
End Vocabulary.

(** [resolvable E n Ctor]: [Ctor] heads a chain of at most [n] classes that
    ends at the base class; each class of the chain is recognized on the fast
    path, passes the development-mode assertion, has a prototype whose
    members can be read, and declares no observed fields. *)
Inductive resolvable (E : Env) : nat → value → Prop :=
  | resolvable_base n Ctor pr m :
      isFunction E Ctor = true →
      Get E Ctor "prototype" = Ok pr →
      instanceof E pr (BaseLightningElement E) = Ok true →
      dev_check E Ctor = Ok tt →
      read_members E Ctor = Ok m →
      fields (m_decorators m) = None →
      super_of E Ctor (VObj (BaseLightningElement E)) →
      resolvable E (S n) Ctor
  | resolvable_sub n Ctor pr m superProto :
      isFunction E Ctor = true →
      Get E Ctor "prototype" = Ok pr →
      instanceof E pr (BaseLightningElement E) = Ok true →
      dev_check E Ctor = Ok tt →
      read_members E Ctor = Ok m →
      fields (m_decorators m) = None →
      super_of E Ctor superProto →
      superProto ≠ VObj (BaseLightningElement E) →
      resolvable E n superProto →
      resolvable E (S n) Ctor.

(** The identities of the cached definitions: positive (0 is the canonical
    definition of the base class), below [next_oid], and different for
    different constructors. *)
Definition oids_ok (s : state) : Prop :=
  0 < next_oid s ∧
  (∀ c d, CtorToDefMap s !! c = Some d → 0 < def_oid d < next_oid s) ∧
  (∀ c1 c2 d1 d2,
     CtorToDefMap s !! c1 = Some d1 → CtorToDefMap s !! c2 = Some d2 →
     def_oid d1 = def_oid d2 → c1 = c2).

(** [chain E v nodes target]: the slow path started at [v] arrives at
    [target] after visiting [nodes] ([v] first, [target] last). *)
Inductive chain (E : Env) : value → list value → value → Prop :=
  | chain_end v : chain E v [v] v
  | chain_next v v' nodes target :
      chain_step E v v' → chain E v' nodes target → chain E v (v :: nodes) target.

(** ** A small loaded program

    The object graph below is the one the sample runs use:

    - 0 [Object.prototype], 1 [Function.prototype], 2 [Function];
    - 3 [BaseLightningElement] and 4 its prototype, 5 its [render];
    - 6 [defaultEmptyTemplate], 13 a template [T1];
    - 7/8 class [A extends LightningElement] and its prototype,
      9/10 [B extends A], 11/12 [C extends B];
    - 14 a circular-module placeholder whose resolver returns itself,
      15/16 a class [D] whose superclass is that placeholder;
    - 17/18 a function [N] whose own prototype link is null while
      [N.prototype] inherits from the base prototype;
    - 19 a plain object, 20 a function unrelated to the framework;
    - 21 the [connectedCallback] that [A] declares. *)
Definition plain_object (p : option ref) (ps : list (string * value)) : obj :=
  {| callable := false; proto := p; own := list_to_map ps; circular := None |}.

Definition function_object (p : option ref) (ps : list (string * value)) : obj :=
  {| callable := true; proto := p; own := list_to_map ps; circular := None |}.

Definition placeholder (p : option ref) (resolved : value) : obj :=
  {| callable := true; proto := p; own := ∅; circular := Some resolved |}.

Definition str (s : string) : value := VPrim (PStr s).

Definition demo_heap : gmap ref obj :=
  list_to_map
    [ (0, plain_object None []);
      (1, function_object (Some 0) [("constructor", VObj 2)]);
      (2, function_object (Some 1) [("prototype", VObj 1); ("name", str "Function")]);
      (3, function_object (Some 1)
            [("prototype", VObj 4); ("name", str "BaseLightningElement")]);
      (4, plain_object (Some 0) [("constructor", VObj 3); ("render", VObj 5)]);
      (5, function_object (Some 1) [("name", str "render")]);
      (6, function_object (Some 1) [("name", str "defaultEmptyTemplate")]);
      (7, function_object (Some 3) [("prototype", VObj 8); ("name", str "A")]);
      (8, plain_object (Some 4) [("constructor", VObj 7); ("connectedCallback", VObj 21)]);
      (9, function_object (Some 7) [("prototype", VObj 10); ("name", str "B")]);
      (10, plain_object (Some 8) [("constructor", VObj 9)]);
      (11, function_object (Some 9) [("prototype", VObj 12); ("name", str "C")]);
      (12, plain_object (Some 10) [("constructor", VObj 11)]);
      (13, function_object (Some 1) [("name", str "T1")]);
      (14, placeholder (Some 1) (VObj 14));
      (15, function_object (Some 14) [("prototype", VObj 16); ("name", str "D")]);
      (16, plain_object (Some 0) [("constructor", VObj 15)]);
      (17, function_object None [("prototype", VObj 18); ("name", str "N")]);
      (18, plain_object (Some 4) [("constructor", VObj 17)]);
      (19, plain_object (Some 0) []);
      (20, function_object (Some 1) [("prototype", VObj 19); ("name", str "f")]);
      (21, function_object (Some 1) [("name", str "connectedCallback")]) ].

Definition no_decorators : DecoratorMeta :=
  {| apiFields := []; apiMethods := []; wiredFields := []; wiredMethods := [];
     fields := None |}.

Definition api_field (f : string) : DecoratorMeta :=
  {| apiFields := [f]; apiMethods := []; wiredFields := []; wiredMethods := [];
     fields := None |}.

Definition observed_field (f : string) : DecoratorMeta :=
  {| apiFields := []; apiMethods := []; wiredFields := []; wiredMethods := [];
     fields := Some [f] |}.

Definition demo_env (prod : bool) (base : list string)
    (decorators : value → DecoratorMeta) (registered : value → option ComponentMeta) : Env :=
  {| production := prod;
     heap := demo_heap;
     BaseLightningElement := 3;
     defaultEmptyTemplate := 6;
     HTMLElementOriginalDescriptors := base;
     PrimitivePrototype := fun _ => 0;
     getDecoratorsMeta := decorators;
     getComponentRegisteredMeta := registered |}.

(** [A], [B] and [C] each declare one public field. *)
Definition abc_decorators (v : value) : DecoratorMeta :=
  match v with
  | VObj 7 => api_field "a"
  | VObj 9 => api_field "b"
  | VObj 11 => api_field "c"
  | _ => no_decorators
  end.

Definition abc_env (prod : bool) (base : list string) : Env :=
  demo_env prod base abc_decorators (fun _ => None).

(** The scenario of the specification: [Mid] (object 7) declares the public
    field [label] and the template [T1]; [Leaf] (object 9) extends [Mid],
    declares [count] and has no template of its own. *)
Definition leaf_decorators (v : value) : DecoratorMeta :=
  match v with
  | VObj 7 => api_field "label"
  | VObj 9 => api_field "count"
  | _ => no_decorators
  end.

Definition leaf_registered (v : value) : option ComponentMeta :=
  match v with
  | VObj 7 => Some {| meta_name := str "x-mid"; meta_template := VObj 13 |}
  | VObj 9 => Some {| meta_name := str "x-leaf"; meta_template := VUndefined |}
  | _ => None
  end.

Definition leaf_env (base : list string) : Env :=
  demo_env false base leaf_decorators leaf_registered.

(** [B] declares an observed field [x]. *)
Definition field_decorators (v : value) : DecoratorMeta :=
  match v with
  | VObj 9 => observed_field "x"
  | _ => no_decorators
  end.

Definition field_env (prod : bool) : Env :=
  demo_env prod [] field_decorators (fun _ => None).

(** The prototype of [B] has been frozen by its author. *)
Definition frozen_state : state :=
  {| CtorToDefMap := ∅; frozen := {[10]}; observed := ∅; next_oid := 1 |}.


(** ** Relations between computations *)

(** A computation is [pure] when it leaves the state alone and does not
    depend on it. *)
Definition pure {A} (m : M A) : Prop :=
  ∃ r t, ∀ s, m s = (r, s, t).

(** [approx m1 m2]: whatever [m1] answers without running out of fuel, [m2]
    answers too. *)
Definition approx {A} (m1 m2 : M A) : Prop :=
  ∀ s r s' t, m1 s = (r, s', t) → r ≠ OutOfFuel → m2 s = (r, s', t).

(** Two failures are alike when both are throws or both are exhaustion of
    the fuel. *)
Definition fsim (f1 f2 : failure) : Prop :=
  match f1, f2 with
  | Thrown _, Thrown _ => True
  | Diverged, Diverged => True
  | _, _ => False
  end.

(** Two results are alike when they are the same value or like failures. *)
Definition rsim {A} (r1 r2 : result A) : Prop :=
  match r1, r2 with
  | Ok a, Ok b => a = b
  | Fail f1, Fail f2 => fsim f1 f2
  | _, _ => False
  end.

(** [msim m1 m2]: the two computations leave the same state and trace, and
    return the same value or fail alike. *)
Definition msim {A} (m1 m2 : M A) : Prop :=
  ∀ s r1 s1 t1, m1 s = (r1, s1, t1) → ∃ r2, m2 s = (r2, s1, t1) ∧ rsim r1 r2.

(** ** Lineages and reachable states *)

(** A state the module can be in: the one it is loaded with, after any
    sequence of calls of [getComponentDef]. *)
Definition reachable (E : Env) (s : state) : Prop :=
  ∃ calls t, run_calls E calls init_state = (s, t).

(** [lineage E Ctor l]: [l] lists [Ctor] and then its superclasses, as
    [getCtorProto] finds them, up to the last class below the base class. *)
Inductive lineage (E : Env) : value → list value → Prop :=
  | lineage_base Ctor :
      super_of E Ctor (VObj (BaseLightningElement E)) →
      lineage E Ctor [Ctor]
  | lineage_sub Ctor superProto l :
      super_of E Ctor superProto →
      superProto ≠ VObj (BaseLightningElement E) →
      lineage E superProto l →
      lineage E Ctor (Ctor :: l).

(** [definition_of E Ctor d]: [d] is the object literal of
    [createComponentDef] for [Ctor] over the definition of its superclass,
    which is [lightingElementDef] when the superclass is the base class and
    again such a literal otherwise. *)
Inductive definition_of (E : Env) : value → ComponentDef → Prop :=
  | definition_over_base Ctor oid meta m :
      super_of E Ctor (VObj (BaseLightningElement E)) →
      resolved_meta E Ctor = Ok meta →
      read_members E Ctor = Ok m →
      definition_of E Ctor (merged oid Ctor meta m (lightingElementDef E))
  | definition_over Ctor oid meta m superProto superDef :
      super_of E Ctor superProto →
      superProto ≠ VObj (BaseLightningElement E) →
      definition_of E superProto superDef →
      resolved_meta E Ctor = Ok meta →
      read_members E Ctor = Ok m →
      definition_of E Ctor (merged oid Ctor meta m superDef).

Section Lineage.
Variable E : Env.

(** What a class declares itself. *)
Definition own_props (Ctor : value) : list string :=
  apiFields (getDecoratorsMeta E Ctor).

Definition own_wire (Ctor : value) : list string :=
  wiredFields (getDecoratorsMeta E Ctor) ++ wiredMethods (getDecoratorsMeta E Ctor).

(** [Ctor.prototype[key]], as [createComponentDef] destructures it. *)
Definition member (key : string) (Ctor : value) : value :=
  loaded (let? proto := Get E Ctor "prototype" in Get E proto key).

(** The template of the metadata [getComponentDef] works with: the
    registered one, [undefined] for a class that is not registered. *)
Definition registered_template (Ctor : value) : value :=
  match getComponentRegisteredMeta E Ctor with
  | Some meta => meta_template meta
  | None => VUndefined
  end.

(** The name of that metadata. *)
Definition registered_name (Ctor : value) : result value :=
  match getComponentRegisteredMeta E Ctor with
  | Some meta => Ok (meta_name meta)
  | None => Get E Ctor "name"
  end.

(** The bridge built for a lineage, the class itself outermost. *)
Fixpoint bridge_of (l : list value) : Bridge :=
  match l with
  | [] => BaseBridgeElement
  | Ctor :: l' =>
      HTMLBridgeElementFactory (bridge_of l')
        (apiFields (getDecoratorsMeta E Ctor)) (apiMethods (getDecoratorsMeta E Ctor))
  end.

(** The metadata lookups of the classes of [l], as one resolution after
    the other makes them. *)
Fixpoint metadata_lookups_of (l : list value) : list event :=
  match l with
  | [] => []
  | Ctor :: l' => EvRegisteredMeta Ctor :: EvDecoratorsMeta Ctor :: metadata_lookups_of l'
  end.
End Lineage.

(** [v1 || v2 || ... || last] *)
Fixpoint first_truthy (vs : list value) (last : value) : value :=
  match vs with
  | [] => last
  | v :: vs' => if truthy v then v else first_truthy vs' last
  end.

(** The metadata lookups of a trace: what is left when the placeholder
    resolutions are taken out. *)
Definition metadata_events (t : list event) : list event :=
  omap (fun e => match e with EvResolveCircular _ => None | _ => Some e end) t.

(** [s'] has everything [s] has: the cache entries, the frozen objects and
    the observed-field descriptors, in the order they were installed;
    identities are only used up. *)
Definition grows (s s' : state) : Prop :=
  extends s s' ∧
  frozen s ⊆ frozen s' ∧
  (∀ p l, observed s !! p = Some l → ∃ l', observed s' !! p = Some (l ++ l')) ∧
  next_oid s ≤ next_oid s'.

(** Every class with a cached definition has a frozen prototype. *)
Definition prototypes_frozen (E : Env) (s : state) : Prop :=
  ∀ c d p,
    CtorToDefMap s !! c = Some d →
    Get E (VObj c) "prototype" = Ok (VObj p) →
    p ∈ frozen s.

(** Every cached definition is a definition of the class it is cached
    for. *)
Definition towers (E : Env) (s : state) : Prop :=
  ∀ c d, CtorToDefMap s !! c = Some d → definition_of E (VObj c) d.

(** ** Recognition without placeholders *)

Section Descent.
Variable E : Env.

(** The base class is [r] itself or lies on the prototype chain of [r]. *)
Definition descends_from_base (v : value) : bool :=
  match v with
  | VObj r =>
      bool_decide (r = BaseLightningElement E)
      || has_in_chain E (chain_fuel E) r (BaseLightningElement E)
  | _ => false
  end.

(** [ctor.prototype instanceof BaseLightningElement], where it yields a
    boolean. *)
Definition prototype_extends_base (ctor : value) : bool :=
  match (let? prototype := Get E ctor "prototype" in
         instanceof E prototype (BaseLightningElement E)) with
  | Ok b => b
  | Fail _ => false
  end.

(** No object of the program is a circular-module placeholder. *)
Definition placeholder_free : Prop := ∀ r, circular (object E r) = None.
End Descent.

(** ** The errors of a resolution *)

(** The errors [def.ts] raises itself or lets through from the language
    runtime; two of them exist in development builds only. *)
Inductive raised (E : Env) : error → Prop :=
  | raised_not_valid v : raised E (TypeError (NotValidComponent v))
  | raised_invalid_chain n : raised E (ReferenceError (InvalidPrototypeChain n))
  | raised_native op : raised E (TypeError (Native op))
  | raised_circular n :
      production E = false → raised E (ReferenceError (CircularModuleDependency n))
  | raised_assertion ctorName :
      production E = false → raised E (AssertionError (MissingConstructor ctorName)).

(** ** [getComponentConstructor] *)

(** Modelled from the spec: the view-model of [./vm] is missing. It is the
    "hidden per-instance back-reference installed by instance-creation
    code", of which [def.ts] reads [vm.def] only. *)
Record VM := { vm_def : ComponentDef }.

Section Reflection.
Variable E : Env.

(** The global [HTMLElement]. *)
Variable HTMLElement : ref.

(** [getHiddenField(elm, ViewModelReflection)] of [../shared/fields], which
    is missing: the view-model kept on the element, [None] standing for
    [undefined]. *)
Variable getHiddenField : value → option VM.

Definition getComponentConstructor (elm : value) : result value :=
  let ctor := VNull in
  let? isElement := instanceof E elm HTMLElement in
  if isElement then
    match getHiddenField elm with
    | Some vm => Ok (def_ctor (vm_def vm))
    | None => Ok ctor
    end
  else Ok ctor.
End Reflection.

(** ** More of the loaded program

    Objects added to the sample graph for the edge cases:

    - 22 a placeholder whose resolver returns [null], 23 one whose resolver
      returns [undefined];
    - 24/25 a class [P] whose superclass is 22 and whose prototype inherits
      from the base prototype, 30/31 the same over 23;
    - 26/27 a class [Q] over 22 and 28/29 a class [R] over 23, with
      prototypes that do not inherit from the base prototype;
    - 32/33 a class [W] over the base class whose own [constructor] property
      is [undefined];
    - 34 a function [V] over the base class whose [prototype] is
      [undefined];
    - 35/36 [HTMLElement] and its prototype, 37 an element;
    - 38/39 a class [K] and 40/41 a class [L] in two modules that import
      each other: the superclass of [K] is the placeholder 42, which
      resolves to [L], and the superclass of [L] is the placeholder 43,
      which resolves to [K]. *)
Definition edge_heap : gmap ref obj :=
  list_to_map
    [ (22, placeholder (Some 1) VNull);
      (23, placeholder (Some 1) VUndefined);
      (24, function_object (Some 22) [("prototype", VObj 25); ("name", str "P")]);
      (25, plain_object (Some 4) [("constructor", VObj 24)]);
      (26, function_object (Some 22) [("prototype", VObj 27); ("name", str "Q")]);
      (27, plain_object (Some 0) [("constructor", VObj 26)]);
      (28, function_object (Some 23) [("prototype", VObj 29); ("name", str "R")]);
      (29, plain_object (Some 0) [("constructor", VObj 28)]);
      (30, function_object (Some 23) [("prototype", VObj 31); ("name", str "U")]);
      (31, plain_object (Some 4) [("constructor", VObj 30)]);
      (32, function_object (Some 3)
             [("prototype", VObj 33); ("name", str "W"); ("constructor", VUndefined)]);
      (33, plain_object (Some 4) [("constructor", VObj 32)]);
      (34, function_object (Some 3) [("prototype", VUndefined); ("name", str "V")]);
      (35, function_object (Some 1) [("prototype", VObj 36); ("name", str "HTMLElement")]);
      (36, plain_object (Some 0) [("constructor", VObj 35)]);
      (37, plain_object (Some 36) []);
      (38, function_object (Some 42) [("prototype", VObj 39); ("name", str "K")]);
      (39, plain_object (Some 0) [("constructor", VObj 38)]);
      (40, function_object (Some 43) [("prototype", VObj 41); ("name", str "L")]);
      (41, plain_object (Some 0) [("constructor", VObj 40)]);
      (42, placeholder (Some 1) (VObj 40));
      (43, placeholder (Some 1) (VObj 38)) ]
  ∪ demo_heap.

Definition edge_env (prod : bool) : Env :=
  {| production := prod;
     heap := edge_heap;
     BaseLightningElement := 3;
     defaultEmptyTemplate := 6;
     HTMLElementOriginalDescriptors := ["title"];
     PrimitivePrototype := fun _ => 0;
     getDecoratorsMeta := abc_decorators;
     getComponentRegisteredMeta := fun _ => None |}.

(** The sample graph without the placeholder and the class over it. *)
Definition plain_heap : gmap ref obj := delete 15 (delete 14 demo_heap).

Definition plain_env : Env :=
  {| production := false;
     heap := plain_heap;
     BaseLightningElement := 3;
     defaultEmptyTemplate := 6;
     HTMLElementOriginalDescriptors := [];
     PrimitivePrototype := fun _ => 0;
     getDecoratorsMeta := abc_decorators;
     getComponentRegisteredMeta := fun _ => None |}.

#[global] Instance ends_within_dec E n r : Decision (ends_within E n r).
Proof.
  revert r. induction n as [|n IH]; intros r; simpl;
    destruct (proto (object E r)); first [apply IH | apply _].
Defined.

(** * The import rewrites of the Babel plugin

    A shallow embedding of the Pulsar rewrites of
    [packages/@lwc/babel-plugin-component/src/index.ts] and
    [pulsar_rewrites.js]: [transformSalesforceSchema] and the callbacks that
    the [Program] visitor runs on the schema, apex and user imports. What
    the callbacks print on the console is not part of the model, except for
    the statement that the later revision of [index.ts] prints for a schema
    import. *)

(** ** JavaScript strings

    A string is the sequence of its code units. *)

(** [s.indexOf(c)] for a search string [c] of one character. *)
Fixpoint indexOf (s : string) (c : ascii) : Z :=
  match s with
  | EmptyString => (-1)%Z
  | String a s' =>
      if Ascii.eqb a c then 0%Z
      else
        let i := indexOf s' c in
        if (i <? 0)%Z then (-1)%Z else (i + 1)%Z
  end.

(** [s.substring(start, end)] for integers: both are clamped to
    [0 .. s.length], and swapped when [start] is the larger one. *)
Definition substring (s : string) (start end_ : Z) : string :=
  let len := Z.of_nat (String.length s) in
  let a := Z.min (Z.max start 0) len in
  let b := Z.min (Z.max end_ 0) len in
  String.substring (Z.to_nat (Z.min a b)) (Z.to_nat (Z.max a b - Z.min a b)) s.

(** [s.substring(start)] *)
Definition substring_from (s : string) (start : Z) : string :=
  substring s start (Z.of_nat (String.length s)).

(** [s.replace(/c/i, replacement)] for a pattern that matches the one
    character [c]: the first match is replaced. *)
Fixpoint replace_first (c : ascii) (replacement : string) (s : string) : string :=
  match s with
  | EmptyString => EmptyString
  | String a s' =>
      if Ascii.eqb a c then replacement +:+ s'
      else String a (replace_first c replacement s')
  end.

(** [s.replace(/c/gi, replacement)]: every match is replaced. *)
Fixpoint replace_all (c : ascii) (replacement : string) (s : string) : string :=
  match s with
  | EmptyString => EmptyString
  | String a s' =>
      if Ascii.eqb a c then replacement +:+ replace_all c replacement s'
      else String a (replace_all c replacement s')
  end.

(** [s.split(c)] for a separator [c] of one character. *)
Fixpoint split (c : ascii) (s : string) : list string :=
  match s with
  | EmptyString => [EmptyString]
  | String a s' =>
      if Ascii.eqb a c then EmptyString :: split c s'
      else
        match split c s' with
        | part :: parts => String a part :: parts
        | [] => [String a EmptyString]
        end
  end.

(** [c] occurs in [s]. *)
Fixpoint occurs (c : ascii) (s : string) : bool :=
  match s with
  | EmptyString => false
  | String a s' => Ascii.eqb a c || occurs c s'
  end.

(** ** Syntax trees

    The nodes the rewrites build, named after the builders of
    [@babel/core]'s [types]. *)
#[warnings="-register-all"]
Inductive Node :=
  | identifier (name : string)
  | stringLiteral (value : string)
  | objectProperty (key value : Node)
  | objectExpression (properties : list Node)
  | variableDeclarator (id init : Node)
  | variableDeclaration (kind : string) (declarations : list Node).

(** Of an import declaration the rewrites read [node.source.value] and
    [node.specifiers[i].local.name]. *)
Record ImportSpecifier := { local_name : string }.

Record ImportDeclaration := {
  source_value : string;
  specifiers : list ImportSpecifier;
}.

Definition transformSalesforceSchema (varname resource : string) : Node :=
  let idx := indexOf resource "." in
  let objExpression :=
    if (idx <? 0)%Z then
      objectExpression
        [objectProperty (identifier "objectApiName") (stringLiteral resource)]
    else
      let objectApiName := substring resource 0 idx in
      let fieldApiName := substring_from resource (idx + 1) in
      objectExpression
        [objectProperty (identifier "objectApiName") (stringLiteral objectApiName);
         objectProperty (identifier "fieldApiName") (stringLiteral fieldApiName)] in
  let schemaTransformed :=
    variableDeclaration "const" [variableDeclarator (identifier varname) objExpression] in
  schemaTransformed.

(** [const varname = { key: 'value', ... }] *)
Definition const_object (varname : string) (entries : list (string * string)) : Node :=
  variableDeclaration "const"
    [variableDeclarator (identifier varname)
       (objectExpression
          ((fun entry => objectProperty (identifier entry.1) (stringLiteral entry.2))
             <$> entries))].

Section Rewrites.
(** The constants of [./constants], which is not among these sources. *)
Variable SALESFORCE_SCHEMA_PREFIX : string.
Variable SALESFORCE_APEX : string.
Variable SALESFORCE_USER : string.

(** The callback of [schemaImports.forEach]: the declaration it inserts
    before the import, which it then removes. Reading
    [specifiers[0].local] throws when the import has no specifier. *)
Definition rewriteSchemaImport (imp : ImportDeclaration) : result Node :=
  let schema :=
    substring_from (source_value imp)
      (Z.of_nat (String.length SALESFORCE_SCHEMA_PREFIX)) in
  match specifiers imp with
  | [] => Throw (TypeError (Native "property access"))
  | specifier :: _ =>
      let varname := local_name specifier in
      Ok (transformSalesforceSchema varname schema)
  end.

(** The callback of [apexImports.forEach] in [index.ts] and
    [pulsar_rewrites.js]: the new [node.source.value]. *)
Definition rewriteApexImport (value : string) : string :=
  if decide (value = SALESFORCE_APEX) then "@pulsarlwc/apex"
  else replace_all "." "/" value.

(** The same callback in the later revision of [index.ts]. *)
Definition rewriteApexImport_stripped (origImport : string) : string :=
  if decide (origImport = SALESFORCE_APEX) then "@pulsarlwc/apex"
  else
    replace_first "." "/"
      (substring_from origImport (Z.of_nat (String.length SALESFORCE_APEX) + 1)).


(** The statement the later revision of [index.ts] prints for a schema
    import: [schema.split('.')] is destructured into its first two
    parts. *)
Definition newSchemaStatement (varname schema : string) : string :=
  match split "." schema with
  | objApiName :: fieldApiName :: _ =>
      "const " +:+ varname +:+ " = { objectApiName: '" +:+ objApiName
        +:+ "', fieldApiName: '" +:+ fieldApiName +:+ "' }"
  | objApiName :: [] =>
      "const " +:+ varname +:+ " = { objectApiName: '" +:+ objApiName +:+ "' }"
  | [] =>
      "const " +:+ varname +:+ " = { objectApiName: 'undefined' }"
  end.
End Rewrites.

(** * The rollup configuration of [@lwc/features]

    [packages/@lwc/features/scripts/rollup/rollup.config.js]. *)

(** [['flags', format === 'cjs' ? '.cjs' : '', '.js'].join('')] *)
Definition generateTargetName (format : string) : string :=
  String.concat "" ["flags"; if decide (format = "cjs") then ".cjs" else ""; ".js"].

(** * Properties *)

(** ** The bounded walks are exact on acyclic heaps *)

Section Adequacy.
Variable E : Env.

Lemma ends_within_exact n r : ends_within E n r → ∃ k, k ≤ n ∧ exact_links E k r.
Proof.
  revert r. induction n as [|n IH]; intros r; simpl;
    destruct (proto (object E r)) as [p|] eqn:Hp; intros H.
  - contradiction.
  - exists 0. simpl. rewrite Hp. auto.
  - destruct (IH _ H) as (k & Hk & Hex). exists (S k). simpl. rewrite Hp. split; [lia|assumption].
  - exists 0. simpl. rewrite Hp. split; [lia|reflexivity].
Qed.

Lemma exact_ends_within k n r : exact_links E k r → k ≤ n → ends_within E n r.
Proof.
  revert k r. induction n as [|n IH]; intros k r Hex Hle;
    destruct k as [|k]; simpl in *; destruct (proto (object E r)) as [p|]; try lia; auto.
  eapply IH; [eassumption|lia].
Qed.

Lemma exact_links_functional k1 k2 r : exact_links E k1 r → exact_links E k2 r → k1 = k2.
Proof.
  revert k2 r. induction k1 as [|k1 IH]; intros k2 r H1 H2;
    destruct k2 as [|k2]; simpl in *; destruct (proto (object E r)) as [p|];
    try contradiction; try discriminate; auto.
  f_equal. eapply IH; eassumption.
Qed.

Lemma links_exact n k r x :
  exact_links E k r → x ∈ links E n r → ∃ j, j ≤ k ∧ 0 < j ∧ exact_links E j x.
Proof.
  revert k r. induction n as [|n IH]; intros k r Hex Hx; simpl in Hx.
  { by apply elem_of_nil in Hx. }
  destruct (proto (object E r)) as [p|] eqn:Hp; [|by apply elem_of_nil in Hx].
  destruct k as [|k]; simpl in Hex; rewrite Hp in Hex; [contradiction|].
  apply elem_of_cons in Hx as [->|Hx].
  - exists (S k). simpl. rewrite Hp. split; [lia|]. split; [lia|assumption].
  - destruct (IH _ _ Hex Hx) as (j & Hj & Hpos & Hexj). exists j. split; [lia|]. auto.
Qed.

Lemma links_NoDup n k r : exact_links E k r → NoDup (links E n r).
Proof.
  revert k r. induction n as [|n IH]; intros k r Hex; simpl; [constructor|].
  destruct (proto (object E r)) as [p|] eqn:Hp; [|constructor].
  destruct k as [|k]; simpl in Hex; rewrite Hp in Hex; [contradiction|].
  constructor; [|eapply IH; eassumption].
  intros Hin. destruct (links_exact _ _ _ _ Hex Hin) as (j & Hj & _ & Hexj).
  assert (exact_links E (S k) r) as Hr by (simpl; rewrite Hp; assumption).
  pose proof (exact_links_functional _ _ _ Hexj Hr). lia.
Qed.

Lemma links_length n k r : exact_links E k r → length (links E n r) = n `min` k.
Proof.
  revert k r. induction n as [|n IH]; intros k r Hex; simpl; [reflexivity|].
  destruct (proto (object E r)) as [p|] eqn:Hp;
    destruct k as [|k]; simpl in Hex; rewrite Hp in Hex;
    try contradiction; try discriminate; [|reflexivity].
  simpl. f_equal. by apply IH.
Qed.

Lemma links_in_heap n r x : x ∈ links E n r → x ∈ dom (heap E).
Proof.
  revert r. induction n as [|n IH]; intros r Hx; simpl in Hx.
  { by apply elem_of_nil in Hx. }
  destruct (proto (object E r)) as [p|] eqn:Hp; [|by apply elem_of_nil in Hx].
  apply elem_of_cons in Hx as [->|Hx]; [|eapply IH; eassumption].
  apply elem_of_dom. unfold object in Hp. rewrite lookup_total_alt in Hp.
  destruct (heap E !! r); [eauto|discriminate].
Qed.

Lemma links_bounded n k r : exact_links E k r → length (links E n r) ≤ size (heap E).
Proof.
  intros Hex. rewrite <- size_dom. unfold size, set_size. simpl.
  apply submseteq_length, NoDup_submseteq; [eapply links_NoDup; eassumption|].
  intros x Hx. apply elem_of_elements. eapply links_in_heap; eassumption.
Qed.

(** On an acyclic heap every chain has ended after [size (heap E)]
    links. *)
Lemma acyclic_ends r : acyclic E → ends_within E (size (heap E)) r.
Proof.
  intros Hacyclic. destruct (Hacyclic r) as [n Hn].
  destruct (ends_within_exact _ _ Hn) as (k & _ & Hex).
  apply exact_ends_within with (k := k); [assumption|].
  pose proof (links_bounded (S (size (heap E))) _ _ Hex) as Hb.
  rewrite (links_length _ _ _ Hex) in Hb. lia.
Qed.

Lemma lookup_chain_ended n r key fuel1 fuel2 :
  ends_within E n r → n < fuel1 → n < fuel2 →
  lookup_chain E fuel1 r key = lookup_chain E fuel2 r key.
Proof.
  revert r fuel1 fuel2. induction n as [|n IH]; intros r fuel1 fuel2 Hend H1 H2;
    (destruct fuel1 as [|fuel1]; [lia|]); (destruct fuel2 as [|fuel2]; [lia|]);
    simpl in *; destruct (own (object E r) !! key); auto;
    destruct (proto (object E r)); auto; [contradiction|].
  apply IH; [assumption|lia|lia].
Qed.

Lemma has_in_chain_ended n o P fuel1 fuel2 :
  ends_within E n o → n < fuel1 → n < fuel2 →
  has_in_chain E fuel1 o P = has_in_chain E fuel2 o P.
Proof.
  revert o fuel1 fuel2. induction n as [|n IH]; intros o fuel1 fuel2 Hend H1 H2;
    (destruct fuel1 as [|fuel1]; [lia|]); (destruct fuel2 as [|fuel2]; [lia|]);
    simpl in *; destruct (proto (object E o)); auto; [contradiction|].
  destruct (decide (r = P)); [reflexivity|]. apply IH; [assumption|lia|lia].
Qed.

(** Hence, on an acyclic heap, [chain_fuel] is as good as any larger
    bound: the property reads and the [instanceof] tests of the model are
    those of the unbounded walks. *)
Lemma chain_fuel_enough r key fuel :
  acyclic E → chain_fuel E ≤ fuel →
  lookup_chain E fuel r key = lookup_chain E (chain_fuel E) r key.
Proof.
  intros Hacyclic Hfuel. unfold chain_fuel in *.
  apply lookup_chain_ended with (n := size (heap E)); [by apply acyclic_ends|lia|lia].
Qed.

Lemma chain_fuel_enough_instanceof o P fuel :
  acyclic E → chain_fuel E ≤ fuel →
  has_in_chain E fuel o P = has_in_chain E (chain_fuel E) o P.
Proof.
  intros Hacyclic Hfuel. unfold chain_fuel in *.
  apply has_in_chain_ended with (n := size (heap E)); [by apply acyclic_ends|lia|lia].
Qed.
End Adequacy.


(** ** Running the monad *)

Lemma bind_inv {A B} (m : M A) (k : A → M B) s r s' t :
  bind m k s = (r, s', t) →
  (∃ a s1 t1 t2, m s = (Ok a, s1, t1) ∧ k a s1 = (r, s', t2) ∧ t = t1 ++ t2)
  ∨ (∃ f, m s = (Fail f, s', t) ∧ r = Fail f).
Proof.
  unfold bind. destruct (m s) as [[[a|f] s1] t1].
  - destruct (k a s1) as [[r2 s2] t2] eqn:Hk. intros [= <- <- <-].
    left. exists a, s1, t1, t2. auto.
  - intros [= <- <- <-]. right. exists f. auto.
Qed.

Lemma bind_ok {A B} (m : M A) (k : A → M B) s a s1 t1 :
  m s = (Ok a, s1, t1) →
  bind m k s = (let '(r, s2, t2) := k a s1 in (r, s2, t1 ++ t2)).
Proof. unfold bind. intros ->. reflexivity. Qed.

Lemma bind_fail {A B} (m : M A) (k : A → M B) s f s1 t1 :
  m s = (Fail f, s1, t1) → bind m k s = (Fail f, s1, t1).
Proof. unfold bind. intros ->. reflexivity. Qed.

Lemma bind_lift_ok {A B} (a : A) (k : A → M B) s : bind (lift (Ok a)) k s = k a s.
Proof. unfold bind, lift. destruct (k a s) as [[r s2] t2]. reflexivity. Qed.

Lemma bind_ret {A B} (a : A) (k : A → M B) s : bind (ret a) k s = k a s.
Proof. apply bind_lift_ok. Qed.

Lemma bind_lift_fail {A B} (f : failure) (k : A → M B) s :
  bind (lift (Fail f)) k s = (Fail f, s, []).
Proof. reflexivity. Qed.

Lemma bind_emit {B} (e : event) (k : unit → M B) s :
  bind (emit e) k s = (let '(r, s2, t2) := k tt s in (r, s2, e :: t2)).
Proof. reflexivity. Qed.

Lemma pure_lift {A} (r : result A) : pure (lift r).
Proof. exists r, []. reflexivity. Qed.

Lemma pure_ret {A} (a : A) : pure (ret a).
Proof. apply pure_lift. Qed.

Lemma pure_emit e : pure (emit e).
Proof. exists (Ok tt), [e]. reflexivity. Qed.

Lemma pure_bind {A B} (m : M A) (k : A → M B) :
  pure m → (∀ a, pure (k a)) → pure (bind m k).
Proof.
  intros (r & t & Hm) Hk. destruct r as [a|f].
  - destruct (Hk a) as (r2 & t2 & Hka). exists r2, (t ++ t2). intros s.
    unfold bind. rewrite Hm, Hka. reflexivity.
  - exists (Fail f), t. intros s. unfold bind. rewrite Hm. reflexivity.
Qed.

Lemma pure_run {A} (m : M A) s r s' t :
  pure m → m s = (r, s', t) → s' = s ∧ ∀ s2, m s2 = (r, s2, t).
Proof.
  intros (r0 & t0 & Hm) H. rewrite Hm in H. injection H as <- <- <-. auto.
Qed.

Ltac pure_tac :=
  repeat first
    [ apply pure_ret | apply pure_lift | apply pure_emit
    | apply pure_bind; [| intros ?]
    | match goal with
      | |- pure (if ?c then _ else _) => destruct c
      | |- pure (match ?c with _ => _ end) => destruct c
      end
    | assumption ].

Section Purity.
Variable E : Env.

Lemma pure_resolveCircularModuleDependency v :
  pure (resolveCircularModuleDependency E v).
Proof. unfold resolveCircularModuleDependency, throw. pure_tac. Qed.

Lemma pure_getCtorProto Ctor n : pure (getCtorProto E Ctor n).
Proof.
  unfold getCtorProto, throw.
  pure_tac; apply pure_resolveCircularModuleDependency.
Qed.

Lemma pure_isComponentConstructor_loop fuel current :
  pure (isComponentConstructor_loop E fuel current).
Proof.
  revert current. induction fuel as [|fuel IH]; intros current; simpl.
  - apply pure_lift.
  - unfold throw. pure_tac; try apply pure_resolveCircularModuleDependency; apply IH.
Qed.

Lemma pure_isComponentConstructor fuel ctor :
  pure (isComponentConstructor E fuel ctor).
Proof.
  unfold isComponentConstructor.
  pure_tac; apply pure_isComponentConstructor_loop.
Qed.
End Purity.

(** ** More fuel never changes an answer *)

Lemma approx_refl {A} (m : M A) : approx m m.
Proof. intros s r s' t H _. exact H. Qed.

Lemma approx_trans {A} (m1 m2 m3 : M A) : approx m1 m2 → approx m2 m3 → approx m1 m3.
Proof. intros H12 H23 s r s' t H Hr. apply H23; auto. Qed.

Lemma approx_diverge {A} (m : M A) : approx diverge m.
Proof. intros s r s' t [= <- <- <-] Hr. congruence. Qed.

Lemma approx_bind {A B} (m1 m2 : M A) (k1 k2 : A → M B) :
  approx m1 m2 → (∀ a, approx (k1 a) (k2 a)) → approx (bind m1 k1) (bind m2 k2).
Proof.
  intros Hm Hk s r s' t H Hr.
  destruct (bind_inv _ _ _ _ _ _ H) as [(a & s1 & t1 & t2 & H1 & H2 & ->)|(f & H1 & ->)].
  - assert (H1' := Hm _ _ _ _ H1 ltac:(discriminate)).
    assert (H2' := Hk _ _ _ _ _ H2 Hr).
    rewrite (bind_ok _ _ _ _ _ _ H1'), H2'. reflexivity.
  - assert (Hf : @Fail A f ≠ OutOfFuel) by congruence.
    assert (H1' := Hm _ _ _ _ H1 Hf). apply (bind_fail _ _ _ _ _ _ H1').
Qed.

Ltac approx_tac :=
  repeat first
    [ apply approx_refl
    | apply approx_diverge
    | assumption
    | apply approx_bind; [| intros ?]
    | match goal with
      | |- approx (if ?c then _ else _) (if ?c then _ else _) => destruct c
      | |- approx (match ?c with _ => _ end) (match ?c with _ => _ end) => destruct c
      end ].

Section Fuel.
Variable E : Env.

Lemma isComponentConstructor_loop_mono fuel1 fuel2 current :
  fuel1 ≤ fuel2 →
  approx (isComponentConstructor_loop E fuel1 current)
         (isComponentConstructor_loop E fuel2 current).
Proof.
  revert fuel2 current. induction fuel1 as [|fuel1 IH]; intros fuel2 current Hle.
  - apply approx_diverge.
  - destruct fuel2 as [|fuel2]; [lia|]. simpl.
    approx_tac; apply IH; lia.
Qed.

Lemma isComponentConstructor_mono fuel1 fuel2 ctor :
  fuel1 ≤ fuel2 →
  approx (isComponentConstructor E fuel1 ctor) (isComponentConstructor E fuel2 ctor).
Proof.
  intros Hle. unfold isComponentConstructor.
  approx_tac; by apply isComponentConstructor_loop_mono.
Qed.

Lemma createComponentDef_approx rec1 rec2 Ctor meta n :
  (∀ v m, approx (rec1 v m) (rec2 v m)) →
  approx (createComponentDef E rec1 Ctor meta n) (createComponentDef E rec2 Ctor meta n).
Proof.
  intros Hrec. unfold createComponentDef.
  approx_tac; apply Hrec.
Qed.

Lemma getComponentDef_mono fuel1 fuel2 Ctor n :
  fuel1 ≤ fuel2 →
  approx (getComponentDef E fuel1 Ctor n) (getComponentDef E fuel2 Ctor n).
Proof.
  revert fuel2 Ctor n. induction fuel1 as [|fuel1 IH]; intros fuel2 Ctor n Hle.
  - apply approx_diverge.
  - destruct fuel2 as [|fuel2]; [lia|]. cbn [getComponentDef].
    apply approx_bind; [apply approx_refl|]. intros [def|]; [apply approx_refl|].
    apply approx_bind; [apply isComponentConstructor_mono; lia|]. intros recognized.
    destruct (negb recognized); [apply approx_refl|].
    apply approx_bind; [apply approx_refl|]. intros registered.
    apply approx_bind; [apply approx_refl|]. intros meta.
    apply approx_bind; [apply approx_refl|]. intros name.
    apply approx_bind; [|intros def; apply approx_refl].
    apply createComponentDef_approx. intros v m. apply IH. lia.
Qed.
End Fuel.

(** ** Symbolic execution of a run *)

Lemma lift_inv {A} (x : result A) s r s' t :
  lift x s = (r, s', t) → r = x ∧ s' = s ∧ t = [].
Proof. intros [= <- <- <-]. auto. Qed.

Lemma ret_inv {A} (a : A) s r s' t :
  ret a s = (r, s', t) → r = Ok a ∧ s' = s ∧ t = [].
Proof. intros [= <- <- <-]. auto. Qed.

Lemma emit_inv e s r s' t :
  emit e s = (r, s', t) → r = Ok tt ∧ s' = s ∧ t = [e].
Proof. intros [= <- <- <-]. auto. Qed.

Ltac inv_run :=
  repeat match goal with
  | H : bind _ _ _ = (_, _, _) |- _ =>
      let a := fresh "a" in
      let s1 := fresh "s" in
      let t1 := fresh "t" in
      let t2 := fresh "t" in
      let f := fresh "f" in
      let H1 := fresh "Hrun" in
      let H2 := fresh "Hrun" in
      apply bind_inv in H as [(a & s1 & t1 & t2 & H1 & H2 & ?)|(f & H1 & ?)]
  | H : lift _ _ = (_, _, _) |- _ => apply lift_inv in H as (? & ? & ?)
  | H : throw _ _ = (_, _, _) |- _ => apply lift_inv in H as (? & ? & ?)
  | H : diverge _ = (_, _, _) |- _ => apply lift_inv in H as (? & ? & ?)
  | H : ret _ _ = (_, _, _) |- _ => apply ret_inv in H as (? & ? & ?)
  | H : emit _ _ = (_, _, _) |- _ => apply emit_inv in H as (? & ? & ?)
  | H : (if ?c then _ else _) _ = (_, _, _) |- _ => destruct c eqn:?
  | H : (match ?c with _ => _ end) _ = (_, _, _) |- _ => destruct c eqn:?
  | _ => progress simplify_eq
  end.

Section Inversion.
Variable E : Env.

#[local] Arguments lookup_chain : simpl never.

Lemma createComponentDef_stages rec Ctor meta name s :
  createComponentDef E rec Ctor meta name s =
    (let* _ := lift (dev_check E Ctor) in
     let* _ := emit (EvDecoratorsMeta Ctor) in
     let* m := lift (read_members E Ctor) in
     let* superProto := getCtorProto E Ctor name in
     let* superDef := super_def E rec superProto name in
     finish E Ctor meta m superDef) s.
Proof.
  unfold createComponentDef, dev_check, read_members, call_getDecoratorsMeta, assert_isTrue,
    super_def, finish.
  destruct (production E) eqn:Hp; cbv [negb bind lift ret emit rbind throw].
  all: repeat
    (cbv beta iota;
     match goal with
     | |- context [match Get E ?a ?b with _ => _ end] => destruct (Get E a b)
     | |- context [if truthy ?c then _ else _] => destruct (truthy c)
     end).
  all: try reflexivity.
  all: destruct (getCtorProto E Ctor name s) as [[[superProto|?] s1] t1]; [|reflexivity].
  all: destruct (decide (superProto ≠ VObj (BaseLightningElement E)));
    [destruct (rec superProto name s1) as [[[superDef|?] s2] t2]; [|reflexivity]|].
  all: cbv beta iota; cbn [m_decorators m_proto].
  all: destruct (fields (getDecoratorsMeta E Ctor)) as [fs|].
  all: try match goal with
       | |- context [defineProperties ?a ?b ?s] =>
           destruct (defineProperties a b s) as [[[?|?] ?] ?]; [|reflexivity]
       end.
  all: cbv [new_object]; cbv beta iota.
  all: try match goal with
       | |- context [freeze ?a ?s] => destruct (freeze a s) as [[[?|?] ?] ?]
       end.
  all: reflexivity.
Qed.

Lemma isFunction_obj v : isFunction E v = true → ∃ c, v = VObj c.
Proof. destruct v; try discriminate. eauto. Qed.

Lemma isComponentConstructor_true fuel ctor s s' t :
  isComponentConstructor E fuel ctor s = (Ok true, s', t) → isFunction E ctor = true.
Proof.
  unfold isComponentConstructor. destruct (isFunction E ctor); [reflexivity|].
  simpl. intros H. inv_run.
Qed.

Lemma CtorToDefMap_get_run Ctor s :
  CtorToDefMap_get Ctor s = (Ok (cached s Ctor), s, []).
Proof. destruct Ctor; reflexivity. Qed.

Lemma getComponentDef_inv fuel Ctor n s r s' t :
  getComponentDef E (S fuel) Ctor n s = (r, s', t) →
  (∃ d, cached s Ctor = Some d ∧ r = Ok d ∧ s' = s ∧ t = [])
  ∨ (cached s Ctor = None ∧
     ((∃ f, isComponentConstructor E (S fuel) Ctor s = (Fail f, s, t) ∧
            r = Fail f ∧ s' = s)
      ∨ (isComponentConstructor E (S fuel) Ctor s = (Ok false, s, t) ∧
         r = Throw (TypeError (NotValidComponent Ctor)) ∧ s' = s)
      ∨ (∃ c t0 meta name r1 s1 t1,
           Ctor = VObj c ∧
           isComponentConstructor E (S fuel) Ctor s = (Ok true, s, t0) ∧
           resolved_meta E Ctor = Ok meta ∧
           display_name E n Ctor = Ok name ∧
           createComponentDef E (getComponentDef E fuel) Ctor meta name s = (r1, s1, t1) ∧
           t = t0 ++ EvRegisteredMeta Ctor :: t1 ∧
           match r1 with
           | Fail f => r = Fail f ∧ s' = s1
           | Ok d =>
               r = Ok d ∧ CtorToDefMap s' = <[c := d]> (CtorToDefMap s1) ∧
               same_marks s1 s'
           end))).
Proof.
  cbn [getComponentDef]. intros H.
  apply bind_inv in H as [(def & s0 & t0 & t1 & Hget & H & ->)|(f & Hget & _)];
    rewrite CtorToDefMap_get_run in Hget; [|discriminate].
  injection Hget as <- <- <-. destruct (cached s Ctor) as [d|] eqn:Hc.
  { left. apply ret_inv in H as (-> & -> & ->). eauto. }
  right. split; [reflexivity|].
  apply bind_inv in H as [(b & s0 & t0 & t2 & Hrec & H & ->)|(f & Hrec & ->)].
  2: { destruct (pure_run _ _ _ _ _ (pure_isComponentConstructor E _ _) Hrec) as [-> _].
       left. eauto. }
  destruct (pure_run _ _ _ _ _ (pure_isComponentConstructor E _ _) Hrec) as [-> _].
  destruct b; simpl in H.
  2: { apply lift_inv in H as (-> & -> & ->). right. left.
       rewrite app_nil_r. auto. }
  right. right.
  destruct (isFunction_obj _ (isComponentConstructor_true _ _ _ _ _ Hrec)) as [c ->].
  unfold call_getComponentRegisteredMeta, resolved_meta, display_name in *.
  change (Get E (VObj c) "name") with (Ok (lookup_chain E (chain_fuel E) c "name")) in *.
  destruct (getComponentRegisteredMeta E (VObj c)) as [meta|];
    destruct (truthy n); cbn [rbind]; inv_run.
  all: try match goal with
       | H : CtorToDefMap_set _ _ _ = _ |- _ => injection H as ? ? ?; subst
       end.
  all: rewrite ?app_nil_r.
  all: do 7 eexists.
  all: repeat (split; [first [reflexivity | eassumption]|]).
  all: cbn [CtorToDefMap frozen observed next_oid]; unfold same_marks; auto.
Qed.

Lemma Get_fail v key f :
  Get E v key = Fail f → f = Thrown (TypeError (Native "property access")).
Proof. destruct v; simpl; congruence. Qed.

Lemma defineProperties_inv O ds s r s' t :
  defineProperties O ds s = (r, s', t) →
  t = [] ∧ CtorToDefMap s' = CtorToDefMap s ∧ frozen s' = frozen s ∧
  next_oid s' = next_oid s ∧
  (r = Ok tt ∨ r = Throw (TypeError (Native "Object.defineProperties")) ∧ s' = s).
Proof.
  unfold defineProperties. destruct O as [| | |o]; try (intros [= <- <- <-]; auto 10).
  destruct ds; [intros [= <- <- <-]; auto 10|].
  destruct (decide (o ∈ frozen s)); intros [= <- <- <-]; auto 10.
Qed.

Lemma freeze_inv O s r s' t :
  freeze O s = (r, s', t) →
  r = Ok tt ∧ t = [] ∧ CtorToDefMap s' = CtorToDefMap s ∧ observed s' = observed s ∧
  next_oid s' = next_oid s.
Proof. unfold freeze. destruct O; intros [= <- <- <-]; auto. Qed.

Lemma finish_inv Ctor meta m superDef s r s' t :
  finish E Ctor meta m superDef s = (r, s', t) →
  t = [] ∧ CtorToDefMap s' = CtorToDefMap s ∧
  ((r = Ok (merged (next_oid s) Ctor meta m superDef) ∧ next_oid s' = S (next_oid s))
   ∨ (∃ e, r = Throw e ∧ next_oid s ≤ next_oid s')).
Proof.
  unfold finish, new_object. intros H. inv_run.
  all: repeat match goal with
       | H : defineProperties _ _ _ = _ |- _ =>
           apply defineProperties_inv in H as (? & ? & ? & ? & [?|[? ?]])
       | H : freeze _ _ = _ |- _ => apply freeze_inv in H as (? & ? & ? & ? & ?)
       | H : (_, _, _) = (_, _, _) |- _ => injection H as ? ? ?
       end; simplify_eq; cbn [CtorToDefMap next_oid] in *.
  all: split; [reflexivity|]; split; [congruence|].
  all: try (right; destruct f; [eexists; split; [reflexivity|]|]; lia || fail).
  all: try (left; split; [congruence|congruence]).
  all: try (right; eexists; split; [reflexivity|lia]; fail).
  all: right; match goal with
              | H : Fail _ = Get _ _ _ |- _ => symmetry in H; apply Get_fail in H as ->
              | H : Get _ _ _ = Fail _ |- _ => apply Get_fail in H as ->
              end; eexists; split; [reflexivity|lia].
Qed.

(** No event of recognition or of superclass lookup is a metadata lookup. *)
Lemma resolveCircularModuleDependency_lookups v s r s' t :
  resolveCircularModuleDependency E v s = (r, s', t) → decorator_lookups t = [].
Proof.
  unfold resolveCircularModuleDependency, throw. intros H.
  inv_run; reflexivity.
Qed.

Lemma getCtorProto_lookups Ctor n s r s' t :
  getCtorProto E Ctor n s = (r, s', t) → decorator_lookups t = [].
Proof.
  unfold getCtorProto, throw, decorator_lookups. intros H. inv_run.
  all: rewrite ?omap_app.
  all: repeat match goal with
       | H : resolveCircularModuleDependency _ _ _ = _ |- _ =>
           apply resolveCircularModuleDependency_lookups in H;
           unfold decorator_lookups in H; rewrite H
       end.
  all: reflexivity.
Qed.

Lemma isComponentConstructor_loop_lookups fuel current s r s' t :
  isComponentConstructor_loop E fuel current s = (r, s', t) → decorator_lookups t = [].
Proof.
  revert current s r s' t. induction fuel as [|fuel IH]; intros current s r s' t H;
    cbn [isComponentConstructor_loop] in H; unfold decorator_lookups in *; inv_run.
  all: rewrite ?omap_app.
  all: repeat match goal with
       | H : resolveCircularModuleDependency _ _ _ = _ |- _ =>
           apply resolveCircularModuleDependency_lookups in H;
           unfold decorator_lookups in H; rewrite H
       | H : isComponentConstructor_loop _ _ _ _ = _ |- _ =>
           apply IH in H; rewrite H
       end.
  all: reflexivity.
Qed.

Lemma isComponentConstructor_lookups fuel ctor s r s' t :
  isComponentConstructor E fuel ctor s = (r, s', t) → decorator_lookups t = [].
Proof.
  unfold isComponentConstructor. intros H. inv_run.
  all: rewrite ?app_nil_l.
  all: try reflexivity.
  all: eapply isComponentConstructor_loop_lookups; eassumption.
Qed.

(** The runs of [createComponentDef]. *)
Lemma createComponentDef_inv rec Ctor meta name s r s' t :
  createComponentDef E rec Ctor meta name s = (r, s', t) →
  (∃ f, r = Fail f ∧ s' = s ∧ decorator_lookups t ⊆ [Ctor])
  ∨ (∃ m superProto t0 rs s1 t1,
       dev_check E Ctor = Ok tt ∧
       read_members E Ctor = Ok m ∧
       getCtorProto E Ctor name s = (Ok superProto, s, t0) ∧
       super_def E rec superProto name s = (rs, s1, t1) ∧
       t = EvDecoratorsMeta Ctor :: t0 ++ t1 ∧
       match rs with
       | Fail f => r = Fail f ∧ s' = s1
       | Ok superDef => finish E Ctor meta m superDef s1 = (r, s', [])
       end).
Proof.
  rewrite createComponentDef_stages. intros H.
  apply bind_inv in H as [(u & s0 & t0 & t1 & Hdev & H & ->)|(f & Hdev & ->)];
    apply lift_inv in Hdev as (Hdev & -> & ->).
  2: { left. exists f. split; [reflexivity|]. split; [reflexivity|]. set_solver. }
  destruct u.
  apply bind_inv in H as [(u & s0 & t0 & t2 & Hev & H & ->)|(f & Hev & ->)];
    apply emit_inv in Hev as (Hev & -> & ->); [|discriminate].
  apply bind_inv in H as [(m & s0 & t0 & t3 & Hm & H & ->)|(f & Hm & ->)];
    apply lift_inv in Hm as (Hm & -> & ->).
  2: { left. exists f. split; [reflexivity|]. split; [reflexivity|].
       simpl. set_solver. }
  apply bind_inv in H as [(superProto & s0 & t0 & t4 & Hsp & H & ->)|(f & Hsp & ->)];
    destruct (pure_run _ _ _ _ _ (pure_getCtorProto E _ _) Hsp) as [-> _].
  2: { left. exists f. split; [reflexivity|]. split; [reflexivity|].
       apply getCtorProto_lookups in Hsp. cbn. unfold decorator_lookups in Hsp.
       rewrite Hsp. set_solver. }
  right.
  apply bind_inv in H as [(superDef & s1 & t1 & t5 & Hsd & H & ->)|(f & Hsd & ->)].
  - pose proof (finish_inv _ _ _ _ _ _ _ _ H) as (-> & _).
    exists m, superProto, t0, (Ok superDef), s1, t1.
    rewrite app_nil_r. auto 10.
  - exists m, superProto, t0, (Fail f), s', t4. auto 10.
Qed.
End Inversion.

(** ** The cache *)

Section Cache.
Variable E : Env.

Lemma getComponentDef_hit fuel Ctor n s d :
  cached s Ctor = Some d →
  getComponentDef E (S fuel) Ctor n s = (Ok d, s, []).
Proof.
  intros Hc. cbn [getComponentDef].
  erewrite bind_ok by apply CtorToDefMap_get_run.
  rewrite Hc. reflexivity.
Qed.

Lemma super_def_inv rec superProto name s rs s1 t1 :
  super_def E rec superProto name s = (rs, s1, t1) →
  (superProto = VObj (BaseLightningElement E) ∧
   rs = Ok (lightingElementDef E) ∧ s1 = s ∧ t1 = [])
  ∨ (superProto ≠ VObj (BaseLightningElement E) ∧ rec superProto name s = (rs, s1, t1)).
Proof.
  unfold super_def. destruct (decide (superProto ≠ VObj (BaseLightningElement E))) as [Hne|He].
  - auto.
  - intros [= <- <- <-]. left. split; [|auto].
    destruct (decide (superProto = VObj (BaseLightningElement E))); [assumption|contradiction].
Qed.

(** The definition a call returns is the one the cache holds afterwards. *)
Lemma getComponentDef_Ok_cached fuel Ctor n s d s' t :
  getComponentDef E fuel Ctor n s = (Ok d, s', t) →
  cached s' Ctor = Some d.
Proof.
  destruct fuel as [|fuel]; [discriminate|]. intros H.
  apply getComponentDef_inv in H
    as [(d0 & Hc & ? & -> & ->)|(Hc & [(f & _ & ? & _)|[(_ & ? & _)|H]])];
    simplify_eq; [assumption|].
  destruct H as (c & t0 & meta & name & r1 & s1 & t1 & -> & _ & _ & _ & _ & _ & H).
  destruct r1 as [d1|f]; [|destruct H; discriminate].
  destruct H as ([= <-] & Hs' & _). simpl. rewrite Hs'. apply lookup_insert_eq.
Qed.

(** An entry of the cache is never dropped and never overwritten. *)
Lemma cache_stable fuel Ctor n s r s' t c d :
  getComponentDef E fuel Ctor n s = (r, s', t) →
  CtorToDefMap s !! c = Some d →
  CtorToDefMap s' !! c = Some d.
Proof.
  revert Ctor n s r s' t. induction fuel as [|fuel IH]; intros Ctor n s r s' t H Hcd.
  { apply lift_inv in H as (_ & -> & _). assumption. }
  apply getComponentDef_inv in H
    as [(d0 & Hc & ? & -> & ->)|(Hc & [(f & _ & ? & ->)|[(_ & ? & ->)|H]])];
    try assumption.
  destruct H as (c0 & t0 & meta & name & r1 & s1 & t1 & -> & _ & _ & _ & Hcreate & _ & H).
  assert (Hs1 : CtorToDefMap s1 !! c = Some d).
  { apply createComponentDef_inv in Hcreate
      as [(f & _ & -> & _)|(m & superProto & t2 & rs & s2 & t3 & _ & _ & _ & Hsuper & _ & Hfin)];
      [assumption|].
    assert (Hs2 : CtorToDefMap s2 !! c = Some d).
    { apply super_def_inv in Hsuper as [(_ & _ & -> & _)|(_ & Hrec)]; [assumption|].
      eapply IH; eassumption. }
    destruct rs as [superDef|f].
    - apply finish_inv in Hfin as (_ & Heq & _). rewrite Heq. assumption.
    - destruct Hfin as [_ ->]. assumption. }
  destruct r1 as [d1|f].
  - destruct H as (_ & Hs' & _). rewrite Hs'.
    rewrite lookup_insert_ne; [assumption|].
    intros <-. simpl in Hc. congruence.
  - destruct H as [_ ->]. assumption.
Qed.

(** Decorator metadata is only ever looked up for values that have no
    cache entry when the call starts. *)
Lemma lookups_uncached fuel Ctor n s r s' t X :
  getComponentDef E fuel Ctor n s = (r, s', t) →
  X ∈ decorator_lookups t →
  cached s X = None.
Proof.
  revert Ctor n s r s' t. induction fuel as [|fuel IH]; intros Ctor n s r s' t H HX.
  { apply lift_inv in H as (_ & _ & ->). set_solver. }
  apply getComponentDef_inv in H
    as [(d0 & Hc & ? & -> & ->)|(Hc & [(f & Hrec & ? & ->)|[(Hrec & ? & ->)|H]])].
  - set_solver.
  - apply isComponentConstructor_lookups in Hrec. rewrite Hrec in HX. set_solver.
  - apply isComponentConstructor_lookups in Hrec. rewrite Hrec in HX. set_solver.
  - destruct H as (c0 & t0 & meta & name & r1 & s1 & t1 & -> & Hrec & _ & _ & Hcreate & -> & H).
    apply isComponentConstructor_lookups in Hrec.
    unfold decorator_lookups in *. rewrite omap_app, Hrec in HX. cbn in HX.
    apply createComponentDef_inv in Hcreate
      as [(f & _ & -> & Hsub)|(m & superProto & t2 & rs & s2 & t3 & _ & _ & Hsp & Hsuper & -> & Hfin)].
    + apply Hsub in HX. apply list_elem_of_singleton in HX as ->. assumption.
    + apply getCtorProto_lookups in Hsp. unfold decorator_lookups in Hsp.
      cbn in HX. rewrite omap_app, Hsp in HX. cbn in HX.
      apply elem_of_cons in HX as [->|HX]; [assumption|].
      apply super_def_inv in Hsuper as [(_ & _ & _ & ->)|(_ & Hr)]; [set_solver|].
      eapply IH; eassumption.
Qed.
End Cache.

(** ** The display name only shows in error messages *)

Lemma fsim_refl f : fsim f f.
Proof. destruct f; exact I. Qed.

Lemma rsim_refl {A} (r : result A) : rsim r r.
Proof. destruct r; simpl; [reflexivity|apply fsim_refl]. Qed.

Lemma msim_refl {A} (m : M A) : msim m m.
Proof. intros s r1 s1 t1 H. exists r1. split; [assumption|apply rsim_refl]. Qed.

Lemma msim_throw {A} (e1 e2 : error) : msim (@throw A e1) (throw e2).
Proof.
  intros s r1 s1 t1 H. apply lift_inv in H as (-> & -> & ->).
  exists (Throw e2). split; [reflexivity|exact I].
Qed.

Lemma msim_bind_gen {A B} (m1 m2 : M A) (k1 k2 : A → M B) :
  (∀ s r1 s1 t1, m1 s = (r1, s1, t1) →
     ∃ r2, m2 s = (r2, s1, t1) ∧
       match r1, r2 with
       | Ok a, Ok b => msim (k1 a) (k2 b)
       | Fail f1, Fail f2 => fsim f1 f2
       | _, _ => False
       end) →
  msim (bind m1 k1) (bind m2 k2).
Proof.
  intros Hm s r1 s1 t1 H.
  apply bind_inv in H as [(a & s0 & t0 & t2 & H1 & H2 & ->)|(f & H1 & ->)].
  - destruct (Hm _ _ _ _ H1) as ([b|f2] & H1' & Hk); [|contradiction].
    destruct (Hk _ _ _ _ H2) as (r2 & H2' & Hr).
    exists r2. split; [|assumption].
    rewrite (bind_ok _ _ _ _ _ _ H1'), H2'. reflexivity.
  - destruct (Hm _ _ _ _ H1) as ([b|f2] & H1' & Hk); [contradiction|].
    exists (Fail f2). split; [|assumption].
    apply (bind_fail _ _ _ _ _ _ H1').
Qed.

Lemma msim_bind {A B} (m1 m2 : M A) (k1 k2 : A → M B) :
  msim m1 m2 → (∀ a, msim (k1 a) (k2 a)) → msim (bind m1 k1) (bind m2 k2).
Proof.
  intros Hm Hk. apply msim_bind_gen. intros s r1 s1 t1 H.
  destruct (Hm _ _ _ _ H) as (r2 & H2 & Hr). exists r2. split; [assumption|].
  destruct r1 as [a|f1], r2 as [b|f2]; simpl in Hr; try contradiction; [|assumption].
  subst b. apply Hk.
Qed.

Lemma msim_ok {A} (m1 m2 : M A) s a s' t :
  msim m1 m2 → m1 s = (Ok a, s', t) → m2 s = (Ok a, s', t).
Proof.
  intros Hm H. destruct (Hm _ _ _ _ H) as ([b|f] & H2 & Hr); simpl in Hr;
    [subst b; assumption|contradiction].
Qed.

Ltac msim_tac :=
  repeat first
    [ apply msim_refl
    | apply msim_throw
    | assumption
    | apply msim_bind; [| intros ?]
    | match goal with
      | |- msim (if ?c then _ else _) (if ?c then _ else _) => destruct c
      | |- msim (match ?c with _ => _ end) (match ?c with _ => _ end) => destruct c
      end ].

Section DisplayName.
Variable E : Env.

Lemma getCtorProto_msim Ctor n1 n2 :
  msim (getCtorProto E Ctor n1) (getCtorProto E Ctor n2).
Proof. unfold getCtorProto. msim_tac. Qed.

Lemma getCtorProto_name Ctor n1 n2 s v s' t :
  getCtorProto E Ctor n1 s = (Ok v, s', t) → getCtorProto E Ctor n2 s = (Ok v, s', t).
Proof. apply msim_ok, getCtorProto_msim. Qed.

Lemma createComponentDef_msim rec1 rec2 Ctor meta n1 n2 :
  (∀ v, msim (rec1 v n1) (rec2 v n2)) →
  msim (createComponentDef E rec1 Ctor meta n1) (createComponentDef E rec2 Ctor meta n2).
Proof.
  intros Hrec. unfold createComponentDef.
  msim_tac; first [apply getCtorProto_msim | apply Hrec].
Qed.

Lemma getComponentDef_msim fuel Ctor n1 n2 :
  msim (getComponentDef E fuel Ctor n1) (getComponentDef E fuel Ctor n2).
Proof.
  revert Ctor n1 n2. induction fuel as [|fuel IH]; intros Ctor n1 n2.
  { apply msim_refl. }
  cbn [getComponentDef].
  apply msim_bind; [apply msim_refl|]. intros [def|]; [apply msim_refl|].
  apply msim_bind_gen. intros s r1 s1 t1 Hrec. exists r1. split; [assumption|].
  destruct r1 as [recognized|f]; [|apply fsim_refl].
  destruct recognized; cbn [negb]; [|apply msim_refl].
  destruct (isFunction_obj E _ (isComponentConstructor_true E _ _ _ _ _ Hrec)) as [c ->].
  apply msim_bind; [apply msim_refl|]. intros registered.
  apply msim_bind; [apply msim_refl|]. intros meta.
  apply msim_bind_gen. intros s0 r s' t H.
  assert (Ha : ∀ n : value, ∃ b,
    (if truthy n then ret n else lift (Get E (VObj c) "name")) s0 = (Ok b, s0, [])).
  { intros n. destruct (truthy n); eexists; reflexivity. }
  destruct (Ha n1) as (b1 & Hb1). destruct (Ha n2) as (b2 & Hb2).
  rewrite Hb1 in H. injection H as <- <- <-.
  exists (Ok b2). split; [assumption|].
  apply msim_bind; [|intros def; apply msim_refl].
  apply createComponentDef_msim. intros v. apply IH.
Qed.

Lemma getComponentDef_name fuel Ctor n1 n2 s d s' t :
  getComponentDef E fuel Ctor n1 s = (Ok d, s', t) →
  getComponentDef E fuel Ctor n2 s = (Ok d, s', t).
Proof. apply msim_ok, getComponentDef_msim. Qed.
End DisplayName.

(** ** A resolution never meets its own constructor again *)

Section NoSelf.
Variable E : Env.

Lemma run_deterministic {A} (m : M A) s r1 s1 t1 r2 s2 t2 :
  m s = (r1, s1, t1) → m s = (r2, s2, t2) → r1 = r2 ∧ s1 = s2 ∧ t1 = t2.
Proof. intros H1 H2. rewrite H1 in H2. injection H2 as <- <- <-. auto. Qed.

(** Whatever a call adds to the cache, a call for that very value from the
    same state would have returned. *)
Lemma new_entries fuel Ctor n s r s' t X :
  getComponentDef E fuel Ctor n s = (r, s', t) →
  cached s X = None →
  is_Some (cached s' X) →
  ∃ n0 d sx tx, getComponentDef E fuel X n0 s = (Ok d, sx, tx).
Proof.
  revert Ctor n s r s' t. induction fuel as [|fuel IH]; intros Ctor n s r s' t H HX HX'.
  { apply lift_inv in H as (_ & -> & _). rewrite HX in HX'. by destruct HX'. }
  pose proof H as Hrun.
  apply getComponentDef_inv in H
    as [(d0 & Hc & ? & -> & ->)|(Hc & [(f & _ & ? & ->)|[(_ & ? & ->)|H]])];
    try (rewrite HX in HX'; by destruct HX').
  destruct H as (c0 & t0 & meta & name & r1 & s1 & t1 & -> & _ & _ & _ & Hcreate & _ & H).
  assert (Hinner : is_Some (cached s1 X) →
                   ∃ n0 d sx tx, getComponentDef E (S fuel) X n0 s = (Ok d, sx, tx)).
  { intros HX1.
    apply createComponentDef_inv in Hcreate
      as [(f & _ & -> & _)|(m & superProto & t2 & rs & s2 & t3 & _ & _ & _ & Hsuper & _ & Hfin)].
    { rewrite HX in HX1. by destruct HX1. }
    assert (HX2 : is_Some (cached s2 X)).
    { destruct rs as [superDef|f].
      - apply finish_inv in Hfin as (_ & Heq & _).
        destruct X; try (by destruct HX1). simpl in *. rewrite <- Heq. assumption.
      - destruct Hfin as [_ ->]. assumption. }
    apply super_def_inv in Hsuper as [(_ & _ & -> & _)|(_ & Hrec)].
    { rewrite HX in HX2. by destruct HX2. }
    destruct (IH _ _ _ _ _ _ Hrec HX HX2) as (n0 & d & sx & tx & Hx).
    exists n0, d, sx, tx.
    apply (getComponentDef_mono E fuel (S fuel)); [lia|assumption|discriminate]. }
  destruct r1 as [d1|f].
  - destruct H as (-> & Hs' & _).
    destruct (decide (X = VObj c0)) as [->|Hne].
    + eauto.
    + apply Hinner. destruct X as [| | |x]; try (by destruct HX').
      simpl in *. rewrite Hs' in HX'. rewrite lookup_insert_ne in HX'; [assumption|congruence].
  - destruct H as [_ ->]. auto.
Qed.

(** While the definition of a class is being built, the class itself does
    not enter the cache. *)
Lemma no_self fuel Ctor meta name s r1 s1 t1 :
  cached s Ctor = None →
  createComponentDef E (getComponentDef E fuel) Ctor meta name s = (r1, s1, t1) →
  cached s1 Ctor = None.
Proof.
  revert Ctor meta name s r1 s1 t1.
  induction (lt_wf fuel) as [fuel _ IH]. intros Ctor meta name s r1 s1 t1 Hc Hcreate.
  apply createComponentDef_inv in Hcreate
    as [(f & _ & -> & _)|(m & superProto & t2 & rs & s2 & t3 & _ & _ & Hsp & Hsuper & _ & Hfin)];
    [assumption|].
  assert (Heq : CtorToDefMap s1 = CtorToDefMap s2).
  { destruct rs as [superDef|f].
    - apply finish_inv in Hfin as (_ & Heq & _). assumption.
    - destruct Hfin as [_ ->]. reflexivity. }
  assert (Hgoal : cached s2 Ctor = None → cached s1 Ctor = None).
  { destruct Ctor; simpl; rewrite ?Heq; auto. }
  apply Hgoal. clear Hgoal Heq Hfin r1 s1 t1.
  apply super_def_inv in Hsuper as [(_ & _ & -> & _)|(Hne & Hrec)]; [assumption|].
  destruct (cached s2 Ctor) as [d|] eqn:Hc2; [exfalso|reflexivity].
  destruct (new_entries _ _ _ _ _ _ _ _ Hrec Hc ltac:(rewrite Hc2; eauto))
    as (n0 & d0 & sx & tx & Hx).
  destruct fuel as [|fuel]; [discriminate|].
  apply getComponentDef_inv in Hx
    as [(d1 & Hc' & _)|(_ & [(f & _ & ? & _)|[(_ & ? & _)|H]])];
    try congruence.
  destruct H as (c0 & t0 & meta' & name' & r1 & s1 & t1 & -> & _ & _ & _ & Hcreate' & _ & H).
  destruct r1 as [d1|f]; [|destruct H; discriminate].
  pose proof (IH fuel ltac:(lia) _ _ _ _ _ _ _ Hc Hcreate') as Hnone.
  apply createComponentDef_inv in Hcreate'
    as [(f & ? & _)|(m' & superProto' & t2' & rs' & s2' & t3' & _ & _ & Hsp' & Hsuper' & _ & Hfin')];
    [discriminate|].
  apply (getCtorProto_name E _ name' name) in Hsp'.
  destruct (run_deterministic _ _ _ _ _ _ _ _ Hsp Hsp') as ([= <-] & _ & _).
  apply super_def_inv in Hsuper' as [(? & _)|(_ & Hrec')]; [contradiction|].
  destruct rs' as [superDef'|f]; [|destruct Hfin'; discriminate].
  apply finish_inv in Hfin' as (_ & Heq' & _).
  assert (Hrec'' := getComponentDef_mono E fuel (S fuel) _ _ ltac:(lia) _ _ _ _ Hrec'
                      ltac:(discriminate)).
  clear Hrec'. rename Hrec'' into Hrec'.
  apply (getComponentDef_name E _ _ name' name) in Hrec'.
  destruct (run_deterministic _ _ _ _ _ _ _ _ Hrec Hrec') as (_ & <- & _).
  simpl in *. congruence.
Qed.


(** In a call that returns, every metadata lookup is for a value that is
    cached afterwards, and no value is looked up twice. *)
Lemma ok_lookups_cached fuel Ctor n s d s' t X :
  getComponentDef E fuel Ctor n s = (Ok d, s', t) →
  X ∈ decorator_lookups t →
  is_Some (cached s' X).
Proof.
  revert Ctor n s d s' t. induction fuel as [|fuel IH]; intros Ctor n s d s' t H HX;
    [discriminate|].
  apply getComponentDef_inv in H
    as [(d0 & Hc & ? & -> & ->)|(Hc & [(f & _ & ? & _)|[(_ & ? & _)|H]])];
    try discriminate.
  { set_solver. }
  destruct H as (c0 & t0 & meta & name & r1 & s1 & t1 & -> & Hrec & _ & _ & Hcreate & -> & H).
  destruct r1 as [d1|f]; [|destruct H; discriminate]. destruct H as (_ & Hs' & _).
  apply isComponentConstructor_lookups in Hrec.
  unfold decorator_lookups in *. rewrite omap_app, Hrec in HX. cbn in HX.
  apply createComponentDef_inv in Hcreate
    as [(f & ? & _)|(m & superProto & t2 & rs & s2 & t3 & _ & _ & Hsp & Hsuper & -> & Hfin)];
    [discriminate|].
  apply getCtorProto_lookups in Hsp. unfold decorator_lookups in Hsp.
  cbn in HX. rewrite omap_app, Hsp in HX. cbn in HX.
  apply elem_of_cons in HX as [->|HX].
  { simpl. rewrite Hs', lookup_insert_eq. eauto. }
  destruct rs as [superDef|f]; [|destruct Hfin; discriminate].
  apply finish_inv in Hfin as (_ & Heq & _).
  apply super_def_inv in Hsuper as [(_ & _ & _ & ->)|(_ & Hr)]; [set_solver|].
  pose proof (IH _ _ _ _ _ _ Hr HX) as HX2.
  destruct X as [| | |x]; try (by destruct HX2). simpl in *.
  rewrite Hs', Heq. apply lookup_insert_is_Some'. auto.
Qed.

Lemma ok_lookups_NoDup fuel Ctor n s d s' t :
  getComponentDef E fuel Ctor n s = (Ok d, s', t) →
  NoDup (decorator_lookups t).
Proof.
  revert Ctor n s d s' t. induction fuel as [|fuel IH]; intros Ctor n s d s' t H;
    [discriminate|].
  apply getComponentDef_inv in H
    as [(d0 & Hc & ? & -> & ->)|(Hc & [(f & _ & ? & _)|[(_ & ? & _)|H]])];
    try discriminate.
  { constructor. }
  destruct H as (c0 & t0 & meta & name & r1 & s1 & t1 & -> & Hrec & _ & _ & Hcreate & -> & H).
  destruct r1 as [d1|f]; [|destruct H; discriminate].
  pose proof (no_self _ _ _ _ _ _ _ _ Hc Hcreate) as Hnone.
  apply isComponentConstructor_lookups in Hrec.
  unfold decorator_lookups in *. rewrite omap_app, Hrec. cbn.
  apply createComponentDef_inv in Hcreate
    as [(f & ? & _)|(m & superProto & t2 & rs & s2 & t3 & _ & _ & Hsp & Hsuper & -> & Hfin)];
    [discriminate|].
  apply getCtorProto_lookups in Hsp. unfold decorator_lookups in Hsp.
  cbn. rewrite omap_app, Hsp. cbn.
  destruct rs as [superDef|f]; [|destruct Hfin; discriminate].
  apply finish_inv in Hfin as (_ & Heq & _).
  apply super_def_inv in Hsuper as [(_ & _ & _ & ->)|(_ & Hr)].
  { apply NoDup_singleton. }
  constructor; [|eapply IH; eassumption].
  intros HX. pose proof (ok_lookups_cached _ _ _ _ _ _ _ _ Hr HX) as [dx Hdx].
  simpl in *. congruence.
Qed.
End NoSelf.

(** ** Every cache entry is a merge *)

Section Invariant.
Variable E : Env.

Lemma getComponentDef_extends fuel Ctor n s r s' t :
  getComponentDef E fuel Ctor n s = (r, s', t) → extends s s'.
Proof. intros H c d Hcd. eapply cache_stable; eassumption. Qed.

Lemma super_def_in_mono s s' superProto superDef :
  extends s s' → super_def_in E s superProto superDef → super_def_in E s' superProto superDef.
Proof.
  intros Hext [H|[Hne Hc]]; [left; assumption|right].
  split; [assumption|]. destruct superProto; try discriminate. apply Hext. assumption.
Qed.

Lemma built_mono s s' Ctor d :
  extends s s' → built E s Ctor d → built E s' Ctor d.
Proof.
  intros Hext (sp & sd & meta & m & H1 & H2 & H3 & H4).
  exists sp, sd, meta, m. split; [assumption|]. split; [assumption|].
  split; [eapply super_def_in_mono; eassumption|assumption].
Qed.

Lemma cache_ok_init : cache_ok E init_state.
Proof. intros c d H. simpl in H. rewrite lookup_empty in H. discriminate. Qed.

Lemma cache_ok_same s s' :
  CtorToDefMap s' = CtorToDefMap s → cache_ok E s → cache_ok E s'.
Proof.
  intros Heq Hok c d H. rewrite Heq in H.
  eapply built_mono; [|apply Hok; eassumption].
  intros c' d' H'. rewrite Heq. assumption.
Qed.

Lemma truthy_or_else a b : truthy b = true → truthy (or_else a b) = true.
Proof. unfold or_else. destruct (truthy a) eqn:Ha; auto. Qed.

Lemma cache_ok_preserved fuel Ctor n s r s' t :
  cache_ok E s →
  getComponentDef E fuel Ctor n s = (r, s', t) →
  cache_ok E s'.
Proof.
  revert Ctor n s r s' t. induction fuel as [|fuel IH]; intros Ctor n s r s' t Hok H.
  { apply lift_inv in H as (_ & -> & _). assumption. }
  apply getComponentDef_inv in H
    as [(d0 & Hc & ? & -> & ->)|(Hc & [(f & _ & ? & ->)|[(_ & ? & ->)|H]])];
    try assumption.
  destruct H as (c0 & t0 & meta & name & r1 & s1 & t1 & -> & Hrec & Hmeta & _ & Hcreate & _ & H).
  pose proof (no_self _ _ _ _ _ _ _ _ _ Hc Hcreate) as Hnone.
  apply createComponentDef_inv in Hcreate
    as [(f & -> & -> & _)|(m & superProto & t2 & rs & s2 & t3 & _ & Hm & Hsp & Hsuper & _ & Hfin)].
  { destruct H as [_ ->]. assumption. }
  assert (Hok2 : cache_ok E s2).
  { apply super_def_inv in Hsuper as [(_ & _ & -> & _)|(_ & Hr)]; [assumption|].
    eapply IH; eassumption. }
  destruct rs as [superDef|f].
  2: { destruct Hfin as [-> ->]. destruct H as [_ ->]. assumption. }
  apply finish_inv in Hfin as (_ & Heq & Hfin).
  pose proof (cache_ok_same _ _ Heq Hok2) as Hok1.
  destruct r1 as [d1|f]; [|destruct H as [_ ->]; assumption].
  destruct H as (_ & Hs' & _).
  destruct Hfin as [[[= ->] _]|[e [[=] _]]].
  assert (Hext : extends s1 s').
  { intros c d Hcd. rewrite Hs'. rewrite lookup_insert_ne; [assumption|].
    intros <-. simpl in Hnone. congruence. }
  intros c d Hcd. rewrite Hs' in Hcd.
  destruct (decide (c = c0)) as [->|Hne].
  2: { rewrite lookup_insert_ne in Hcd by congruence.
       eapply built_mono; [exact Hext|]. apply Hok1. assumption. }
  rewrite lookup_insert_eq in Hcd. injection Hcd as <-.
  assert (Hsd : super_def_in E s2 superProto superDef ∧ truthy (def_template superDef) = true).
  { apply super_def_inv in Hsuper as [(-> & [= ->] & _ & _)|(Hne & Hr)].
    - split; [left; auto|reflexivity].
    - pose proof (getComponentDef_Ok_cached _ _ _ _ _ _ _ _ Hr) as Hcs.
      split; [right; auto|].
      destruct superProto as [| | |sp]; try discriminate.
      destruct (Hok2 _ _ Hcs) as (? & ? & ? & ? & _ & _ & _ & _ & _ & _ & Ht). assumption. }
  destruct Hsd as [Hsd Ht].
  exists superProto, superDef, meta, m.
  split; [exists (S fuel), s, t0; assumption|].
  split; [exists name, s, t2; assumption|].
  split.
  { eapply super_def_in_mono; [exact Hext|].
    eapply super_def_in_mono; [|exact Hsd].
    intros c' d' H'. rewrite Heq. assumption. }
  split; [assumption|]. split; [assumption|].
  split; [reflexivity|]. simpl. apply truthy_or_else. assumption.
Qed.

(** What a returning call hands out is the merge for its argument. *)
Lemma getComponentDef_built fuel Ctor n s d s' t :
  cache_ok E s →
  getComponentDef E fuel Ctor n s = (Ok d, s', t) →
  built E s' Ctor d.
Proof.
  intros Hok H.
  pose proof (cache_ok_preserved _ _ _ _ _ _ _ Hok H) as Hok'.
  pose proof (getComponentDef_Ok_cached _ _ _ _ _ _ _ _ H) as Hc.
  destruct Ctor; try discriminate. apply Hok'. assumption.
Qed.

Lemma super_of_functional Ctor sp1 sp2 :
  super_of E Ctor sp1 → super_of E Ctor sp2 → sp1 = sp2.
Proof.
  intros (n1 & s1 & t1 & H1) (n2 & s2 & t2 & H2).
  apply (getCtorProto_name E _ n1 n2) in H1.
  destruct (pure_run _ _ _ _ _ (pure_getCtorProto E _ _) H1) as [_ H1'].
  rewrite H1' in H2. congruence.
Qed.

Lemma super_def_in_functional s sp d1 d2 :
  super_def_in E s sp d1 → super_def_in E s sp d2 → d1 = d2.
Proof. intros [[? ?]|[? ?]] [[? ?]|[? ?]]; congruence. Qed.
End Invariant.

(** ** Identities of the cached definitions *)

Section Identities.
Variable E : Env.

Lemma oids_ok_init : oids_ok (init_state).
Proof.
  split; [simpl; lia|]. split; intros c; intros; simpl in *;
    rewrite lookup_empty in *; discriminate.
Qed.

Lemma oids_ok_later s s' :
  CtorToDefMap s' = CtorToDefMap s → next_oid s ≤ next_oid s' →
  oids_ok s → oids_ok s'.
Proof.
  intros Heq Hle (Hpos & Hlt & Hinj). split; [lia|]. rewrite Heq. split.
  - intros c d Hcd. specialize (Hlt _ _ Hcd). lia.
  - assumption.
Qed.

(** Every definition the cache receives has a fresh identity. *)
Lemma oids_ok_preserved fuel Ctor n s r s' t :
  getComponentDef E fuel Ctor n s = (r, s', t) →
  oids_ok s → oids_ok s' ∧ next_oid s ≤ next_oid s'.
Proof.
  revert Ctor n s r s' t. induction fuel as [|fuel IH]; intros Ctor n s r s' t H Hok.
  { apply lift_inv in H as (_ & -> & _). auto. }
  apply getComponentDef_inv in H
    as [(d0 & Hc & ? & -> & ->)|(Hc & [(f & _ & ? & ->)|[(_ & ? & ->)|H]])];
    auto.
  destruct H as (c0 & t0 & meta & name & r1 & s1 & t1 & -> & _ & _ & _ & Hcreate & _ & H).
  apply createComponentDef_inv in Hcreate
    as [(f & -> & -> & _)|(m & superProto & t2 & rs & s2 & t3 & _ & _ & _ & Hsuper & _ & Hfin)].
  { destruct H as [_ ->]. auto. }
  assert (Hok2 : oids_ok s2 ∧ next_oid s ≤ next_oid s2).
  { apply super_def_inv in Hsuper as [(_ & _ & -> & _)|(_ & Hr)]; [auto|].
    eapply IH; eassumption. }
  destruct Hok2 as [Hok2 Hle2].
  destruct rs as [superDef|f].
  2: { destruct Hfin as [-> ->]. destruct H as [_ ->]. auto. }
  apply finish_inv in Hfin as (_ & Heq & Hfin).
  destruct Hfin as [[-> Hn]|(e & -> & Hn)].
  2: { destruct H as [_ ->]. split; [|lia]. eapply oids_ok_later; eassumption. }
  destruct H as (_ & Hs' & _ & _ & Hn').
  split; [|lia].
  destruct Hok2 as (Hpos & Hlt & Hinj).
  split; [lia|]. rewrite Hs', Heq. split.
  - intros c d Hcd. destruct (decide (c = c0)) as [->|Hne].
    + rewrite lookup_insert_eq in Hcd. injection Hcd as <-. simpl. lia.
    + rewrite lookup_insert_ne in Hcd by congruence.
      specialize (Hlt _ _ Hcd). lia.
  - intros c1 c2 d1 d2 H1 H2 Hoid.
    destruct (decide (c1 = c0)) as [->|Hne1]; destruct (decide (c2 = c0)) as [->|Hne2];
      try reflexivity.
    + rewrite lookup_insert_eq in H1. injection H1 as <-.
      rewrite lookup_insert_ne in H2 by congruence.
      specialize (Hlt _ _ H2). simpl in Hoid. lia.
    + rewrite lookup_insert_eq in H2. injection H2 as <-.
      rewrite lookup_insert_ne in H1 by congruence.
      specialize (Hlt _ _ H1). simpl in Hoid. lia.
    + rewrite lookup_insert_ne in H1, H2 by congruence. eauto.
Qed.

(** Both invariants hold after any sequence of calls from the initial state. *)
Lemma run_calls_invariants calls s s' t :
  run_calls E calls s = (s', t) →
  cache_ok E s → oids_ok s → cache_ok E s' ∧ oids_ok s'.
Proof.
  revert s s' t. induction calls as [|[[fuel X] n] calls IH]; intros s s' t H Hc Ho.
  { injection H as <- <-. auto. }
  cbn [run_calls] in H.
  destruct (getComponentDef E fuel X n s) as [[r s1] t1] eqn:Hrun.
  destruct (run_calls E calls s1) as [s3 t3] eqn:Hrest.
  injection H as <- <-.
  eapply IH; [eassumption| |].
  - eapply cache_ok_preserved; eassumption.
  - eapply oids_ok_preserved; eassumption.
Qed.
End Identities.

(** ** Resolution returns *)

Section Progress.
Variable E : Env.

Lemma isComponentConstructor_fast fuel ctor pr s :
  isFunction E ctor = true →
  Get E ctor "prototype" = Ok pr →
  instanceof E pr (BaseLightningElement E) = Ok true →
  isComponentConstructor E fuel ctor s = (Ok true, s, []).
Proof.
  intros Hf Hp Hi. unfold isComponentConstructor.
  rewrite Hf, Hp. cbn [negb]. rewrite bind_lift_ok, Hi, bind_lift_ok. reflexivity.
Qed.

Lemma createComponentDef_run rec Ctor meta n s m superProto t0 superDef s1 t1 r s2 t2 :
  dev_check E Ctor = Ok tt →
  read_members E Ctor = Ok m →
  getCtorProto E Ctor n s = (Ok superProto, s, t0) →
  super_def E rec superProto n s = (Ok superDef, s1, t1) →
  finish E Ctor meta m superDef s1 = (r, s2, t2) →
  createComponentDef E rec Ctor meta n s = (r, s2, EvDecoratorsMeta Ctor :: t0 ++ t1 ++ t2).
Proof.
  intros Hdev Hm Hsp Hsd Hfin. rewrite createComponentDef_stages.
  rewrite Hdev, bind_lift_ok, bind_emit, Hm, bind_lift_ok.
  erewrite bind_ok by exact Hsp.
  erewrite bind_ok by exact Hsd.
  rewrite Hfin. reflexivity.
Qed.

Lemma finish_no_fields Ctor meta m superDef pr s :
  fields (m_decorators m) = None →
  Get E Ctor "prototype" = Ok pr →
  ∃ s', finish E Ctor meta m superDef s =
          (Ok (merged (next_oid s) Ctor meta m superDef), s', []).
Proof.
  intros Hf Hm.
  unfold finish. rewrite Hf, Hm.
  destruct (production E); cbv [negb bind ret lift new_object].
  - eexists. reflexivity.
  - destruct pr; eexists; reflexivity.
Qed.

Lemma getComponentDef_miss_ok fuel Ctor n s :
  (∃ pr, isFunction E Ctor = true ∧ Get E Ctor "prototype" = Ok pr ∧
         instanceof E pr (BaseLightningElement E) = Ok true) →
  (∀ meta name, ∃ d s1 t1,
     createComponentDef E (getComponentDef E fuel) Ctor meta name s = (Ok d, s1, t1)) →
  ∃ d s' t, getComponentDef E (S fuel) Ctor n s = (Ok d, s', t).
Proof.
  intros (pr & Hf & Hp & Hi) Hcreate.
  pose proof (isComponentConstructor_fast (S fuel) _ _ s Hf Hp Hi) as Hrec.
  destruct (getComponentDef E (S fuel) Ctor n s) as [[r s'] t] eqn:Hrun.
  apply getComponentDef_inv in Hrun
    as [(d0 & _ & -> & _)|(_ & [(f' & Hrec' & _)|[(Hrec' & _)|H]])];
    [eauto| congruence | congruence |].
  destruct H as (c0 & t0' & meta & name' & r1 & s1' & t1' & -> & _ & _ & _ & Hcreate' & -> & H).
  destruct (Hcreate meta name') as (d & s1 & t1 & Hc). rewrite Hc in Hcreate'.
  injection Hcreate' as <- <- <-. destruct H as (-> & _). eauto.
Qed.

(** A resolvable class is resolved: with fuel for the length of its chain,
    from any state and under any display name, [getComponentDef] returns a
    definition. *)
Lemma resolvable_returns k Ctor :
  resolvable E k Ctor →
  ∀ fuel n s, k ≤ fuel → ∃ d s' t, getComponentDef E fuel Ctor n s = (Ok d, s', t).
Proof.
  induction 1 as [k Ctor pr m Hf Hp Hi Hdev Hm Hfields Hsp
                 |k Ctor pr m superProto Hf Hp Hi Hdev Hm Hfields Hsp Hne _ IH];
    intros fuel n s Hle.
  all: destruct fuel as [|fuel]; [lia|].
  all: apply getComponentDef_miss_ok; [eauto|].
  all: intros meta name.
  all: destruct Hsp as (n0 & s0 & t0 & Hsp).
  all: apply (getCtorProto_name E _ _ name) in Hsp.
  all: pose proof (pure_run _ _ _ _ _ (pure_getCtorProto E _ _) Hsp) as [_ Hsp'].
  all: specialize (Hsp' s).
  - destruct (finish_no_fields Ctor meta m (lightingElementDef E) pr s Hfields Hp) as [s1 Hfin].
    do 3 eexists. eapply createComponentDef_run; try eassumption.
    unfold super_def. rewrite decide_False by (intros Hc; apply Hc; reflexivity).
    reflexivity.
  - destruct (IH fuel name s ltac:(lia)) as (sd & s1 & t1 & Hsuper).
    destruct (finish_no_fields Ctor meta m sd pr s1 Hfields Hp) as [s2 Hfin].
    do 3 eexists. eapply createComponentDef_run; try eassumption.
    unfold super_def. rewrite decide_True by assumption. exact Hsuper.
Qed.
End Progress.

(** * The claims *)

Section Memoization.
Variable E : Env.

Lemma run_calls_keep calls s s2 t2 C d :
  cached s C = Some d →
  run_calls E calls s = (s2, t2) →
  cached s2 C = Some d ∧ C ∉ decorator_lookups t2.
Proof.
  revert s s2 t2. induction calls as [|[[fuel X] n] calls IH]; intros s s2 t2 Hc H.
  { injection H as <- <-. split; [assumption|]. apply not_elem_of_nil. }
  cbn [run_calls] in H.
  destruct (getComponentDef E fuel X n s) as [[r s1] t1] eqn:Hrun.
  destruct (run_calls E calls s1) as [s3 t3] eqn:Hrest.
  injection H as <- <-.
  assert (Hc1 : cached s1 C = Some d).
  { destruct C; try discriminate. eapply cache_stable; eassumption. }
  destruct (IH _ _ _ Hc1 Hrest) as [Hc3 Hnot].
  split; [assumption|].
  unfold decorator_lookups in *. rewrite omap_app, elem_of_app. intros [Hin|Hin].
  - pose proof (lookups_uncached _ _ _ _ _ _ _ _ _ Hrun Hin). congruence.
  - contradiction.
Qed.
End Memoization.

(** C1. A call of [getComponentDef] that returns looks the decorator
    metadata of no constructor up twice; and whatever calls follow, the value
    it was called with keeps that very definition in the cache, its decorator
    metadata is never looked up again, and every further call for it returns
    the same definition object without any event or change of state. Such
    calls exist: for a resolvable class the call returns, given fuel for the
    length of its chain. And in every state reached from the initial one the
    definitions cached for two different constructors are two different
    objects. *)
Theorem C1_memoized E :
  (∀ fuel Ctor n s d s1 t1,
     getComponentDef E fuel Ctor n s = (Ok d, s1, t1) →
     NoDup (decorator_lookups t1) ∧
     ∀ calls s2 t2,
       run_calls E calls s1 = (s2, t2) →
       cached s2 Ctor = Some d ∧
       (Ctor ∉ decorator_lookups t2) ∧
       ∀ fuel' n', getComponentDef E (S fuel') Ctor n' s2 = (Ok d, s2, []))
  ∧ (∀ k Ctor fuel n s,
       resolvable E k Ctor → k ≤ fuel →
       ∃ d s1 t1, getComponentDef E fuel Ctor n s = (Ok d, s1, t1))
  ∧ (∀ calls s t C1 C2 d1 d2,
       run_calls E calls init_state = (s, t) →
       cached s C1 = Some d1 → cached s C2 = Some d2 →
       C1 ≠ C2 → def_oid d1 ≠ def_oid d2).
Proof.
  split; [|split].
  - intros fuel Ctor n s d s1 t1 H. split; [eapply ok_lookups_NoDup; eassumption|].
    intros calls s2 t2 Hcalls.
    pose proof (getComponentDef_Ok_cached _ _ _ _ _ _ _ _ H) as Hc.
    destruct (run_calls_keep _ _ _ _ _ _ _ Hc Hcalls) as [Hc2 Hnot].
    split; [assumption|]. split; [assumption|].
    intros fuel' n'. apply getComponentDef_hit. assumption.
  - intros k Ctor fuel n s Hr Hle. eapply resolvable_returns; eassumption.
  - intros calls s t C1 C2 d1 d2 Hcalls H1 H2 Hne Hoid.
    destruct (run_calls_invariants _ _ _ _ _ Hcalls (cache_ok_init E) oids_ok_init)
      as (_ & _ & _ & Hinj).
    destruct C1 as [| | |c1]; try discriminate.
    destruct C2 as [| | |c2]; try discriminate.
    apply Hne. f_equal. eapply Hinj; eassumption.
Qed.

Lemma abc_resolvable : resolvable (abc_env false []) 3 (VObj 11).
Proof.
  eapply (resolvable_sub _ _ _ (VObj 12) _ (VObj 9)); try (vm_compute; reflexivity).
  { exists VUndefined, init_state, []. vm_compute; reflexivity. }
  { discriminate. }
  eapply (resolvable_sub _ _ _ (VObj 10) _ (VObj 7)); try (vm_compute; reflexivity).
  { exists VUndefined, init_state, []. vm_compute; reflexivity. }
  { discriminate. }
  eapply (resolvable_base _ _ _ (VObj 8)); try (vm_compute; reflexivity).
  exists VUndefined, init_state, []. vm_compute; reflexivity.
Defined.

Lemma C1_memoized_witness :
  (∃ d s1 t1,
     getComponentDef (abc_env false []) 4 (VObj 11) VUndefined init_state = (Ok d, s1, t1) ∧
     NoDup (decorator_lookups t1) ∧
     ∀ calls s2 t2,
       run_calls (abc_env false []) calls s1 = (s2, t2) →
       cached s2 (VObj 11) = Some d ∧
       (VObj 11 ∉ decorator_lookups t2) ∧
       ∀ fuel' n', getComponentDef (abc_env false []) (S fuel') (VObj 11) n' s2 = (Ok d, s2, []))
  ∧ (∃ d s1 t1,
       getComponentDef (abc_env false []) 3 (VObj 11) (str "x") init_state = (Ok d, s1, t1))
  ∧ (∃ s t d1 d2,
       run_calls (abc_env false []) [(4, VObj 11, VUndefined)] init_state = (s, t) ∧
       cached s (VObj 11) = Some d1 ∧ cached s (VObj 9) = Some d2 ∧
       def_oid d1 ≠ def_oid d2).
Proof.
  pose proof (C1_memoized (abc_env false [])) as (Hmemo & Hreturns & Hdistinct).
  split; [|split].
  - do 3 eexists. split; [vm_compute; reflexivity|].
    apply (Hmemo 4 (VObj 11) VUndefined init_state).
    vm_compute; reflexivity.
  - apply (Hreturns 3 (VObj 11) 3 (str "x") init_state abc_resolvable). lia.
  - do 4 eexists. split; [vm_compute; reflexivity|].
    split; [vm_compute; reflexivity|]. split; [vm_compute; reflexivity|].
    eapply (Hdistinct [(4, VObj 11, VUndefined)] _ _ (VObj 11) (VObj 9));
      try (vm_compute; reflexivity).
    discriminate.
Defined.

Section Merge.
Variable E : Env.

Lemma read_members_inv Ctor m :
  read_members E Ctor = Ok m →
  m_decorators m = getDecoratorsMeta E Ctor ∧
  Get E Ctor "prototype" = Ok (m_proto m) ∧
  Get E (m_proto m) "connectedCallback" = Ok (m_connectedCallback m) ∧
  Get E (m_proto m) "disconnectedCallback" = Ok (m_disconnectedCallback m) ∧
  Get E (m_proto m) "renderedCallback" = Ok (m_renderedCallback m) ∧
  Get E (m_proto m) "errorCallback" = Ok (m_errorCallback m) ∧
  Get E (m_proto m) "render" = Ok (m_render m).
Proof.
  unfold read_members.
  destruct (Get E Ctor "prototype") as [proto|] eqn:H0; [|discriminate]. cbn [rbind].
  destruct (Get E proto "connectedCallback") as [cc|] eqn:H1; [|discriminate]. cbn [rbind].
  destruct (Get E proto "disconnectedCallback") as [dc|] eqn:H2; [|discriminate]. cbn [rbind].
  destruct (Get E proto "renderedCallback") as [rc|] eqn:H3; [|discriminate]. cbn [rbind].
  destruct (Get E proto "errorCallback") as [ec|] eqn:H4; [|discriminate]. cbn [rbind].
  destruct (Get E proto "render") as [rd|] eqn:H5; [|discriminate]. cbn [rbind].
  intros [= <-]. cbn. auto 10.
Qed.

(** The public fields of a definition: those of the superclass definition,
    then the class's own. *)
Lemma built_props s Ctor d :
  built E s Ctor d →
  ∃ superProto superDef,
    super_of E Ctor superProto ∧ super_def_in E s superProto superDef ∧
    def_props d = def_props superDef ++ apiFields (getDecoratorsMeta E Ctor) ∧
    def_wire d =
      def_wire superDef ++ wiredFields (getDecoratorsMeta E Ctor)
        ++ wiredMethods (getDecoratorsMeta E Ctor) ∧
    ∀ meta, resolved_meta E Ctor = Ok meta →
      def_template d = or_else (meta_template meta) (def_template superDef).
Proof.
  intros (sp & sd & meta & m & _ & Hsp & Hsd & Hmeta & Hm & Hd & _).
  apply read_members_inv in Hm as (Hdm & _).
  exists sp, sd. split; [assumption|]. split; [assumption|].
  rewrite Hd. cbn. rewrite Hdm. split; [reflexivity|]. split; [reflexivity|].
  intros meta' Hmeta'. congruence.
Qed.

Lemma three_levels fuel A B C n s d s' t fa fb fc :
  cache_ok E s →
  getComponentDef E fuel C n s = (Ok d, s', t) →
  super_of E C B → B ≠ VObj (BaseLightningElement E) →
  super_of E B A → A ≠ VObj (BaseLightningElement E) →
  super_of E A (VObj (BaseLightningElement E)) →
  apiFields (getDecoratorsMeta E A) = [fa] →
  apiFields (getDecoratorsMeta E B) = [fb] →
  apiFields (getDecoratorsMeta E C) = [fc] →
  def_props d = HTMLElementOriginalDescriptors E ++ [fa; fb; fc].
Proof.
  intros Hok H HCB HB HBA HA HAbase Hfa Hfb Hfc.
  pose proof (cache_ok_preserved _ _ _ _ _ _ _ _ Hok H) as Hok'.
  destruct (built_props _ _ _ (getComponentDef_built _ _ _ _ _ _ _ _ Hok H))
    as (sp & dB & Hsp & HdB & Hprops & _).
  rewrite (super_of_functional _ _ _ _ Hsp HCB) in HdB.
  destruct HdB as [[? _]|[_ HdB]]; [contradiction|].
  destruct B as [| | |b]; try discriminate.
  destruct (built_props _ _ _ (Hok' _ _ HdB)) as (sp' & dA & Hsp' & HdA & Hprops' & _).
  rewrite (super_of_functional _ _ _ _ Hsp' HBA) in HdA.
  destruct HdA as [[? _]|[_ HdA]]; [contradiction|].
  destruct A as [| | |a]; try discriminate.
  destruct (built_props _ _ _ (Hok' _ _ HdA)) as (sp'' & d0 & Hsp'' & Hd0 & Hprops'' & _).
  rewrite (super_of_functional _ _ _ _ Hsp'' HAbase) in Hd0.
  destruct Hd0 as [[_ ->]|[? _]]; [|contradiction].
  rewrite Hprops, Hprops', Hprops'', Hfa, Hfb, Hfc. cbn [def_props lightingElementDef].
  rewrite <- !app_assoc. reflexivity.
Qed.

Lemma two_levels fuel Mid Leaf n s d s' t metaMid metaLeaf T1 :
  cache_ok E s →
  getComponentDef E fuel Leaf n s = (Ok d, s', t) →
  super_of E Leaf Mid → Mid ≠ VObj (BaseLightningElement E) →
  super_of E Mid (VObj (BaseLightningElement E)) →
  apiFields (getDecoratorsMeta E Mid) = ["label"] →
  apiFields (getDecoratorsMeta E Leaf) = ["count"] →
  resolved_meta E Mid = Ok metaMid → meta_template metaMid = T1 → truthy T1 = true →
  resolved_meta E Leaf = Ok metaLeaf → meta_template metaLeaf = VUndefined →
  def_props d = HTMLElementOriginalDescriptors E ++ ["label"; "count"] ∧
  def_template d = T1.
Proof.
  intros Hok H HLM HM HMbase Hfm Hfl HmM HT1 Htruthy HmL HTL.
  pose proof (cache_ok_preserved _ _ _ _ _ _ _ _ Hok H) as Hok'.
  destruct (built_props _ _ _ (getComponentDef_built _ _ _ _ _ _ _ _ Hok H))
    as (sp & dM & Hsp & HdM & Hprops & _ & Htemplate).
  rewrite (super_of_functional _ _ _ _ Hsp HLM) in HdM.
  destruct HdM as [[? _]|[_ HdM]]; [contradiction|].
  destruct Mid as [| | |mid]; try discriminate.
  destruct (built_props _ _ _ (Hok' _ _ HdM)) as (sp' & d0 & Hsp' & Hd0 & Hprops' & _ & Htemplate').
  rewrite (super_of_functional _ _ _ _ Hsp' HMbase) in Hd0.
  destruct Hd0 as [[_ ->]|[? _]]; [|contradiction].
  split.
  - rewrite Hprops, Hprops', Hfm, Hfl. cbn [def_props lightingElementDef].
    rewrite <- !app_assoc. reflexivity.
  - rewrite (Htemplate _ HmL), HTL, (Htemplate' _ HmM), HT1.
    unfold or_else. cbn [truthy]. rewrite Htruthy. reflexivity.
Qed.
End Merge.

(** C2, as the code has it. The public fields of the root definition are
    the own property names of [HTMLElementOriginalDescriptors]; for a chain
    [A], [B], [C] over the base class, each declaring one public field, the
    fields of [C]'s definition are those names followed by the fields of [A],
    [B] and [C] in that order. Likewise, for [Mid] over the base class with
    field [label] and template [T1], and [Leaf] over [Mid] with field [count]
    and no template, the fields of [Leaf]'s definition are those names
    followed by [label] and [count], and its template is [T1]. *)
Theorem C2_inherited_props E :
  (∀ fuel A B C n s d s' t fa fb fc,
     cache_ok E s →
     getComponentDef E fuel C n s = (Ok d, s', t) →
     super_of E C B → B ≠ VObj (BaseLightningElement E) →
     super_of E B A → A ≠ VObj (BaseLightningElement E) →
     super_of E A (VObj (BaseLightningElement E)) →
     apiFields (getDecoratorsMeta E A) = [fa] →
     apiFields (getDecoratorsMeta E B) = [fb] →
     apiFields (getDecoratorsMeta E C) = [fc] →
     def_props d = HTMLElementOriginalDescriptors E ++ [fa; fb; fc])
  ∧
  (∀ fuel Mid Leaf n s d s' t metaMid metaLeaf T1,
     cache_ok E s →
     getComponentDef E fuel Leaf n s = (Ok d, s', t) →
     super_of E Leaf Mid → Mid ≠ VObj (BaseLightningElement E) →
     super_of E Mid (VObj (BaseLightningElement E)) →
     apiFields (getDecoratorsMeta E Mid) = ["label"] →
     apiFields (getDecoratorsMeta E Leaf) = ["count"] →
     resolved_meta E Mid = Ok metaMid → meta_template metaMid = T1 → truthy T1 = true →
     resolved_meta E Leaf = Ok metaLeaf → meta_template metaLeaf = VUndefined →
     def_props d = HTMLElementOriginalDescriptors E ++ ["label"; "count"] ∧
     def_template d = T1).
Proof.
  split.
  - intros. eapply three_levels; eassumption.
  - intros. eapply two_levels; eassumption.
Qed.

Lemma super_of_demo prod base dm rm c p sp :
  getPrototypeOf (demo_env prod base dm rm) (VObj c) = Ok (VObj p) →
  circular (object (demo_env prod base dm rm) p) = None →
  sp = VObj p →
  super_of (demo_env prod base dm rm) (VObj c) sp.
Proof.
  intros Hp Hc ->. exists VUndefined, init_state, [].
  unfold getCtorProto. rewrite Hp. cbn [lift]. rewrite bind_lift_ok. cbn [isNull].
  unfold isCircularModuleDependency. rewrite Hc. reflexivity.
Qed.

Lemma C2_inherited_props_witness :
  (∃ d s' t,
     getComponentDef (abc_env false ["title"]) 4 (VObj 11) VUndefined init_state
       = (Ok d, s', t) ∧
     def_props d = ["title"; "a"; "b"; "c"])
  ∧
  (∃ d s' t,
     getComponentDef (leaf_env ["title"]) 3 (VObj 9) VUndefined init_state = (Ok d, s', t) ∧
     def_props d = ["title"; "label"; "count"] ∧ def_template d = VObj 13).
Proof.
  split.
  - do 3 eexists. split; [vm_compute; reflexivity|].
    refine (proj1 (C2_inherited_props (abc_env false ["title"]))
              4 (VObj 7) (VObj 9) (VObj 11) VUndefined init_state _ _ _ "a" "b" "c"
              _ _ _ _ _ _ _ _ _ _).
    + apply cache_ok_init.
    + vm_compute; reflexivity.
    + apply (super_of_demo _ _ _ _ 11 9); reflexivity.
    + discriminate.
    + apply (super_of_demo _ _ _ _ 9 7); reflexivity.
    + discriminate.
    + apply (super_of_demo _ _ _ _ 7 3); reflexivity.
    + reflexivity.
    + reflexivity.
    + reflexivity.
  - do 3 eexists. split; [vm_compute; reflexivity|].
    refine (proj2 (C2_inherited_props (leaf_env ["title"]))
              3 (VObj 7) (VObj 9) VUndefined init_state _ _ _
              {| meta_name := str "x-mid"; meta_template := VObj 13 |}
              {| meta_name := str "x-leaf"; meta_template := VUndefined |}
              (VObj 13) _ _ _ _ _ _ _ _ _ _ _ _).
    + apply cache_ok_init.
    + vm_compute; reflexivity.
    + apply (super_of_demo _ _ _ _ 9 7); reflexivity.
    + discriminate.
    + apply (super_of_demo _ _ _ _ 7 3); reflexivity.
    + reflexivity.
    + reflexivity.
    + reflexivity.
    + reflexivity.
    + reflexivity.
    + reflexivity.
    + reflexivity.
Defined.

(** The claim C2 as stated fails: with a root definition that has a public
    field of its own, the fields of [C] are not just those of [A], [B] and
    [C], and the fields of [Leaf] are not just [label] and [count]. *)
Lemma C2_counterexample :
  (∃ d s' t,
     getComponentDef (abc_env false ["title"]) 4 (VObj 11) VUndefined init_state
       = (Ok d, s', t) ∧
     def_props d ≠ ["a"; "b"; "c"])
  ∧
  (∃ d s' t,
     getComponentDef (leaf_env ["title"]) 3 (VObj 9) VUndefined init_state = (Ok d, s', t) ∧
     def_props d ≠ ["label"; "count"]).
Proof.
  split; do 3 eexists; (split; [vm_compute; reflexivity|]); discriminate.
Qed.

(** C3. The definition a call returns has as public fields those of the
    superclass definition followed by the class's own public field names,
    and as wire list that of the superclass definition followed by the
    class's own wired field names and then its own wired method names;
    nothing is removed from either list. The superclass definition is the
    canonical root definition when the superclass is the base class and the
    cached definition of the superclass otherwise. *)
Theorem C3_merge_equations E fuel Ctor n s d s' t :
  cache_ok E s →
  getComponentDef E fuel Ctor n s = (Ok d, s', t) →
  cache_ok E s' ∧
  ∃ superProto superDef,
    super_of E Ctor superProto ∧
    super_def_in E s' superProto superDef ∧
    def_props d = def_props superDef ++ apiFields (getDecoratorsMeta E Ctor) ∧
    def_wire d =
      def_wire superDef ++ wiredFields (getDecoratorsMeta E Ctor)
        ++ wiredMethods (getDecoratorsMeta E Ctor).
Proof.
  intros Hok H. split; [eapply cache_ok_preserved; eassumption|].
  destruct (built_props _ _ _ _ (getComponentDef_built _ _ _ _ _ _ _ _ Hok H))
    as (sp & sd & Hsp & Hsd & Hprops & Hwire & _).
  exists sp, sd. auto.
Qed.

Lemma C3_merge_equations_witness :
  ∃ d s' t,
    getComponentDef (abc_env false ["title"]) 4 (VObj 11) VUndefined init_state
      = (Ok d, s', t) ∧
    cache_ok (abc_env false ["title"]) s' ∧
    ∃ superProto superDef,
      super_of (abc_env false ["title"]) (VObj 11) superProto ∧
      super_def_in (abc_env false ["title"]) s' superProto superDef ∧
      def_props d = def_props superDef ++ ["c"] ∧
      def_wire d = def_wire superDef ++ [] ++ [].
Proof.
  do 3 eexists. split; [vm_compute; reflexivity|].
  eapply (C3_merge_equations (abc_env false ["title"]) 4 (VObj 11) VUndefined init_state).
  - apply cache_ok_init.
  - vm_compute; reflexivity.
Defined.

Section Fallback.
Variable E : Env.

Lemma built_callbacks s Ctor d :
  built E s Ctor d →
  ∃ superProto superDef meta proto cc dc rc ec,
    super_of E Ctor superProto ∧ super_def_in E s superProto superDef ∧
    resolved_meta E Ctor = Ok meta ∧
    Get E Ctor "prototype" = Ok proto ∧
    Get E proto "connectedCallback" = Ok cc ∧
    Get E proto "disconnectedCallback" = Ok dc ∧
    Get E proto "renderedCallback" = Ok rc ∧
    Get E proto "errorCallback" = Ok ec ∧
    def_connectedCallback d = (if truthy cc then cc else def_connectedCallback superDef) ∧
    def_disconnectedCallback d =
      (if truthy dc then dc else def_disconnectedCallback superDef) ∧
    def_renderedCallback d = (if truthy rc then rc else def_renderedCallback superDef) ∧
    def_errorCallback d = (if truthy ec then ec else def_errorCallback superDef) ∧
    def_template d =
      (if truthy (meta_template meta) then meta_template meta else def_template superDef) ∧
    truthy (def_template d) = true.
Proof.
  intros (sp & sd & meta & m & _ & Hsp & Hsd & Hmeta & Hm & Hd & Ht).
  apply read_members_inv in Hm as (_ & Hp & Hcc & Hdc & Hrc & Hec & _).
  exists sp, sd, meta, (m_proto m), (m_connectedCallback m), (m_disconnectedCallback m),
    (m_renderedCallback m), (m_errorCallback m).
  repeat (split; [assumption|]).
  rewrite Hd. cbn. unfold or_else. rewrite Hd in Ht. cbn in Ht. unfold or_else in Ht.
  auto 10.
Qed.

Lemma truthy_not_nullish v : truthy v = true → v ≠ VNull ∧ v ≠ VUndefined.
Proof. destruct v; try discriminate; split; discriminate. Qed.

(** A member the prototype declares itself is the one a read finds. *)
Lemma declared_member proto key v own_or_inherited super_value :
  declares E proto key v →
  Get E proto key = Ok own_or_inherited →
  (if truthy own_or_inherited then own_or_inherited else super_value) = v.
Proof.
  intros (p & -> & Hown & Htruthy). unfold Get, chain_fuel. cbn [lookup_chain].
  unfold object in *. rewrite Hown. intros [= <-]. rewrite Htruthy. reflexivity.
Qed.
End Fallback.

(** C4. In the definition a call returns, each of the four lifecycle
    callbacks is the value read from the class's prototype when that value
    is present (truthy) and the callback of the superclass definition
    otherwise; in particular it is the member the prototype declares itself
    when there is one. The template is the registered template of the class
    when present and the template of the superclass definition otherwise.
    The superclass definition is the canonical root definition when the
    superclass is the base class and the cached definition of the superclass
    otherwise; the root definition's template is the default empty template,
    and the template of every definition is neither null nor undefined. *)
Theorem C4_fallback E fuel Ctor n s d s' t :
  cache_ok E s →
  getComponentDef E fuel Ctor n s = (Ok d, s', t) →
  (∃ superProto superDef meta proto cc dc rc ec,
     super_of E Ctor superProto ∧ super_def_in E s' superProto superDef ∧
     resolved_meta E Ctor = Ok meta ∧
     Get E Ctor "prototype" = Ok proto ∧
     Get E proto "connectedCallback" = Ok cc ∧
     Get E proto "disconnectedCallback" = Ok dc ∧
     Get E proto "renderedCallback" = Ok rc ∧
     Get E proto "errorCallback" = Ok ec ∧
     def_connectedCallback d = (if truthy cc then cc else def_connectedCallback superDef) ∧
     def_disconnectedCallback d =
       (if truthy dc then dc else def_disconnectedCallback superDef) ∧
     def_renderedCallback d = (if truthy rc then rc else def_renderedCallback superDef) ∧
     def_errorCallback d = (if truthy ec then ec else def_errorCallback superDef) ∧
     def_template d =
       (if truthy (meta_template meta) then meta_template meta else def_template superDef) ∧
     (∀ v, declares E proto "connectedCallback" v → def_connectedCallback d = v) ∧
     (∀ v, declares E proto "disconnectedCallback" v → def_disconnectedCallback d = v) ∧
     (∀ v, declares E proto "renderedCallback" v → def_renderedCallback d = v) ∧
     (∀ v, declares E proto "errorCallback" v → def_errorCallback d = v)) ∧
  def_template (lightingElementDef E) = VObj (defaultEmptyTemplate E) ∧
  truthy (def_template d) = true ∧
  def_template d ≠ VNull ∧ def_template d ≠ VUndefined.
Proof.
  intros Hok H.
  destruct (built_callbacks _ _ _ _ (getComponentDef_built _ _ _ _ _ _ _ _ Hok H))
    as (sp & sd & meta & proto & cc & dc & rc & ec & Hsp & Hsd & Hmeta & Hproto
        & Hcc & Hdc & Hrc & Hec & Ecc & Edc & Erc & Eec & Etemplate & Htruthy).
  split.
  { exists sp, sd, meta, proto, cc, dc, rc, ec.
    repeat (split; [assumption|]).
    split; [|split; [|split]]; intros v Hv.
    - rewrite Ecc. eapply declared_member; eassumption.
    - rewrite Edc. eapply declared_member; eassumption.
    - rewrite Erc. eapply declared_member; eassumption.
    - rewrite Eec. eapply declared_member; eassumption. }
  split; [reflexivity|]. split; [assumption|].
  by apply truthy_not_nullish.
Qed.

Lemma C4_fallback_witness :
  ∃ d s' t,
    getComponentDef (leaf_env []) 3 (VObj 9) VUndefined init_state = (Ok d, s', t) ∧
    def_connectedCallback d = VObj 21 ∧
    def_template d = VObj 13 ∧
    (∃ superProto superDef meta proto cc dc rc ec,
       super_of (leaf_env []) (VObj 9) superProto ∧
       super_def_in (leaf_env []) s' superProto superDef ∧
       resolved_meta (leaf_env []) (VObj 9) = Ok meta ∧
       Get (leaf_env []) (VObj 9) "prototype" = Ok proto ∧
       Get (leaf_env []) proto "connectedCallback" = Ok cc ∧
       Get (leaf_env []) proto "disconnectedCallback" = Ok dc ∧
       Get (leaf_env []) proto "renderedCallback" = Ok rc ∧
       Get (leaf_env []) proto "errorCallback" = Ok ec ∧
       def_connectedCallback d = (if truthy cc then cc else def_connectedCallback superDef) ∧
       def_disconnectedCallback d =
         (if truthy dc then dc else def_disconnectedCallback superDef) ∧
       def_renderedCallback d = (if truthy rc then rc else def_renderedCallback superDef) ∧
       def_errorCallback d = (if truthy ec then ec else def_errorCallback superDef) ∧
       def_template d =
         (if truthy (meta_template meta) then meta_template meta
          else def_template superDef) ∧
       (∀ v, declares (leaf_env []) proto "connectedCallback" v →
             def_connectedCallback d = v) ∧
       (∀ v, declares (leaf_env []) proto "disconnectedCallback" v →
             def_disconnectedCallback d = v) ∧
       (∀ v, declares (leaf_env []) proto "renderedCallback" v →
             def_renderedCallback d = v) ∧
       (∀ v, declares (leaf_env []) proto "errorCallback" v → def_errorCallback d = v)) ∧
    def_template (lightingElementDef (leaf_env [])) = VObj 6 ∧
    truthy (def_template d) = true ∧
    def_template d ≠ VNull ∧ def_template d ≠ VUndefined.
Proof.
  do 3 eexists. split; [vm_compute; reflexivity|].
  split; [reflexivity|]. split; [reflexivity|].
  eapply (C4_fallback (leaf_env []) 3 (VObj 9) VUndefined init_state).
  - apply cache_ok_init.
  - vm_compute; reflexivity.
Defined.

Section Placeholders.
Variable E : Env.

Lemma instanceof_base_ok O :
  base_ok E → ∃ b, instanceof E O (BaseLightningElement E) = Ok b.
Proof.
  intros [Hcallable [bp Hbp]]. unfold instanceof. rewrite Hcallable. cbn [negb].
  destruct O; try (eexists; reflexivity).
  rewrite Hbp. cbn [rbind]. eexists; reflexivity.
Qed.

Lemma resolve_run r p s :
  circular (object E r) = Some p →
  resolveCircularModuleDependency E (VObj r) s = (Ok p, s, [EvResolveCircular (VObj r)]).
Proof.
  intros Hc. unfold resolveCircularModuleDependency. rewrite bind_emit, Hc. reflexivity.
Qed.

Lemma getCtorProto_self Ctor n s p :
  circular (object E p) = Some (VObj p) →
  getPrototypeOf E Ctor = Ok (VObj p) →
  getCtorProto E Ctor n s =
    (Ok (VObj (BaseLightningElement E)), s, [EvResolveCircular (VObj p)]).
Proof.
  intros Hc Hp. unfold getCtorProto. rewrite Hp, bind_lift_ok. cbn [isNull].
  unfold isCircularModuleDependency. rewrite Hc.
  rewrite bool_decide_eq_true_2 by eauto.
  erewrite bind_ok by (apply resolve_run; exact Hc).
  destruct (production E); cbn [negb isNull]; rewrite bind_ret;
    rewrite decide_True by reflexivity; reflexivity.
Qed.

Lemma getPrototypeOf_not_null v v' : getPrototypeOf E v = Ok v' → isNull v = false.
Proof. destruct v; simpl; congruence. Qed.

Lemma loop_reaches_self p nodes v s fuel :
  circular (object E p) = Some (VObj p) →
  chain E v nodes (VObj p) →
  length nodes ≤ fuel →
  ∃ t, isComponentConstructor_loop E fuel v s = (Ok true, s, t) ∧
       t `sublist_of` (EvResolveCircular <$> nodes).
Proof.
  intros Hp Hchain. revert fuel. remember (VObj p) as target eqn:Htarget.
  induction Hchain as [v|v v' nodes target [Hstep Htruthy] Hchain IH]; intros fuel Hfuel;
    subst.
  - destruct fuel as [|fuel]; [simpl in Hfuel; lia|].
    cbn [isComponentConstructor_loop]. unfold isCircularModuleDependency.
    rewrite Hp. rewrite bool_decide_eq_true_2 by eauto.
    exists [EvResolveCircular (VObj p)]. split; [|reflexivity].
    erewrite bind_ok.
    2: { erewrite bind_ok by (apply resolve_run; exact Hp).
         rewrite decide_True by reflexivity. reflexivity. }
    reflexivity.
  - destruct fuel as [|fuel]; [simpl in Hfuel; lia|]. simpl in Hfuel.
    destruct (IH eq_refl Hp fuel ltac:(lia)) as (t' & Hrun & Hsub).
    cbn [isComponentConstructor_loop].
    assert (Htail : ∀ current,
      getPrototypeOf E current = Ok v' →
      ∃ t, (if decide (current = VObj (BaseLightningElement E)) then ret true
            else if isNull current then ret false
            else let* next := lift (getPrototypeOf E current) in
                 if truthy next then isComponentConstructor_loop E fuel next
                 else ret false) s = (Ok true, s, t) ∧
           t `sublist_of` (EvResolveCircular <$> nodes)).
    { intros current Hcur.
      destruct (decide (current = VObj (BaseLightningElement E))).
      - exists []. split; [reflexivity|]. apply sublist_nil_l.
      - rewrite (getPrototypeOf_not_null _ _ Hcur), Hcur, bind_lift_ok, Htruthy.
        exists t'. auto. }
    unfold effective in Hstep. unfold isCircularModuleDependency.
    destruct v as [| | |r].
    1-3: rewrite bind_ret; destruct (Htail _ Hstep) as (t & Ht & Hs);
         exists t; split; [assumption|]; by apply sublist_cons.
    destruct (circular (object E r)) as [q|] eqn:Hq.
    + rewrite bool_decide_eq_true_2 by eauto.
      destruct (decide (q = VObj r)) as [->|Hne].
      * exists [EvResolveCircular (VObj r)]. split.
        -- erewrite bind_ok.
           2: { erewrite bind_ok by (apply resolve_run; exact Hq).
                rewrite decide_True by reflexivity. reflexivity. }
           reflexivity.
        -- cbn. apply sublist_skip, sublist_nil_l.
      * destruct (Htail _ Hstep) as (t & Ht & Hs).
        exists (EvResolveCircular (VObj r) :: t). split.
        -- erewrite bind_ok.
           2: { erewrite bind_ok by (apply resolve_run; exact Hq).
                rewrite decide_False by assumption. reflexivity. }
           cbv beta iota. rewrite Ht. reflexivity.
        -- cbn. by apply sublist_skip.
    + rewrite bool_decide_eq_false_2 by (intros [? ?]; discriminate).
      rewrite bind_ret. destruct (Htail _ Hstep) as (t & Ht & Hs).
      exists t. split; [assumption|]. by apply sublist_cons.
Qed.

Lemma isComponentConstructor_reaches_self p nodes ctor s fuel :
  base_ok E →
  circular (object E p) = Some (VObj p) →
  isFunction E ctor = true →
  chain E ctor nodes (VObj p) →
  length nodes ≤ fuel →
  ∃ t, isComponentConstructor E fuel ctor s = (Ok true, s, t) ∧
       t `sublist_of` (EvResolveCircular <$> nodes).
Proof.
  intros Hbase Hp Hf Hchain Hfuel. unfold isComponentConstructor. rewrite Hf. cbn [negb].
  destruct (isFunction_obj _ _ Hf) as [c ->].
  change (Get E (VObj c) "prototype") with (Ok (lookup_chain E (chain_fuel E) c "prototype")).
  rewrite bind_lift_ok.
  destruct (instanceof_base_ok (lookup_chain E (chain_fuel E) c "prototype") Hbase)
    as [b Hb].
  rewrite Hb, bind_lift_ok. destruct b.
  - exists []. split; [reflexivity|]. apply sublist_nil_l.
  - eapply loop_reaches_self; eassumption.
Qed.
End Placeholders.

(** C5. Let a placeholder's resolver return the placeholder itself. Then
    [getCtorProto], on a constructor whose prototype link is that
    placeholder, returns the base class after resolving the placeholder
    once; and [isComponentConstructor], on a function whose chain arrives at
    the placeholder, returns true as soon as its fuel covers the nodes of the
    chain, having resolved each node of the chain at most once, in chain
    order. *)
Theorem C5_self_returning_placeholder E p :
  circular (object E p) = Some (VObj p) →
  (∀ Ctor n s,
     getPrototypeOf E Ctor = Ok (VObj p) →
     getCtorProto E Ctor n s =
       (Ok (VObj (BaseLightningElement E)), s, [EvResolveCircular (VObj p)]))
  ∧
  (∀ ctor nodes fuel s,
     base_ok E →
     isFunction E ctor = true →
     chain E ctor nodes (VObj p) →
     length nodes ≤ fuel →
     ∃ t, isComponentConstructor E fuel ctor s = (Ok true, s, t) ∧
          t `sublist_of` (EvResolveCircular <$> nodes)).
Proof.
  intros Hp. split.
  - intros Ctor n s Hproto. by apply getCtorProto_self.
  - intros ctor nodes fuel s Hbase Hf Hchain Hfuel.
    by eapply isComponentConstructor_reaches_self.
Qed.

Lemma C5_self_returning_placeholder_witness :
  getCtorProto (abc_env false []) (VObj 15) (str "D") init_state =
    (Ok (VObj 3), init_state, [EvResolveCircular (VObj 14)])
  ∧
  ∃ t, isComponentConstructor (abc_env false []) 2 (VObj 15) init_state
         = (Ok true, init_state, t) ∧
       t `sublist_of` [EvResolveCircular (VObj 15); EvResolveCircular (VObj 14)].
Proof.
  assert (Hp : circular (object (abc_env false []) 14) = Some (VObj 14))
    by (vm_compute; reflexivity).
  split.
  - apply (proj1 (C5_self_returning_placeholder (abc_env false []) 14 Hp)).
    vm_compute; reflexivity.
  - apply (proj2 (C5_self_returning_placeholder (abc_env false []) 14 Hp)
             (VObj 15) [VObj 15; VObj 14] 2 init_state).
    + split; [vm_compute; reflexivity|]. exists 4. vm_compute; reflexivity.
    + vm_compute; reflexivity.
    + apply chain_next with (v' := VObj 14); [|apply chain_end].
      split; vm_compute; reflexivity.
    + simpl. lia.
Defined.

Section Rejection.
Variable E : Env.

Lemma only_resolutions_app t1 t2 :
  only_resolutions t1 → only_resolutions t2 → only_resolutions (t1 ++ t2).
Proof. apply Forall_app_2. Qed.

Lemma resolveCircularModuleDependency_only v s r s' t :
  resolveCircularModuleDependency E v s = (r, s', t) → only_resolutions t.
Proof.
  unfold resolveCircularModuleDependency, throw. intros H. inv_run.
  all: repeat constructor; eauto.
Qed.

Lemma isComponentConstructor_loop_only fuel current s r s' t :
  isComponentConstructor_loop E fuel current s = (r, s', t) → only_resolutions t.
Proof.
  revert current s r s' t. induction fuel as [|fuel IH]; intros current s r s' t H;
    cbn [isComponentConstructor_loop] in H; inv_run.
  all: repeat match goal with
       | H : resolveCircularModuleDependency _ _ _ = _ |- _ =>
           apply resolveCircularModuleDependency_only in H
       | H : isComponentConstructor_loop _ _ _ _ = _ |- _ => apply IH in H
       end.
  all: repeat apply only_resolutions_app; try assumption; constructor.
Qed.

Lemma isComponentConstructor_only fuel ctor s r s' t :
  isComponentConstructor E fuel ctor s = (r, s', t) → only_resolutions t.
Proof.
  unfold isComponentConstructor. intros H. inv_run.
  all: repeat match goal with
       | H : isComponentConstructor_loop _ _ _ _ = _ |- _ =>
           apply isComponentConstructor_loop_only in H
       end.
  all: repeat apply only_resolutions_app; try assumption; constructor.
Qed.

Lemma isComponentConstructor_not_function fuel v s :
  isFunction E v = false → isComponentConstructor E fuel v s = (Ok false, s, []).
Proof. intros Hf. unfold isComponentConstructor. rewrite Hf. reflexivity. Qed.



Lemma recognized_not_rejected Ctor fuel s s1 t :
  recognized E Ctor → isComponentConstructor E fuel Ctor s = (Ok false, s1, t) → False.
Proof.
  intros (k & s0 & t0 & Htrue) Hfalse.
  destruct (pure_run _ _ _ _ _ (pure_isComponentConstructor E _ _) Htrue) as [_ Htrue'].
  pose proof (isComponentConstructor_mono E k (k `max` fuel) Ctor ltac:(lia) _ _ _ _
                (Htrue' s) ltac:(discriminate)) as H1.
  pose proof (isComponentConstructor_mono E fuel (k `max` fuel) Ctor ltac:(lia) _ _ _ _
                Hfalse ltac:(discriminate)) as H2.
  congruence.
Qed.

Lemma getComponentDef_rejects v fuel n s s1 t :
  cache_ok E s →
  isComponentConstructor E (S fuel) v s = (Ok false, s1, t) →
  getComponentDef E (S fuel) v n s = (Throw (TypeError (NotValidComponent v)), s, t) ∧
  only_resolutions t.
Proof.
  intros Hok Hrej. split; [|eapply isComponentConstructor_only; eassumption].
  destruct (pure_run _ _ _ _ _ (pure_isComponentConstructor E _ _) Hrej) as [-> _].
  assert (Hc : cached s v = None).
  { destruct (cached s v) as [d|] eqn:Hc; [exfalso|reflexivity].
    destruct v as [| | |c]; try discriminate.
    destruct (Hok _ _ Hc) as (? & ? & ? & ? & Hrec & _).
    eapply recognized_not_rejected; eassumption. }
  cbn [getComponentDef].
  erewrite bind_ok by apply CtorToDefMap_get_run. rewrite Hc.
  erewrite bind_ok by exact Hrej. cbn [negb]. cbn. rewrite app_nil_r. reflexivity.
Qed.
End Rejection.



Section Failure.
Variable E : Env.

End Failure.




Section Ancestry.
Variable E : Env.



Lemma createComponentDef_rec_fails rec Ctor meta n s m superProto t0 f s1 t1 :
  dev_check E Ctor = Ok tt →
  read_members E Ctor = Ok m →
  getCtorProto E Ctor n s = (Ok superProto, s, t0) →
  superProto ≠ VObj (BaseLightningElement E) →
  rec superProto n s = (Fail f, s1, t1) →
  createComponentDef E rec Ctor meta n s = (Fail f, s1, EvDecoratorsMeta Ctor :: t0 ++ t1).
Proof.
  intros Hdev Hm Hsp Hne Hrec. rewrite createComponentDef_stages.
  rewrite Hdev, bind_lift_ok, bind_emit, Hm, bind_lift_ok.
  erewrite bind_ok by exact Hsp.
  erewrite bind_fail; [reflexivity|].
  unfold super_def. rewrite decide_True by assumption. exact Hrec.
Qed.

(** A call that misses the cache and recognizes its argument fails the way
    [createComponentDef] does. *)
Lemma getComponentDef_create_fails fuel Ctor n s t0 name f s1 t1 :
  cached s Ctor = None →
  isComponentConstructor E (S fuel) Ctor s = (Ok true, s, t0) →
  display_name E n Ctor = Ok name →
  (∀ meta, createComponentDef E (getComponentDef E fuel) Ctor meta name s = (Fail f, s1, t1)) →
  getComponentDef E (S fuel) Ctor n s = (Fail f, s1, t0 ++ EvRegisteredMeta Ctor :: t1).
Proof.
  intros Hc Hrec Hname Hcreate.
  destruct (getComponentDef E (S fuel) Ctor n s) as [[r s'] t] eqn:Hrun.
  apply getComponentDef_inv in Hrun
    as [(d0 & Hc' & _)|(_ & [(f' & Hrec' & _)|[(Hrec' & _)|H]])];
    try congruence.
  destruct H as (c0 & t0' & meta & name' & r1 & s1' & t1' & -> & Hrec' & _ & Hname' & Hcreate' & -> & H).
  rewrite Hrec in Hrec'. injection Hrec' as <-.
  rewrite Hname in Hname'. injection Hname' as <-.
  rewrite Hcreate in Hcreate'. injection Hcreate' as <- <- <-.
  destruct H as [-> ->]. reflexivity.
Qed.
End Ancestry.



Section Prototype.
Variable E : Env.

(** What the last stage does to the marks, in a run that returns. *)
Lemma finish_ok_marks Ctor meta m superDef s d s' t :
  finish E Ctor meta m superDef s = (Ok d, s', t) →
  Get E Ctor "prototype" = Ok (m_proto m) →
  frozen s' =
    (if production E then frozen s
     else match m_proto m with
          | VObj p => {[p]} ∪ frozen s
          | _ => frozen s
          end) ∧
  observed s' =
    match fields (m_decorators m), m_proto m with
    | Some (f :: fs), VObj p => <[p := default [] (observed s !! p) ++ f :: fs]> (observed s)
    | _, _ => observed s
    end.
Proof.
  intros H Hp. unfold finish, new_object in H. rewrite Hp in H.
  unfold createObservedFieldsDescriptorMap, defineProperties, freeze in H.
  destruct (production E); cbn [negb] in H;
    destruct (fields (m_decorators m)) as [[|f fs]|];
    destruct (m_proto m) as [| | |p];
    cbv [bind ret lift] in H; try case_decide;
    simplify_eq; cbn [frozen observed]; auto.
Qed.



End Prototype.




(** C10. Two calls of [getComponentDef] from the same state that differ in
    the display name only leave the same state and the same trace, and
    either return the same definition object, or both throw, or both run out
    of fuel: the name can change nothing but the error thrown. After a call
    that returns, a call under any other name returns that same object from
    the cache. *)
Theorem C10_display_name E fuel Ctor n1 n2 s r1 s1 t1 :
  getComponentDef E fuel Ctor n1 s = (r1, s1, t1) →
  (∃ r2, getComponentDef E fuel Ctor n2 s = (r2, s1, t1) ∧ rsim r1 r2) ∧
  ∀ d, r1 = Ok d →
    getComponentDef E fuel Ctor n2 s = (Ok d, s1, t1) ∧
    ∀ fuel', getComponentDef E (S fuel') Ctor n2 s1 = (Ok d, s1, []).
Proof.
  intros H. split; [exact (getComponentDef_msim E fuel Ctor n1 n2 _ _ _ _ H)|].
  intros d ->. split; [eapply getComponentDef_name; eassumption|].
  intros fuel'. apply getComponentDef_hit.
  eapply getComponentDef_Ok_cached; eassumption.
Qed.

Lemma C10_display_name_witness :
  ∃ d s1 t1,
    getComponentDef (abc_env false []) 4 (VObj 11) VUndefined init_state = (Ok d, s1, t1) ∧
    getComponentDef (abc_env false []) 4 (VObj 11) (str "x-c") init_state = (Ok d, s1, t1) ∧
    ∀ fuel', getComponentDef (abc_env false []) (S fuel') (VObj 11) (str "x-c") s1
               = (Ok d, s1, []).
Proof.
  do 3 eexists. split; [vm_compute; reflexivity|].
  refine (proj2 (C10_display_name (abc_env false []) 4 (VObj 11) VUndefined (str "x-c")
                   init_state _ _ _ _) _ eq_refl).
  vm_compute; reflexivity.
Defined.

(** * Further properties of [def.ts] *)

(** ** Every cached definition is a tower of merges over the root *)

Section Towers.
Variable E : Env.

Lemma reachable_invariants s : reachable E s → cache_ok E s ∧ oids_ok s.
Proof.
  intros (calls & t & H).
  eapply run_calls_invariants; [exact H|apply cache_ok_init|apply oids_ok_init].
Qed.

Lemma reachable_step fuel Ctor n s r s' t :
  reachable E s → getComponentDef E fuel Ctor n s = (r, s', t) → reachable E s'.
Proof.
  intros (calls & t0 & H) Hrun. exists (calls ++ [(fuel, Ctor, n)]), (t0 ++ t).
  revert H. generalize init_state as s0. revert t0.
  induction calls as [|[[fuel0 X] n0] calls IH]; intros t0 s0 H; cbn [run_calls app] in *.
  - injection H as -> <-. rewrite Hrun. rewrite app_nil_r. reflexivity.
  - destruct (getComponentDef E fuel0 X n0 s0) as [[r0 s1] t1].
    destruct (run_calls E calls s1) as [s2 t2] eqn:Hrest.
    injection H as -> <-. rewrite (IH _ _ Hrest). rewrite app_assoc. reflexivity.
Qed.

Lemma towers_preserved fuel Ctor n s r s' t :
  towers E s →
  getComponentDef E fuel Ctor n s = (r, s', t) →
  towers E s'.
Proof.
  revert Ctor n s r s' t. induction fuel as [|fuel IH]; intros Ctor n s r s' t Hok H.
  { apply lift_inv in H as (_ & -> & _). assumption. }
  apply getComponentDef_inv in H
    as [(d0 & Hc & ? & -> & ->)|(Hc & [(f & _ & ? & ->)|[(_ & ? & ->)|H]])];
    try assumption.
  destruct H as (c0 & t0 & meta & name & r1 & s1 & t1 & -> & Hrec & Hmeta & _ & Hcreate & _ & H).
  apply createComponentDef_inv in Hcreate
    as [(f & -> & -> & _)|(m & superProto & t2 & rs & s2 & t3 & _ & Hm & Hsp & Hsuper & _ & Hfin)].
  { destruct H as [_ ->]. assumption. }
  assert (Hok2 : towers E s2).
  { apply super_def_inv in Hsuper as [(_ & _ & -> & _)|(_ & Hr)]; [assumption|].
    eapply IH; eassumption. }
  destruct rs as [superDef|f].
  2: { destruct Hfin as [-> ->]. destruct H as [_ ->]. assumption. }
  apply finish_inv in Hfin as (_ & Heq & Hfin).
  destruct Hfin as [[-> _]|(e & -> & _)].
  2: { destruct H as [_ ->]. intros c d Hcd. rewrite Heq in Hcd. auto. }
  destruct H as (_ & Hs' & _).
  intros c d Hcd. rewrite Hs', Heq in Hcd.
  destruct (decide (c = c0)) as [->|Hne].
  2: { rewrite lookup_insert_ne in Hcd by congruence. auto. }
  rewrite lookup_insert_eq in Hcd. injection Hcd as <-.
  assert (Hsp' : super_of E (VObj c0) superProto) by (exists name, s, t2; assumption).
  apply super_def_inv in Hsuper as [(-> & [= ->] & _ & _)|(Hne & Hr)].
  - apply definition_over_base; assumption.
  - pose proof (getComponentDef_Ok_cached _ _ _ _ _ _ _ _ Hr) as Hcs.
    destruct superProto as [| | |sp]; try discriminate.
    eapply definition_over; try eassumption. apply Hok2. assumption.
Qed.

Lemma reachable_towers s : reachable E s → towers E s.
Proof.
  intros (calls & t & H). revert H.
  assert (Hinit : towers E init_state).
  { intros c d Hcd. simpl in Hcd. rewrite lookup_empty in Hcd. discriminate. }
  revert Hinit. generalize init_state as s0. revert t.
  induction calls as [|[[fuel X] n] calls IH]; intros t s0 Hinit H; cbn [run_calls] in H.
  { injection H as <- <-. assumption. }
  destruct (getComponentDef E fuel X n s0) as [[r s1] t1] eqn:Hrun.
  destruct (run_calls E calls s1) as [s2 t2] eqn:Hrest.
  injection H as <- <-.
  eapply IH; [|eassumption]. eapply towers_preserved; eassumption.
Qed.

(** The definition a call returns from a reachable state is a tower. *)
Lemma returned_definition fuel Ctor n s d s' t :
  reachable E s →
  getComponentDef E fuel Ctor n s = (Ok d, s', t) →
  definition_of E Ctor d.
Proof.
  intros Hr H.
  pose proof (getComponentDef_Ok_cached _ _ _ _ _ _ _ _ H) as Hc.
  pose proof (reachable_towers _ (reachable_step _ _ _ _ _ _ _ Hr H)) as Hto.
  destruct Ctor as [| | |c]; try discriminate. apply Hto. assumption.
Qed.

Lemma lineage_functional Ctor l1 l2 : lineage E Ctor l1 → lineage E Ctor l2 → l1 = l2.
Proof.
  intros H1. revert l2. induction H1 as [Ctor Hsp|Ctor sp l Hsp Hne _ IH]; intros l2 H2;
    inversion H2 as [? Hsp2|? sp2 l' Hsp2 Hne2 Hl2]; subst.
  - reflexivity.
  - pose proof (super_of_functional _ _ _ _ Hsp Hsp2). congruence.
  - pose proof (super_of_functional _ _ _ _ Hsp Hsp2). congruence.
  - pose proof (super_of_functional _ _ _ _ Hsp Hsp2) as ->. f_equal. auto.
Qed.

Lemma member_read Ctor m :
  read_members E Ctor = Ok m →
  member E "connectedCallback" Ctor = m_connectedCallback m ∧
  member E "disconnectedCallback" Ctor = m_disconnectedCallback m ∧
  member E "renderedCallback" Ctor = m_renderedCallback m ∧
  member E "errorCallback" Ctor = m_errorCallback m ∧
  member E "render" Ctor = m_render m.
Proof.
  intros Hm. apply read_members_inv in Hm as (_ & Hp & H1 & H2 & H3 & H4 & H5).
  unfold member. rewrite Hp. cbn [rbind]. rewrite H1, H2, H3, H4, H5. auto.
Qed.

Lemma resolved_meta_registered Ctor meta :
  resolved_meta E Ctor = Ok meta →
  registered_template E Ctor = meta_template meta ∧
  registered_name E Ctor = Ok (meta_name meta).
Proof.
  unfold resolved_meta, registered_template, registered_name.
  destruct (getComponentRegisteredMeta E Ctor) as [meta0|].
  - intros [= ->]. auto.
  - destruct (Get E Ctor "name") as [nm|]; [|discriminate].
    cbn [rbind]. intros [= <-]. auto.
Qed.

(** The closed form of a tower. *)
Lemma definition_closed_form Ctor d :
  definition_of E Ctor d →
  ∃ l,
    lineage E Ctor l ∧
    def_ctor d = Ctor ∧
    registered_name E Ctor = Ok (def_name d) ∧
    def_props d = HTMLElementOriginalDescriptors E ++ concat (own_props E <$> reverse l) ∧
    def_wire d = concat (own_wire E <$> reverse l) ∧
    def_bridge d = bridge_of E l ∧
    def_connectedCallback d = first_truthy (member E "connectedCallback" <$> l) VUndefined ∧
    def_disconnectedCallback d =
      first_truthy (member E "disconnectedCallback" <$> l) VUndefined ∧
    def_renderedCallback d = first_truthy (member E "renderedCallback" <$> l) VUndefined ∧
    def_errorCallback d = first_truthy (member E "errorCallback" <$> l) VUndefined ∧
    def_render d =
      first_truthy (member E "render" <$> l) (def_render (lightingElementDef E)) ∧
    def_template d =
      first_truthy (registered_template E <$> l) (VObj (defaultEmptyTemplate E)).
Proof.
  induction 1 as [Ctor oid meta m Hsp Hmeta Hm
                 |Ctor oid meta m sp sd Hsp Hne _ IH Hmeta Hm].
  - exists [Ctor]. split; [by apply lineage_base|].
    destruct (member_read _ _ Hm) as (M1 & M2 & M3 & M4 & M5).
    destruct (resolved_meta_registered _ _ Hmeta) as (Ht & Hn).
    apply read_members_inv in Hm as (Hdm & _).
    cbn. unfold own_props, own_wire, or_else.
    rewrite M1, M2, M3, M4, M5, Ht, Hn, Hdm, !app_nil_r.
    repeat split; reflexivity.
  - destruct IH as (l & Hl & _ & _ & Hprops & Hwire & Hbridge & Hcc & Hdc & Hrc & Hec & Hrd & Htp).
    exists (Ctor :: l). split; [eapply lineage_sub; eassumption|].
    destruct (member_read _ _ Hm) as (M1 & M2 & M3 & M4 & M5).
    destruct (resolved_meta_registered _ _ Hmeta) as (Ht & Hn).
    apply read_members_inv in Hm as (Hdm & _).
    rewrite reverse_cons, !fmap_app, !concat_app.
    cbn [merged def_ctor def_name def_props def_wire def_bridge def_connectedCallback
         def_disconnectedCallback def_renderedCallback def_errorCallback def_render
         def_template fmap list_fmap concat first_truthy bridge_of].
    unfold or_else.
    rewrite M1, M2, M3, M4, M5, Ht, Hn, Hdm, Hprops, Hwire, Hbridge, Hcc, Hdc, Hrc, Hec, Hrd, Htp.
    unfold own_props, own_wire. rewrite !app_nil_r, <- !app_assoc.
    repeat split; reflexivity.
Qed.

Lemma first_truthy_truthy vs last :
  truthy last = true → truthy (first_truthy vs last) = true.
Proof.
  intros Hl. induction vs as [|v vs IH]; simpl; [assumption|].
  destruct (truthy v) eqn:Hv; assumption.
Qed.
End Towers.

(** ** What a resolution does to the state *)

Section Effects.
Variable E : Env.

Lemma grows_refl s : grows s s.
Proof.
  split; [intros c d H; exact H|]. split; [set_solver|]. split; [|lia].
  intros p l H. exists []. rewrite app_nil_r. assumption.
Qed.

Lemma grows_trans s1 s2 s3 : grows s1 s2 → grows s2 s3 → grows s1 s3.
Proof.
  intros (C1 & F1 & O1 & N1) (C2 & F2 & O2 & N2).
  split; [intros c d H; apply C2, C1, H|]. split; [set_solver|]. split; [|lia].
  intros p l H. destruct (O1 _ _ H) as [l1 H1]. destruct (O2 _ _ H1) as [l2 H2].
  exists (l1 ++ l2). rewrite app_assoc. assumption.
Qed.

Lemma finish_grows Ctor meta m superDef s r s' t :
  finish E Ctor meta m superDef s = (r, s', t) → grows s s'.
Proof.
  intros H. unfold finish, new_object in H.
  unfold createObservedFieldsDescriptorMap, defineProperties, freeze in H.
  destruct (production E); cbn [negb] in H;
    destruct (fields (m_decorators m)) as [[|f fs]|];
    destruct (m_proto m) as [| | |p];
    destruct (Get E Ctor "prototype") as [[| | |q]|];
    cbv [bind ret lift] in H; try case_decide; simplify_eq.
  all: split; [intros c d Hcd; exact Hcd|].
  all: cbn [CtorToDefMap frozen observed next_oid].
  all: split; [set_solver|].
  all: split; [|lia].
  all: intros key l Hl.
  all: try (exists []; rewrite app_nil_r; assumption).
  all: destruct (decide (key = p)) as [->|Hne];
    [rewrite lookup_insert_eq, Hl; eexists; reflexivity
    |rewrite lookup_insert_ne by congruence; exists []; rewrite app_nil_r; assumption].
Qed.

Lemma getComponentDef_grows fuel Ctor n s r s' t :
  getComponentDef E fuel Ctor n s = (r, s', t) → grows s s'.
Proof.
  revert Ctor n s r s' t. induction fuel as [|fuel IH]; intros Ctor n s r s' t H.
  { apply lift_inv in H as (_ & -> & _). apply grows_refl. }
  pose proof (getComponentDef_extends _ _ _ _ _ _ _ _ H) as Hext.
  apply getComponentDef_inv in H
    as [(d0 & Hc & ? & -> & ->)|(Hc & [(f & _ & ? & ->)|[(_ & ? & ->)|H]])];
    try apply grows_refl.
  destruct H as (c0 & t0 & meta & name & r1 & s1 & t1 & -> & _ & _ & _ & Hcreate & _ & H).
  assert (H1 : grows s s1).
  { apply createComponentDef_inv in Hcreate
      as [(f & _ & -> & _)|(m & superProto & t2 & rs & s2 & t3 & _ & _ & _ & Hsuper & _ & Hfin)];
      [apply grows_refl|].
    assert (H2 : grows s s2).
    { apply super_def_inv in Hsuper as [(_ & _ & -> & _)|(_ & Hr)]; [apply grows_refl|].
      eapply IH; eassumption. }
    destruct rs as [superDef|f]; [|destruct Hfin as [_ ->]; assumption].
    eapply grows_trans; [exact H2|]. eapply finish_grows; eassumption. }
  destruct r1 as [d1|f]; [|destruct H as [_ ->]; assumption].
  destruct H as (_ & _ & Hf & Ho & Hn). destruct H1 as (_ & F1 & O1 & N1).
  split; [assumption|]. rewrite Hf, Ho, Hn. auto.
Qed.

(** A new cache entry is the entry of a class whose decorator metadata
    the call has looked up. *)
Lemma new_entry_lookup fuel Ctor n s r s' t X :
  getComponentDef E fuel Ctor n s = (r, s', t) →
  cached s X = None →
  is_Some (cached s' X) →
  X ∈ decorator_lookups t.
Proof.
  revert Ctor n s r s' t. induction fuel as [|fuel IH]; intros Ctor n s r s' t H HX HX'.
  { apply lift_inv in H as (_ & -> & _). rewrite HX in HX'. by destruct HX'. }
  apply getComponentDef_inv in H
    as [(d0 & Hc & ? & -> & ->)|(Hc & [(f & _ & ? & ->)|[(_ & ? & ->)|H]])];
    try (rewrite HX in HX'; by destruct HX').
  destruct H as (c0 & t0 & meta & name & r1 & s1 & t1 & -> & _ & _ & _ & Hcreate & -> & H).
  unfold decorator_lookups. rewrite omap_app. apply elem_of_app. right. cbn.
  assert (H1 : is_Some (cached s1 X) → X ∈ decorator_lookups t1).
  { intros HX1.
    apply createComponentDef_inv in Hcreate
      as [(f & _ & -> & _)|(m & superProto & t2 & rs & s2 & t3 & _ & _ & _ & Hsuper & -> & Hfin)].
    { rewrite HX in HX1. by destruct HX1. }
    unfold decorator_lookups. cbn. rewrite omap_app. apply elem_of_cons. right.
    apply elem_of_app. right.
    assert (HX2 : is_Some (cached s2 X)).
    { destruct rs as [superDef|f].
      - apply finish_inv in Hfin as (_ & Heq & _).
        destruct X; try (by destruct HX1). simpl in *. rewrite <- Heq. assumption.
      - destruct Hfin as [_ ->]. assumption. }
    apply super_def_inv in Hsuper as [(_ & _ & -> & _)|(_ & Hr)].
    { rewrite HX in HX2. by destruct HX2. }
    eapply IH; eassumption. }
  destruct r1 as [d1|f]; [|destruct H as [_ ->]; auto].
  destruct H as (_ & Hs' & _).
  destruct (decide (X = VObj c0)) as [->|Hne].
  { apply createComponentDef_inv in Hcreate
      as [(f & ? & _)|(m & superProto & t2 & rs & s2 & t3 & _ & _ & _ & _ & -> & _)];
      [discriminate|].
    unfold decorator_lookups. cbn. apply elem_of_cons. left. reflexivity. }
  apply H1. destruct X as [| | |x]; try (by destruct HX').
  simpl in *. rewrite Hs' in HX'. rewrite lookup_insert_ne in HX' by congruence. assumption.
Qed.

(** In a development build the prototype of every class that gets a
    definition is frozen, and stays so. *)
Lemma prototypes_frozen_preserved fuel Ctor n s r s' t :
  production E = false →
  prototypes_frozen E s →
  getComponentDef E fuel Ctor n s = (r, s', t) →
  prototypes_frozen E s'.
Proof.
  intros Hdev. revert Ctor n s r s' t.
  induction fuel as [|fuel IH]; intros Ctor n s r s' t Hok H.
  { apply lift_inv in H as (_ & -> & _). assumption. }
  apply getComponentDef_inv in H
    as [(d0 & Hc & ? & -> & ->)|(Hc & [(f & _ & ? & ->)|[(_ & ? & ->)|H]])];
    try assumption.
  destruct H as (c0 & t0 & meta & name & r1 & s1 & t1 & -> & _ & _ & _ & Hcreate & _ & H).
  apply createComponentDef_inv in Hcreate
    as [(f & -> & -> & _)|(m & superProto & t2 & rs & s2 & t3 & _ & Hm & _ & Hsuper & _ & Hfin)].
  { destruct H as [_ ->]. assumption. }
  assert (Hok2 : prototypes_frozen E s2).
  { apply super_def_inv in Hsuper as [(_ & _ & -> & _)|(_ & Hr)]; [assumption|].
    eapply IH; eassumption. }
  destruct rs as [superDef|f].
  2: { destruct Hfin as [-> ->]. destruct H as [_ ->]. assumption. }
  pose proof (finish_grows _ _ _ _ _ _ _ _ Hfin) as (_ & Hfr & _).
  pose proof (finish_inv _ _ _ _ _ _ _ _ _ Hfin) as (_ & Heq & _).
  assert (Hok1 : prototypes_frozen E s1).
  { intros c d p Hcd Hp. rewrite Heq in Hcd. apply Hfr. eapply Hok2; eassumption. }
  destruct r1 as [d1|f]; [|destruct H as [_ ->]; assumption].
  destruct H as (-> & Hs' & Hf & _).
  intros c d p Hcd Hp. rewrite Hf. rewrite Hs' in Hcd.
  destruct (decide (c = c0)) as [->|Hne].
  2: { rewrite lookup_insert_ne in Hcd by congruence. eapply Hok1; eassumption. }
  apply read_members_inv in Hm as (_ & Hpm & _).
  destruct (finish_ok_marks _ _ _ _ _ _ _ _ _ Hfin Hpm) as [Hfz _].
  rewrite Hdev in Hfz. rewrite Hp in Hpm. injection Hpm as Hpm.
  rewrite <- Hpm in Hfz. rewrite Hfz.
  apply elem_of_union_l, elem_of_singleton. reflexivity.
Qed.

Lemma reachable_prototypes_frozen s :
  production E = false → reachable E s → prototypes_frozen E s.
Proof.
  intros Hdev (calls & t & H). revert H.
  assert (Hinit : prototypes_frozen E init_state).
  { intros c d p Hcd. simpl in Hcd. rewrite lookup_empty in Hcd. discriminate. }
  revert Hinit. generalize init_state as s0. revert t.
  induction calls as [|[[fuel X] n] calls IH]; intros t s0 Hinit H; cbn [run_calls] in H.
  { injection H as <- <-. assumption. }
  destruct (getComponentDef E fuel X n s0) as [[r s1] t1] eqn:Hrun.
  destruct (run_calls E calls s1) as [s2 t2] eqn:Hrest.
  injection H as <- <-.
  eapply IH; [|eassumption]. eapply prototypes_frozen_preserved; eassumption.
Qed.
End Effects.

(** ** The order of the metadata lookups *)

Section Order.
Variable E : Env.

Lemma metadata_events_only t : only_resolutions t → metadata_events t = [].
Proof.
  unfold metadata_events. induction 1 as [|e t [v ->] _ IH]; [reflexivity|].
  cbn. assumption.
Qed.

Lemma getCtorProto_only Ctor n s r s' t :
  getCtorProto E Ctor n s = (r, s', t) → only_resolutions t.
Proof.
  unfold getCtorProto, throw. intros H. inv_run.
  all: repeat match goal with
       | H : resolveCircularModuleDependency _ _ _ = _ |- _ =>
           apply resolveCircularModuleDependency_only in H
       end.
  all: repeat apply only_resolutions_app; try assumption; constructor.
Qed.

Lemma lineage_head Ctor l : lineage E Ctor l → ∃ l', l = Ctor :: l'.
Proof. destruct 1; eauto. Qed.

(** A resolution walks up the lineage until it meets a class that is
    cached. *)
Lemma lookups_along fuel Ctor n s d s' t l :
  getComponentDef E fuel Ctor n s = (Ok d, s', t) →
  lineage E Ctor l →
  ∃ k, k ≤ length l ∧
       metadata_events t = metadata_lookups_of (take k l) ∧
       (∀ c, c ∈ take k l → cached s c = None) ∧
       (∀ c, l !! k = Some c → is_Some (cached s c)).
Proof.
  revert Ctor n s d s' t l. induction fuel as [|fuel IH]; intros Ctor n s d s' t l H Hl;
    [discriminate|].
  apply getComponentDef_inv in H
    as [(d0 & Hc & ? & -> & ->)|(Hc & [(f & _ & ? & _)|[(_ & ? & _)|H]])];
    try discriminate.
  { exists 0. destruct (lineage_head _ _ Hl) as [l' ->].
    split; [simpl; lia|]. split; [reflexivity|]. split.
    - intros c Hin. cbn in Hin. by apply elem_of_nil in Hin.
    - intros c [= <-]. rewrite Hc. eauto. }
  destruct H as (c0 & t0 & meta & name & r1 & s1 & t1 & -> & Hrec & _ & _ & Hcreate & -> & H).
  destruct r1 as [d1|f]; [|destruct H; discriminate].
  apply isComponentConstructor_only, metadata_events_only in Hrec.
  apply createComponentDef_inv in Hcreate
    as [(f & ? & _)|(m & superProto & t2 & rs & s2 & t3 & _ & _ & Hsp & Hsuper & -> & Hfin)];
    [discriminate|].
  destruct rs as [superDef|f]; [|destruct Hfin; discriminate].
  pose proof (getCtorProto_only _ _ _ _ _ _ Hsp) as Ht2.
  apply metadata_events_only in Ht2.
  assert (Hsp' : super_of E (VObj c0) superProto) by (exists name, s, t2; assumption).
  assert (Hev : metadata_events (t0 ++ EvRegisteredMeta (VObj c0)
                  :: EvDecoratorsMeta (VObj c0) :: t2 ++ t3)
                = EvRegisteredMeta (VObj c0) :: EvDecoratorsMeta (VObj c0)
                  :: metadata_events t3).
  { unfold metadata_events in *. rewrite omap_app, Hrec. cbn.
    rewrite omap_app, Ht2. reflexivity. }
  rewrite Hev.
  apply super_def_inv in Hsuper as [(-> & _ & _ & ->)|(Hne & Hr)].
  - inversion Hl as [? Hb|? sp l' Hs Hne' Hl']; subst.
    2: { pose proof (super_of_functional _ _ _ _ Hsp' Hs). congruence. }
    exists 1. split; [simpl; lia|]. split; [reflexivity|]. split.
    + intros c Hin. cbn in Hin. apply list_elem_of_singleton in Hin as ->. assumption.
    + intros c Hk. discriminate.
  - inversion Hl as [? Hb|? sp l' Hs Hne' Hl']; subst.
    { pose proof (super_of_functional _ _ _ _ Hsp' Hb). congruence. }
    pose proof (super_of_functional _ _ _ _ Hsp' Hs) as ->.
    destruct (IH _ _ _ _ _ _ _ Hr Hl') as (k & Hk & Hev' & Hun & Hnext).
    exists (S k). split; [simpl; lia|]. split; [cbn; rewrite Hev'; reflexivity|]. split.
    + intros c Hin. cbn in Hin. apply elem_of_cons in Hin as [->|Hin]; auto.
    + intros c Hc'. cbn in Hc'. auto.
Qed.

(** Once a class has a definition, so has every class of its lineage. *)
Lemma lineage_cached s Ctor d l :
  cache_ok E s →
  cached s Ctor = Some d →
  lineage E Ctor l →
  ∀ c, c ∈ l → is_Some (cached s c).
Proof.
  intros Hok Hc Hl. revert d Hc.
  induction Hl as [Ctor Hsp|Ctor sp l Hsp Hne _ IH]; intros d Hc c Hin.
  - apply list_elem_of_singleton in Hin as ->. eauto.
  - apply elem_of_cons in Hin as [->|Hin]; [eauto|].
    destruct Ctor as [| | |c0]; try discriminate.
    destruct (Hok _ _ Hc) as (sp' & sd & _ & _ & _ & Hsp' & Hsd & _).
    pose proof (super_of_functional _ _ _ _ Hsp Hsp') as <-.
    destruct Hsd as [[? _]|[_ Hcs]]; [contradiction|].
    eapply IH; eassumption.
Qed.
End Order.

(** ** Recognition *)

Section Recognition.
Variable E : Env.

(** Without placeholders the slow path is a walk along the prototype
    chain of the constructor. *)
Lemma loop_plain n r fuel hfuel s :
  placeholder_free E →
  ends_within E n r → n < fuel → n < hfuel →
  isComponentConstructor_loop E fuel (VObj r) s =
    (Ok (bool_decide (r = BaseLightningElement E)
         || has_in_chain E hfuel r (BaseLightningElement E)), s, []).
Proof.
  intros Hfree. revert r fuel hfuel.
  induction n as [|n IH]; intros r fuel hfuel Hend Hfuel Hh;
    (destruct fuel as [|fuel]; [lia|]); (destruct hfuel as [|hfuel]; [lia|]);
    cbn [isComponentConstructor_loop has_in_chain];
    unfold isCircularModuleDependency;
    rewrite (Hfree r), bool_decide_eq_false_2 by (intros [? ?]; discriminate);
    rewrite bind_ret; cbv beta iota;
    simpl in Hend;
    (destruct (decide (VObj r = VObj (BaseLightningElement E))) as [Heq|Hne];
     [injection Heq as ->; rewrite bool_decide_eq_true_2 by reflexivity; reflexivity|]);
    rewrite bool_decide_eq_false_2 by congruence;
    cbn [isNull getPrototypeOf orb];
    destruct (proto (object E r)) as [p|] eqn:Hp; try contradiction;
    rewrite bind_lift_ok; cbn [truthy]; try reflexivity.
  rewrite (IH p fuel hfuel Hend ltac:(lia) ltac:(lia)).
  destruct (decide (p = BaseLightningElement E)) as [->|Hne'].
  - rewrite bool_decide_eq_true_2 by reflexivity. reflexivity.
  - rewrite bool_decide_eq_false_2 by assumption. reflexivity.
Qed.

Lemma isComponentConstructor_plain fuel v s :
  placeholder_free E → acyclic E → base_ok E →
  chain_fuel E ≤ fuel →
  isComponentConstructor E fuel v s =
    (Ok (isFunction E v && (prototype_extends_base E v || descends_from_base E v)), s, []).
Proof.
  intros Hfree Hacyclic Hbase Hfuel. unfold isComponentConstructor.
  destruct (isFunction E v) eqn:Hf; [|reflexivity]. cbn [negb andb].
  destruct (isFunction_obj _ _ Hf) as [r ->].
  unfold prototype_extends_base.
  change (Get E (VObj r) "prototype") with (Ok (lookup_chain E (chain_fuel E) r "prototype")).
  rewrite bind_lift_ok. cbn [rbind].
  destruct (instanceof_base_ok E (lookup_chain E (chain_fuel E) r "prototype") Hbase)
    as [b ->].
  rewrite bind_lift_ok. destruct b; [reflexivity|]. cbn [orb].
  unfold descends_from_base.
  apply loop_plain with (n := size (heap E)); try assumption.
  - by apply acyclic_ends.
  - unfold chain_fuel in *. lia.
Qed.

Lemma isComponentConstructor_effects fuel ctor s r s' t :
  isComponentConstructor E fuel ctor s = (r, s', t) →
  s' = s ∧ only_resolutions t ∧ ∀ s2, isComponentConstructor E fuel ctor s2 = (r, s2, t).
Proof.
  intros H.
  destruct (pure_run _ _ _ _ _ (pure_isComponentConstructor E _ _) H) as [-> Hall].
  split; [reflexivity|]. split; [|assumption].
  eapply isComponentConstructor_only; eassumption.
Qed.

(** The slow path at a class whose superclass is a placeholder that
    resolves to [null] or to [undefined]. *)
Lemma loop_through_placeholder fuel r p v s :
  circular (object E r) = None →
  r ≠ BaseLightningElement E →
  proto (object E r) = Some p →
  circular (object E p) = Some v →
  v = VNull ∨ v = VUndefined →
  isComponentConstructor_loop E (S (S fuel)) (VObj r) s =
    (if isNull v then Ok false else Throw (TypeError (Native "Object.getPrototypeOf")),
     s, [EvResolveCircular (VObj p)]).
Proof.
  intros Hc Hne Hp Hcp Hv.
  cbn [isComponentConstructor_loop]. unfold isCircularModuleDependency.
  rewrite Hc, bool_decide_eq_false_2 by (intros [? ?]; discriminate).
  rewrite bind_ret. cbv beta iota.
  rewrite decide_False by congruence. cbn [isNull getPrototypeOf].
  rewrite Hp, bind_lift_ok. cbn [truthy].
  rewrite Hcp, bool_decide_eq_true_2 by eauto.
  unfold bind at 1. unfold bind at 1.
  rewrite (resolve_run E p v s Hcp).
  destruct Hv as [-> | ->]; reflexivity.
Qed.

Lemma getComponentDef_recognition_fails fuel Ctor n s f t :
  cached s Ctor = None →
  isComponentConstructor E (S fuel) Ctor s = (Fail f, s, t) →
  getComponentDef E (S fuel) Ctor n s = (Fail f, s, t).
Proof.
  intros Hc Hrec. cbn [getComponentDef].
  erewrite bind_ok by apply CtorToDefMap_get_run. rewrite Hc.
  erewrite bind_fail by exact Hrec. reflexivity.
Qed.
End Recognition.

(** ** Failures *)

Section Failures.
Variable E : Env.

Lemma createComponentDef_check_fails rec Ctor meta n s f :
  dev_check E Ctor = Fail f →
  createComponentDef E rec Ctor meta n s = (Fail f, s, []).
Proof.
  intros Hdev. rewrite createComponentDef_stages. rewrite Hdev. reflexivity.
Qed.

Lemma createComponentDef_read_fails rec Ctor meta n s f :
  dev_check E Ctor = Ok tt →
  read_members E Ctor = Fail f →
  createComponentDef E rec Ctor meta n s = (Fail f, s, [EvDecoratorsMeta Ctor]).
Proof.
  intros Hdev Hm. rewrite createComponentDef_stages.
  rewrite Hdev, bind_lift_ok, bind_emit, Hm. reflexivity.
Qed.

Lemma read_members_no_prototype Ctor v :
  Get E Ctor "prototype" = Ok v → v = VUndefined ∨ v = VNull →
  read_members E Ctor = Throw (TypeError (Native "property access")).
Proof.
  intros Hp Hv. unfold read_members. rewrite Hp. destruct Hv as [-> | ->]; reflexivity.
Qed.

Lemma getCtorProto_placeholder Ctor n s p v :
  getPrototypeOf E Ctor = Ok (VObj p) →
  circular (object E p) = Some v →
  v ≠ VObj p →
  getCtorProto E Ctor n s =
    (if negb (production E) && isNull v
     then Throw (ReferenceError (CircularModuleDependency n))
     else Ok v,
     s, [EvResolveCircular (VObj p)]).
Proof.
  intros Hp Hc Hne. unfold getCtorProto. rewrite Hp, bind_lift_ok. cbn [isNull].
  unfold isCircularModuleDependency. rewrite Hc.
  rewrite bool_decide_eq_true_2 by eauto.
  erewrite bind_ok by (apply resolve_run; exact Hc).
  destruct (production E); cbn [negb andb].
  - rewrite bind_ret, decide_False by assumption. reflexivity.
  - destruct (isNull v); [reflexivity|].
    rewrite bind_ret, decide_False by assumption. reflexivity.
Qed.

(** The errors of the parts. *)
Lemma Get_raised v key e : Get E v key = Throw e → raised E e.
Proof. intros H. apply Get_fail in H. injection H as ->. constructor. Qed.

Lemma resolve_raised v s e s' t :
  resolveCircularModuleDependency E v s = (Throw e, s', t) → raised E e.
Proof.
  unfold resolveCircularModuleDependency, throw. intros H. inv_run; constructor.
Qed.

Lemma getPrototypeOf_raised v e : getPrototypeOf E v = Throw e → raised E e.
Proof.
  destruct v as [| | |r]; simpl; try (intros [= <-]; constructor); try discriminate.
  destruct (proto (object E r)); discriminate.
Qed.

Lemma instanceof_raised O C e : instanceof E O C = Throw e → raised E e.
Proof.
  unfold instanceof. destruct (callable (object E C)); cbn [negb];
    [|intros [= <-]; constructor].
  destruct O as [| | |o]; try discriminate.
  change (Get E (VObj C) "prototype") with (Ok (lookup_chain E (chain_fuel E) C "prototype")).
  cbn [rbind]. destruct (lookup_chain E (chain_fuel E) C "prototype");
    try discriminate; intros [= <-]; constructor.
Qed.

Lemma loop_raised fuel current s e s' t :
  isComponentConstructor_loop E fuel current s = (Throw e, s', t) → raised E e.
Proof.
  revert current s s' t. induction fuel as [|fuel IH]; intros current s s' t H;
    cbn [isComponentConstructor_loop] in H; inv_run.
  all: try (eapply resolve_raised; eassumption).
  all: try (eapply IH; eassumption).
  all: try (eapply getPrototypeOf_raised; symmetry; eassumption).
Qed.

Lemma isComponentConstructor_raised fuel ctor s e s' t :
  isComponentConstructor E fuel ctor s = (Throw e, s', t) → raised E e.
Proof.
  unfold isComponentConstructor. intros H. inv_run.
  all: try (eapply loop_raised; eassumption).
  all: try (eapply Get_raised; symmetry; eassumption).
  all: try (eapply instanceof_raised; symmetry; eassumption).
Qed.

Lemma getCtorProto_raised Ctor n s e s' t :
  getCtorProto E Ctor n s = (Throw e, s', t) → raised E e.
Proof.
  unfold getCtorProto, throw. intros H. inv_run.
  all: try (eapply resolve_raised; eassumption).
  all: try (eapply getPrototypeOf_raised; symmetry; eassumption).
  all: try (constructor; fail).
  all: constructor; destruct (production E); [discriminate|reflexivity].
Qed.

Lemma dev_check_raised Ctor e : dev_check E Ctor = Throw e → raised E e.
Proof.
  unfold dev_check. destruct (production E) eqn:Hprod; cbn [negb]; [discriminate|].
  destruct (Get E Ctor "name") as [nm|f] eqn:H1; cbn [rbind].
  2: { intros [= ->]. eapply Get_raised; eassumption. }
  destruct (Get E Ctor "constructor") as [c|f] eqn:H2; cbn [rbind].
  2: { intros [= ->]. eapply Get_raised; eassumption. }
  destruct (truthy c); [discriminate|]. intros [= <-]. by constructor.
Qed.

Lemma read_members_raised Ctor e : read_members E Ctor = Throw e → raised E e.
Proof.
  unfold read_members.
  repeat match goal with
  | |- rbind ?g _ = _ → _ =>
      let H := fresh "H" in
      destruct g eqn:H; cbn [rbind];
      [|intros [= ->]; eapply Get_raised; eassumption]
  end.
  discriminate.
Qed.

Lemma finish_raised Ctor meta m superDef s e s' t :
  finish E Ctor meta m superDef s = (Throw e, s', t) → raised E e.
Proof.
  intros H. unfold finish, new_object in H.
  unfold createObservedFieldsDescriptorMap, defineProperties, freeze in H.
  destruct (production E); cbn [negb] in H;
    destruct (fields (m_decorators m)) as [[|f fs]|];
    destruct (m_proto m) as [| | |p];
    destruct (Get E Ctor "prototype") as [[| | |q]|[]] eqn:Hg;
    cbv [bind ret lift] in H; try case_decide; simplify_eq.
  all: try (constructor; fail).
  all: eapply Get_raised; eassumption.
Qed.

Lemma createComponentDef_raised rec Ctor meta n s e s' t :
  (∀ sp nm s0 e0 s1 t1, rec sp nm s0 = (Throw e0, s1, t1) → raised E e0) →
  createComponentDef E rec Ctor meta n s = (Throw e, s', t) →
  raised E e.
Proof.
  intros Hrec. rewrite createComponentDef_stages.
  remember (Throw e) as r eqn:Hr. intros H.
  apply bind_inv in H as [(u & s0 & t0 & t1 & Hdev & H & ->)|(f & Hdev & ->)];
    apply lift_inv in Hdev as (Hdev & -> & ->).
  2: { injection Hr as ->. eapply dev_check_raised. symmetry. eassumption. }
  apply bind_inv in H as [(u' & s0 & t0 & t2 & Hev & H & ->)|(f & Hev & ->)];
    apply emit_inv in Hev as (Hev & -> & ->); [|discriminate].
  apply bind_inv in H as [(m & s0 & t0 & t3 & Hm & H & ->)|(f & Hm & ->)];
    apply lift_inv in Hm as (Hm & -> & ->).
  2: { injection Hr as ->. eapply read_members_raised. symmetry. eassumption. }
  apply bind_inv in H as [(superProto & s0 & t0 & t4 & Hsp & H & ->)|(f & Hsp & ->)].
  2: { injection Hr as ->. eapply getCtorProto_raised; eassumption. }
  apply bind_inv in H as [(superDef & s1 & t1 & t5 & Hsd & H & ->)|(f & Hsd & ->)].
  - subst r. eapply finish_raised; eassumption.
  - injection Hr as ->. unfold super_def in Hsd. case_decide.
    + eapply Hrec; eassumption.
    + discriminate.
Qed.

Lemma getComponentDef_raised fuel Ctor n s e s' t :
  getComponentDef E fuel Ctor n s = (Throw e, s', t) → raised E e.
Proof.
  revert Ctor n s e s' t. induction fuel as [|fuel IH]; intros Ctor n s e s' t H;
    [discriminate|].
  apply getComponentDef_inv in H
    as [(d0 & _ & ? & _)|(_ & [(f & Hrec & ? & _)|[(_ & ? & _)|H]])];
    try discriminate.
  - simplify_eq. eapply isComponentConstructor_raised; eassumption.
  - simplify_eq. constructor.
  - destruct H as (c0 & t0 & meta & name & r1 & s1 & t1 & -> & _ & _ & _ & Hcreate & _ & H).
    destruct r1 as [d1|f]; [destruct H; discriminate|].
    destruct H as [[= <-] _].
    eapply createComponentDef_raised; [|eassumption]. intros. eapply IH; eassumption.
Qed.
End Failures.

(** ** The properties *)

Lemma reachable_init E : reachable E init_state.
Proof. exists [], []. reflexivity. Qed.

Lemma reachable_run_calls E calls : reachable E (run_calls E calls init_state).1.
Proof. exists calls, (run_calls E calls init_state).2. apply surjective_pairing. Qed.

(** X1. The definition [getComponentDef] returns for a class lists as
    public fields the own property names of [HTMLElementOriginalDescriptors]
    followed by the own public fields of every class of the lineage, root
    first; as wire list the own wired fields and wired methods of every
    class of the lineage, root first; and its bridge is built class by class
    over [BaseBridgeElement], with the own public fields and methods of each
    class. *)
Theorem X1_lineage_lists E fuel Ctor n s d s' t :
  reachable E s →
  getComponentDef E fuel Ctor n s = (Ok d, s', t) →
  ∃ l, lineage E Ctor l ∧
       def_props d = HTMLElementOriginalDescriptors E ++ concat (own_props E <$> reverse l) ∧
       def_wire d = concat (own_wire E <$> reverse l) ∧
       def_bridge d = bridge_of E l.
Proof.
  intros Hr H.
  destruct (definition_closed_form _ _ _ (returned_definition _ _ _ _ _ _ _ _ Hr H))
    as (l & Hl & _ & _ & Hp & Hw & Hb & _).
  exists l. auto.
Qed.

Lemma X1_lineage_lists_witness :
  ∃ d s' t,
    getComponentDef (abc_env false ["title"]) 4 (VObj 11) VUndefined init_state = (Ok d, s', t) ∧
    ∃ l, lineage (abc_env false ["title"]) (VObj 11) l ∧
         def_props d =
           HTMLElementOriginalDescriptors (abc_env false ["title"])
             ++ concat (own_props (abc_env false ["title"]) <$> reverse l) ∧
         def_wire d = concat (own_wire (abc_env false ["title"]) <$> reverse l) ∧
         def_bridge d = bridge_of (abc_env false ["title"]) l.
Proof.
  do 3 eexists. split; [vm_compute; reflexivity|].
  eapply (X1_lineage_lists (abc_env false ["title"]) 4 (VObj 11) VUndefined init_state).
  - apply reachable_init.
  - vm_compute; reflexivity.
Defined.

(** X2. In the definition returned for a class, each lifecycle callback
    is the first present (truthy) value among the members of that name read
    from the prototypes of the classes of the lineage, the class itself
    first, and [undefined] when there is none; [render] is found the same
    way and is the [render] of the base class when no class has one, so it
    is present whenever the base class has a [render]; the template is the
    first present registered template of the lineage and the default empty
    template when there is none. *)
Theorem X2_nearest_member E fuel Ctor n s d s' t :
  reachable E s →
  getComponentDef E fuel Ctor n s = (Ok d, s', t) →
  ∃ l, lineage E Ctor l ∧
       def_connectedCallback d = first_truthy (member E "connectedCallback" <$> l) VUndefined ∧
       def_disconnectedCallback d =
         first_truthy (member E "disconnectedCallback" <$> l) VUndefined ∧
       def_renderedCallback d = first_truthy (member E "renderedCallback" <$> l) VUndefined ∧
       def_errorCallback d = first_truthy (member E "errorCallback" <$> l) VUndefined ∧
       def_render d =
         first_truthy (member E "render" <$> l) (def_render (lightingElementDef E)) ∧
       def_template d =
         first_truthy (registered_template E <$> l) (VObj (defaultEmptyTemplate E)) ∧
       (truthy (def_render (lightingElementDef E)) = true → truthy (def_render d) = true).
Proof.
  intros Hr H.
  destruct (definition_closed_form _ _ _ (returned_definition _ _ _ _ _ _ _ _ Hr H))
    as (l & Hl & _ & _ & _ & _ & _ & Hcc & Hdc & Hrc & Hec & Hrd & Htp).
  exists l. repeat (split; [assumption|]).
  intros Hbase. rewrite Hrd. by apply first_truthy_truthy.
Qed.

Lemma X2_nearest_member_witness :
  ∃ d s' t,
    getComponentDef (leaf_env []) 3 (VObj 9) VUndefined init_state = (Ok d, s', t) ∧
    ∃ l, lineage (leaf_env []) (VObj 9) l ∧
         def_connectedCallback d =
           first_truthy (member (leaf_env []) "connectedCallback" <$> l) VUndefined ∧
         def_disconnectedCallback d =
           first_truthy (member (leaf_env []) "disconnectedCallback" <$> l) VUndefined ∧
         def_renderedCallback d =
           first_truthy (member (leaf_env []) "renderedCallback" <$> l) VUndefined ∧
         def_errorCallback d =
           first_truthy (member (leaf_env []) "errorCallback" <$> l) VUndefined ∧
         def_render d =
           first_truthy (member (leaf_env []) "render" <$> l)
             (def_render (lightingElementDef (leaf_env []))) ∧
         def_template d =
           first_truthy (registered_template (leaf_env []) <$> l)
             (VObj (defaultEmptyTemplate (leaf_env []))) ∧
         (truthy (def_render (lightingElementDef (leaf_env []))) = true →
          truthy (def_render d) = true).
Proof.
  do 3 eexists. split; [vm_compute; reflexivity|].
  eapply (X2_nearest_member (leaf_env []) 3 (VObj 9) VUndefined init_state).
  - apply reachable_init.
  - vm_compute; reflexivity.
Defined.

(** X3. The definition returned for a class names that class: its [ctor]
    is the class, and its [name] is the registered name of the class, or
    [Ctor.name] for a class that is not registered, whatever display name
    the call was given. Hence [getComponentConstructor] gives back the class
    for an element whose view-model holds that definition; it gives [null]
    for an element without a view-model and for everything that is no
    instance of [HTMLElement], a value that is not an object included. *)
Theorem X3_definition_names_class E HTMLElement getHiddenField :
  (∀ fuel Ctor n s d s' t,
     reachable E s →
     getComponentDef E fuel Ctor n s = (Ok d, s', t) →
     def_ctor d = Ctor ∧
     registered_name E Ctor = Ok (def_name d) ∧
     ∀ elm vm,
       instanceof E elm HTMLElement = Ok true →
       getHiddenField elm = Some vm →
       vm_def vm = d →
       getComponentConstructor E HTMLElement getHiddenField elm = Ok Ctor)
  ∧
  (∀ elm,
     instanceof E elm HTMLElement = Ok false
     ∨ instanceof E elm HTMLElement = Ok true ∧ getHiddenField elm = None →
     getComponentConstructor E HTMLElement getHiddenField elm = Ok VNull)
  ∧
  (∀ elm,
     callable (object E HTMLElement) = true →
     (∀ r, elm ≠ VObj r) →
     getComponentConstructor E HTMLElement getHiddenField elm = Ok VNull).
Proof.
  split; [|split].
  - intros fuel Ctor n s d s' t Hr H.
    destruct (definition_closed_form _ _ _ (returned_definition _ _ _ _ _ _ _ _ Hr H))
      as (l & _ & Hctor & Hname & _).
    split; [assumption|]. split; [assumption|].
    intros elm vm Hinst Hvm Hdef. unfold getComponentConstructor.
    rewrite Hinst. cbn [rbind]. rewrite Hvm, Hdef, Hctor. reflexivity.
  - intros elm [Hinst|[Hinst Hvm]]; unfold getComponentConstructor; rewrite Hinst; cbn [rbind].
    + reflexivity.
    + rewrite Hvm. reflexivity.
  - intros elm Hcallable Hno. unfold getComponentConstructor, instanceof.
    rewrite Hcallable. cbn [negb].
    destruct elm as [| | |r]; try reflexivity. exfalso. by apply (Hno r).
Qed.

(** The element 37 carries the view-model of a component of class [C]. *)
Lemma X3_definition_names_class_witness :
  ∃ d s' t,
    getComponentDef (edge_env false) 4 (VObj 11) (str "x-c") init_state = (Ok d, s', t) ∧
    def_ctor d = VObj 11 ∧
    registered_name (edge_env false) (VObj 11) = Ok (def_name d) ∧
    getComponentConstructor (edge_env false) 35
      (fun elm => if decide (elm = VObj 37) then Some {| vm_def := d |} else None)
      (VObj 37) = Ok (VObj 11) ∧
    getComponentConstructor (edge_env false) 35
      (fun elm => if decide (elm = VObj 37) then Some {| vm_def := d |} else None)
      (VObj 19) = Ok VNull ∧
    getComponentConstructor (edge_env false) 35
      (fun elm => if decide (elm = VObj 37) then Some {| vm_def := d |} else None)
      (str "div") = Ok VNull.
Proof.
  do 3 eexists. split; [vm_compute; reflexivity|].
  match goal with
  | |- _ ∧ _ ∧ getComponentConstructor ?E ?H ?g _ = _ ∧ _ =>
      pose proof (X3_definition_names_class E H g) as (Hdef & Hnone & Hprim)
  end.
  edestruct (Hdef 4 (VObj 11) (str "x-c") init_state) as (Hctor & Hname & Hget).
  { apply reachable_init. }
  { vm_compute; reflexivity. }
  split; [exact Hctor|]. split; [exact Hname|]. split; [|split].
  - eapply Hget with (vm := {| vm_def := _ |});
      [vm_compute; reflexivity|rewrite decide_True by reflexivity; reflexivity|reflexivity].
  - apply Hnone. left. vm_compute; reflexivity.
  - apply Hprim; [vm_compute; reflexivity|]. intros r. discriminate.
Defined.

(** X4. In a development build every class that has a cached definition
    has a frozen prototype: a prototype is frozen when the definition is
    built and nothing ever unfreezes it. *)
Theorem X4_prototypes_frozen E s c d p :
  production E = false →
  reachable E s →
  CtorToDefMap s !! c = Some d →
  Get E (VObj c) "prototype" = Ok (VObj p) →
  p ∈ frozen s.
Proof.
  intros Hdev Hr Hc Hp. eapply reachable_prototypes_frozen; eassumption.
Qed.

(** After [C] has been resolved, [A] has a definition and its prototype
    (object 8) is frozen. *)
Lemma X4_prototypes_frozen_witness :
  ∃ s d,
    reachable (abc_env false []) s ∧
    CtorToDefMap s !! 7 = Some d ∧
    8 ∈ frozen s.
Proof.
  do 2 eexists.
  pose proof (reachable_run_calls (abc_env false []) [(4, VObj 11, VUndefined)]) as Hr.
  split; [exact Hr|].
  split; [vm_compute; reflexivity|].
  eapply (X4_prototypes_frozen (abc_env false []) _ 7 _ 8); [reflexivity|exact Hr| |].
  - vm_compute; reflexivity.
  - vm_compute; reflexivity.
Defined.

(** X5. Whether a call of [getComponentDef] returns, throws or does not
    come back, it takes nothing away: every cache entry is still there and
    unchanged, every frozen object is still frozen, and the observed-field
    descriptors installed on an object are still there, new ones coming
    after them. *)
Theorem X5_state_grows E fuel Ctor n s r s' t :
  getComponentDef E fuel Ctor n s = (r, s', t) → grows s s'.
Proof. apply getComponentDef_grows. Qed.

(** The call for [B] in a program where [B] declares an observed field and
    has a frozen prototype throws, after [A] has been cached. *)
Lemma X5_state_grows_witness :
  ∃ r s' t,
    getComponentDef (field_env false) 3 (VObj 9) VUndefined frozen_state = (r, s', t) ∧
    grows frozen_state s'.
Proof.
  do 3 eexists. split; [vm_compute; reflexivity|].
  eapply (X5_state_grows (field_env false) 3 (VObj 9) VUndefined frozen_state).
  vm_compute; reflexivity.
Defined.

(** X6. The classes that get a cache entry during a call are among those
    whose decorator metadata the call looks up, and it looks up the metadata
    of no class that has an entry already; when the call returns, every
    class whose metadata it has looked up has an entry. *)
Theorem X6_entries_and_lookups E fuel Ctor n s r s' t :
  getComponentDef E fuel Ctor n s = (r, s', t) →
  (∀ X, cached s X = None → is_Some (cached s' X) → X ∈ decorator_lookups t) ∧
  (∀ X, X ∈ decorator_lookups t → cached s X = None) ∧
  (∀ d, r = Ok d → ∀ X, X ∈ decorator_lookups t → is_Some (cached s' X)).
Proof.
  intros H. split; [|split].
  - intros X. eapply new_entry_lookup; eassumption.
  - intros X. eapply lookups_uncached; eassumption.
  - intros d -> X. eapply ok_lookups_cached; eassumption.
Qed.

Lemma X6_entries_and_lookups_witness :
  ∃ r s' t,
    getComponentDef (abc_env false []) 4 (VObj 11) VUndefined init_state = (r, s', t) ∧
    (∀ X, cached init_state X = None → is_Some (cached s' X) → X ∈ decorator_lookups t) ∧
    (∀ X, X ∈ decorator_lookups t → cached init_state X = None) ∧
    (∀ d, r = Ok d → ∀ X, X ∈ decorator_lookups t → is_Some (cached s' X)).
Proof.
  do 3 eexists. split; [vm_compute; reflexivity|].
  eapply (X6_entries_and_lookups (abc_env false []) 4 (VObj 11) VUndefined init_state).
  vm_compute; reflexivity.
Defined.

(** X7. A call that returns has walked up the lineage of the class until
    it met a class with a cache entry: its metadata lookups are, class by
    class from the class itself upwards, the registered metadata and then
    the decorator metadata of the classes before that one, none of which had
    an entry; afterwards every class of the lineage has an entry. *)
Theorem X7_lookup_order E fuel Ctor n s d s' t :
  reachable E s →
  getComponentDef E fuel Ctor n s = (Ok d, s', t) →
  ∃ l k,
    lineage E Ctor l ∧ k ≤ length l ∧
    metadata_events t = metadata_lookups_of (take k l) ∧
    (∀ c, c ∈ take k l → cached s c = None) ∧
    (∀ c, l !! k = Some c → is_Some (cached s c)) ∧
    (∀ c, c ∈ l → is_Some (cached s' c)).
Proof.
  intros Hr H.
  destruct (definition_closed_form _ _ _ (returned_definition _ _ _ _ _ _ _ _ Hr H))
    as (l & Hl & _).
  destruct (lookups_along _ _ _ _ _ _ _ _ _ H Hl) as (k & Hk & Hev & Hun & Hnext).
  exists l, k. repeat (split; [assumption|]).
  destruct (reachable_invariants _ _ (reachable_step _ _ _ _ _ _ _ _ Hr H)) as [Hok _].
  eapply lineage_cached; [exact Hok| |exact Hl].
  eapply getComponentDef_Ok_cached; eassumption.
Qed.

(** The call for [C] after [A] has been resolved. *)
Lemma X7_lookup_order_witness :
  ∃ s d s' t,
    reachable (abc_env false []) s ∧
    getComponentDef (abc_env false []) 4 (VObj 11) VUndefined s = (Ok d, s', t) ∧
    ∃ l k,
      lineage (abc_env false []) (VObj 11) l ∧ k ≤ length l ∧
      metadata_events t = metadata_lookups_of (take k l) ∧
      (∀ c, c ∈ take k l → cached s c = None) ∧
      (∀ c, l !! k = Some c → is_Some (cached s c)) ∧
      (∀ c, c ∈ l → is_Some (cached s' c)).
Proof.
  do 4 eexists.
  pose proof (reachable_run_calls (abc_env false []) [(2, VObj 7, VUndefined)]) as Hr.
  split; [exact Hr|]. split; [vm_compute; reflexivity|].
  eapply (X7_lookup_order (abc_env false []) 4 (VObj 11) VUndefined); [exact Hr|].
  vm_compute; reflexivity.
Defined.

(** X8. [isComponentConstructor] reads and writes nothing of the module's
    state: it leaves the cache and the prototypes as they are, gives the
    same answer in every state, and its only calls to collaborators are
    resolutions of placeholders. *)
Theorem X8_recognition_is_pure E fuel ctor s r s' t :
  isComponentConstructor E fuel ctor s = (r, s', t) →
  s' = s ∧ only_resolutions t ∧
  ∀ s2, isComponentConstructor E fuel ctor s2 = (r, s2, t).
Proof. apply isComponentConstructor_effects. Qed.

Lemma X8_recognition_is_pure_witness :
  ∃ r s' t,
    isComponentConstructor (abc_env false []) 3 (VObj 15) frozen_state = (r, s', t) ∧
    s' = frozen_state ∧ only_resolutions t ∧
    ∀ s2, isComponentConstructor (abc_env false []) 3 (VObj 15) s2 = (r, s2, t).
Proof.
  do 3 eexists. split; [vm_compute; reflexivity|].
  eapply (X8_recognition_is_pure (abc_env false []) 3 (VObj 15) frozen_state).
  vm_compute; reflexivity.
Defined.

Lemma plain_env_placeholder_free : placeholder_free plain_env.
Proof.
  intros r. unfold object. rewrite lookup_total_alt.
  destruct (heap plain_env !! r) as [o|] eqn:Hr; [|reflexivity].
  revert r o Hr. change (map_Forall (fun _ o => circular o = None) (heap plain_env)).
  apply (bool_decide_unpack _). vm_compute. exact I.
Qed.

Lemma ends_within_absent E n r : heap E !! r = None → ends_within E n r.
Proof.
  intros Hr. destruct n; cbn [ends_within]; unfold object;
    rewrite lookup_total_alt, Hr; exact I.
Qed.

Lemma plain_env_acyclic : acyclic plain_env.
Proof.
  intros r. exists 6.
  destruct (heap plain_env !! r) as [o|] eqn:Hr.
  - revert r o Hr.
    change (map_Forall (fun r _ => ends_within plain_env 6 r) (heap plain_env)).
    apply (bool_decide_unpack _). vm_compute. exact I.
  - by apply ends_within_absent.
Qed.

Lemma plain_env_base_ok : base_ok plain_env.
Proof. split; [vm_compute; reflexivity|]. exists 4. vm_compute; reflexivity. Qed.

(** X9. In a program without circular-module placeholders
    [isComponentConstructor] always returns, without a call to a
    collaborator, and decides descent from the base class: it is true
    exactly for a function whose [prototype] is an instance of the base
    class, or which is the base class itself, or which has the base class on
    its own prototype chain. *)
Theorem X9_recognition_decides E fuel v s :
  placeholder_free E → acyclic E → base_ok E →
  chain_fuel E ≤ fuel →
  isComponentConstructor E fuel v s =
    (Ok (isFunction E v && (prototype_extends_base E v || descends_from_base E v)), s, []).
Proof. intros. by apply isComponentConstructor_plain. Qed.

(** The class [C], the base class itself, and a function that has nothing
    to do with the framework. *)
Lemma X9_recognition_decides_witness :
  isComponentConstructor plain_env (chain_fuel plain_env) (VObj 11) init_state =
    (Ok true, init_state, []) ∧
  isComponentConstructor plain_env (chain_fuel plain_env) (VObj 3) init_state =
    (Ok true, init_state, []) ∧
  isComponentConstructor plain_env (chain_fuel plain_env) (VObj 20) init_state =
    (Ok false, init_state, []).
Proof.
  pose proof (fun v =>
    X9_recognition_decides plain_env (chain_fuel plain_env) v init_state
      plain_env_placeholder_free plain_env_acyclic plain_env_base_ok (le_n _)) as H.
  split; [|split].
  - rewrite (H (VObj 11)). vm_compute; reflexivity.
  - rewrite (H (VObj 3)). vm_compute; reflexivity.
  - rewrite (H (VObj 20)). vm_compute; reflexivity.
Defined.

(** X10. Let the superclass of a function be a circular-module
    placeholder, and let the fast path not recognize the function. When the
    placeholder resolves to [null], [isComponentConstructor] returns false
    after that one resolution. When it resolves to [undefined],
    [isComponentConstructor] does not return false: it throws the TypeError
    of [getPrototypeOf(undefined)], and so does [getComponentDef], which has
    then looked up no metadata and leaves the state as it was. *)
Theorem X10_unresolved_superclass E :
  (∀ fuel r p pr s,
     isFunction E (VObj r) = true →
     circular (object E r) = None →
     r ≠ BaseLightningElement E →
     proto (object E r) = Some p →
     circular (object E p) = Some VNull →
     Get E (VObj r) "prototype" = Ok pr →
     instanceof E pr (BaseLightningElement E) = Ok false →
     isComponentConstructor E (S (S fuel)) (VObj r) s =
       (Ok false, s, [EvResolveCircular (VObj p)]))
  ∧
  (∀ fuel r p pr n s,
     isFunction E (VObj r) = true →
     circular (object E r) = None →
     r ≠ BaseLightningElement E →
     proto (object E r) = Some p →
     circular (object E p) = Some VUndefined →
     Get E (VObj r) "prototype" = Ok pr →
     instanceof E pr (BaseLightningElement E) = Ok false →
     cached s (VObj r) = None →
     isComponentConstructor E (S (S fuel)) (VObj r) s =
       (Throw (TypeError (Native "Object.getPrototypeOf")), s, [EvResolveCircular (VObj p)]) ∧
     getComponentDef E (S (S fuel)) (VObj r) n s =
       (Throw (TypeError (Native "Object.getPrototypeOf")), s, [EvResolveCircular (VObj p)])).
Proof.
  split.
  - intros fuel r p pr s Hf Hc Hne Hp Hcp Hpr Hinst.
    unfold isComponentConstructor. rewrite Hf, Hpr. cbn [negb].
    rewrite bind_lift_ok, Hinst, bind_lift_ok.
    rewrite (loop_through_placeholder E fuel r p VNull s) by auto. reflexivity.
  - intros fuel r p pr n s Hf Hc Hne Hp Hcp Hpr Hinst Hcached.
    assert (Hrec : isComponentConstructor E (S (S fuel)) (VObj r) s =
                     (Throw (TypeError (Native "Object.getPrototypeOf")), s,
                      [EvResolveCircular (VObj p)])).
    { unfold isComponentConstructor. rewrite Hf, Hpr. cbn [negb].
      rewrite bind_lift_ok, Hinst, bind_lift_ok.
      rewrite (loop_through_placeholder E fuel r p VUndefined s) by auto. reflexivity. }
    split; [exact Hrec|].
    by apply getComponentDef_recognition_fails.
Qed.

(** The classes [Q] and [R]. *)
Lemma X10_unresolved_superclass_witness :
  isComponentConstructor (edge_env true) 2 (VObj 26) init_state =
    (Ok false, init_state, [EvResolveCircular (VObj 22)]) ∧
  isComponentConstructor (edge_env true) 2 (VObj 28) init_state =
    (Throw (TypeError (Native "Object.getPrototypeOf")), init_state,
     [EvResolveCircular (VObj 23)]) ∧
  getComponentDef (edge_env true) 2 (VObj 28) VUndefined init_state =
    (Throw (TypeError (Native "Object.getPrototypeOf")), init_state,
     [EvResolveCircular (VObj 23)]).
Proof.
  pose proof (X10_unresolved_superclass (edge_env true)) as [Hnull Hundef].
  split.
  - apply (Hnull 0 26 22 (VObj 27) init_state); try (vm_compute; reflexivity).
    discriminate.
  - apply (Hundef 0 28 23 (VObj 29) VUndefined init_state); try (vm_compute; reflexivity).
    discriminate.
Defined.

(** X11. When the superclass of a class is a placeholder that resolves to
    something other than itself, [getCtorProto] returns what the resolver
    returned, with one exception: in a development build it throws the
    ReferenceError "Circular module dependency for ..." when the resolver
    returned [null]. So a class that the fast path recognizes and whose
    superclass resolves to [undefined], or to [null] in a production build,
    fails later and differently: [getComponentDef] throws the TypeError "...
    is not a valid component" that names [undefined] or [null], after it has
    looked up the metadata of the class, and leaves the state as it was. *)
Theorem X11_null_superclass E :
  (∀ Ctor n s p v,
     getPrototypeOf E Ctor = Ok (VObj p) →
     circular (object E p) = Some v →
     v ≠ VObj p →
     getCtorProto E Ctor n s =
       (if negb (production E) && isNull v
        then Throw (ReferenceError (CircularModuleDependency n))
        else Ok v,
        s, [EvResolveCircular (VObj p)]))
  ∧
  (∀ fuel Ctor n s t0 name m p v,
     cached s Ctor = None →
     isComponentConstructor E (S (S fuel)) Ctor s = (Ok true, s, t0) →
     display_name E n Ctor = Ok name →
     dev_check E Ctor = Ok tt →
     read_members E Ctor = Ok m →
     getPrototypeOf E Ctor = Ok (VObj p) →
     circular (object E p) = Some v →
     v = VUndefined ∨ v = VNull ∧ production E = true →
     getComponentDef E (S (S fuel)) Ctor n s =
       (Throw (TypeError (NotValidComponent v)), s,
        t0 ++ [EvRegisteredMeta Ctor; EvDecoratorsMeta Ctor; EvResolveCircular (VObj p)])).
Proof.
  split.
  - intros. by apply getCtorProto_placeholder.
  - intros fuel Ctor n s t0 name m p v Hc Hrec Hname Hdev Hm Hp Hcp Hv.
    assert (Hsp : getCtorProto E Ctor name s = (Ok v, s, [EvResolveCircular (VObj p)])).
    { rewrite (getCtorProto_placeholder E Ctor name s p v Hp Hcp)
        by (destruct Hv as [->|[-> _]]; discriminate).
      destruct Hv as [->|[-> ->]]; [|reflexivity].
      destruct (production E); reflexivity. }
    assert (Hsuper : getComponentDef E (S fuel) v name s =
                       (Throw (TypeError (NotValidComponent v)), s, [])).
    { cbn [getComponentDef].
      erewrite bind_ok by apply CtorToDefMap_get_run.
      assert (cached s v = None) as -> by (destruct Hv as [->|[-> _]]; reflexivity).
      erewrite bind_ok by (apply isComponentConstructor_not_function;
                           destruct Hv as [->|[-> _]]; reflexivity).
      reflexivity. }
    assert (Hcreate : ∀ meta,
              createComponentDef E (getComponentDef E (S fuel)) Ctor meta name s =
                (Throw (TypeError (NotValidComponent v)), s,
                 EvDecoratorsMeta Ctor :: [EvResolveCircular (VObj p)] ++ [])).
    { intros meta. eapply createComponentDef_rec_fails; try eassumption.
      destruct Hv as [->|[-> _]]; discriminate. }
    rewrite (getComponentDef_create_fails E _ _ n _ _ _ _ _ _ Hc Hrec Hname Hcreate).
    reflexivity.
Qed.

(** The classes [P] and [U]. *)
Lemma X11_null_superclass_witness :
  getCtorProto (edge_env false) (VObj 24) (str "P") init_state =
    (Throw (ReferenceError (CircularModuleDependency (str "P"))), init_state,
     [EvResolveCircular (VObj 22)]) ∧
  getCtorProto (edge_env true) (VObj 24) (str "P") init_state =
    (Ok VNull, init_state, [EvResolveCircular (VObj 22)]) ∧
  getComponentDef (edge_env true) 2 (VObj 24) VUndefined init_state =
    (Throw (TypeError (NotValidComponent VNull)), init_state,
     [EvRegisteredMeta (VObj 24); EvDecoratorsMeta (VObj 24); EvResolveCircular (VObj 22)]) ∧
  getComponentDef (edge_env false) 2 (VObj 30) VUndefined init_state =
    (Throw (TypeError (NotValidComponent VUndefined)), init_state,
     [EvRegisteredMeta (VObj 30); EvDecoratorsMeta (VObj 30); EvResolveCircular (VObj 23)]).
Proof.
  pose proof (X11_null_superclass (edge_env false)) as [Hdev Hdev'].
  pose proof (X11_null_superclass (edge_env true)) as [Hprod Hprod'].
  split; [|split; [|split]].
  - apply (Hdev (VObj 24) (str "P") init_state 22 VNull); try (vm_compute; reflexivity).
    discriminate.
  - apply (Hprod (VObj 24) (str "P") init_state 22 VNull); try (vm_compute; reflexivity).
    discriminate.
  - refine (Hprod' 0 (VObj 24) VUndefined init_state [] (str "P") _ 22 VNull _ _ _ _ _ _ _ _);
      try (vm_compute; reflexivity).
    right. split; reflexivity.
  - refine (Hdev' 0 (VObj 30) VUndefined init_state [] (str "U") _ 23 VUndefined _ _ _ _ _ _ _ _);
      try (vm_compute; reflexivity).
    left. reflexivity.
Defined.

(** X12. With collaborators that do not throw themselves, every error a
    call of [getComponentDef] throws is one of: the TypeError "... is not a
    valid component", the ReferenceError "Invalid prototype chain for ...",
    a TypeError of the language runtime, and, in a development build only,
    the ReferenceError "Circular module dependency for ..." and the
    assertion error "Missing ....constructor". In a production build it is
    therefore a TypeError or the invalid-prototype-chain ReferenceError. *)
Theorem X12_errors E fuel Ctor n s e s' t :
  getComponentDef E fuel Ctor n s = (Throw e, s', t) →
  raised E e ∧
  (production E = true →
   (∃ m, e = TypeError m) ∨ (∃ name, e = ReferenceError (InvalidPrototypeChain name))).
Proof.
  intros H. apply getComponentDef_raised in H. split; [assumption|].
  intros Hprod. destruct H; eauto; congruence.
Qed.

Lemma X12_errors_witness :
  ∃ e s' t,
    getComponentDef (field_env true) 3 (VObj 9) VUndefined frozen_state = (Throw e, s', t) ∧
    raised (field_env true) e ∧
    (production (field_env true) = true →
     (∃ m, e = TypeError m) ∨ (∃ name, e = ReferenceError (InvalidPrototypeChain name))).
Proof.
  do 3 eexists. split; [vm_compute; reflexivity|].
  eapply (X12_errors (field_env true) 3 (VObj 9) VUndefined frozen_state).
  vm_compute; reflexivity.
Defined.

Section Early.
Variable E : Env.

Lemma recognized_display_name fuel Ctor n s s' t :
  isComponentConstructor E fuel Ctor s = (Ok true, s', t) →
  ∃ name, display_name E n Ctor = Ok name.
Proof.
  intros H. apply isComponentConstructor_true, isFunction_obj in H as [c ->].
  unfold display_name. destruct (truthy n); eexists; reflexivity.
Qed.
End Early.

(** X13. Two failures that happen while [createComponentDef] still reads
    the class itself. In a development build, a recognized class whose
    [constructor] property is absent (falsy) makes [getComponentDef] throw
    the assertion error "Missing ....constructor" carrying [Ctor.name],
    before any decorator metadata is looked up. In either build, a
    recognized class whose [prototype] is [undefined] or [null] makes
    [getComponentDef] throw the TypeError of the property read, after the
    decorator metadata has been looked up. Both leave the state as it
    was. *)
Theorem X13_early_failures E :
  (∀ fuel Ctor n s t0 ctorName c,
     production E = false →
     cached s Ctor = None →
     isComponentConstructor E (S fuel) Ctor s = (Ok true, s, t0) →
     Get E Ctor "name" = Ok ctorName →
     Get E Ctor "constructor" = Ok c →
     truthy c = false →
     getComponentDef E (S fuel) Ctor n s =
       (Throw (AssertionError (MissingConstructor ctorName)), s,
        t0 ++ [EvRegisteredMeta Ctor]))
  ∧
  (∀ fuel Ctor n s t0 v,
     cached s Ctor = None →
     isComponentConstructor E (S fuel) Ctor s = (Ok true, s, t0) →
     dev_check E Ctor = Ok tt →
     Get E Ctor "prototype" = Ok v →
     v = VUndefined ∨ v = VNull →
     getComponentDef E (S fuel) Ctor n s =
       (Throw (TypeError (Native "property access")), s,
        t0 ++ [EvRegisteredMeta Ctor; EvDecoratorsMeta Ctor])).
Proof.
  split.
  - intros fuel Ctor n s t0 ctorName c Hdev Hc Hrec Hname Hctor Hfalsy.
    destruct (recognized_display_name E _ _ n _ _ _ Hrec) as [name Hdn].
    eapply getComponentDef_create_fails; try eassumption.
    intros meta. apply createComponentDef_check_fails.
    unfold dev_check. rewrite Hdev, Hname, Hctor. cbn [negb rbind]. rewrite Hfalsy. reflexivity.
  - intros fuel Ctor n s t0 v Hc Hrec Hdev Hp Hv.
    destruct (recognized_display_name E _ _ n _ _ _ Hrec) as [name Hdn].
    eapply getComponentDef_create_fails; try eassumption.
    intros meta. apply createComponentDef_read_fails; [assumption|].
    eapply read_members_no_prototype; eassumption.
Qed.

(** The classes [W] and [V]. *)
Lemma X13_early_failures_witness :
  getComponentDef (edge_env false) 1 (VObj 32) VUndefined init_state =
    (Throw (AssertionError (MissingConstructor (str "W"))), init_state,
     [EvRegisteredMeta (VObj 32)]) ∧
  getComponentDef (edge_env true) 2 (VObj 34) VUndefined init_state =
    (Throw (TypeError (Native "property access")), init_state,
     [EvRegisteredMeta (VObj 34); EvDecoratorsMeta (VObj 34)]).
Proof.
  pose proof (X13_early_failures (edge_env false)) as [Hassert _].
  pose proof (X13_early_failures (edge_env true)) as [_ Hread].
  split.
  - refine (Hassert 0 (VObj 32) VUndefined init_state [] (str "W") VUndefined _ _ _ _ _ _);
      vm_compute; reflexivity.
  - refine (Hread 1 (VObj 34) VUndefined init_state [] VUndefined _ _ _ _ _);
      [vm_compute; reflexivity..|].
    left. reflexivity.
Defined.

Section BaseClass.
Variable E : Env.

Lemma getCtorProto_plain Ctor n s p :
  getPrototypeOf E Ctor = Ok (VObj p) →
  circular (object E p) = None →
  getCtorProto E Ctor n s = (Ok (VObj p), s, []).
Proof.
  intros Hp Hc. unfold getCtorProto. rewrite Hp, bind_lift_ok. cbn [isNull].
  unfold isCircularModuleDependency. rewrite Hc.
  rewrite bool_decide_eq_false_2 by (intros [? ?]; discriminate). reflexivity.
Qed.

Lemma isComponentConstructor_base fuel s :
  base_ok E →
  circular (object E (BaseLightningElement E)) = None →
  isComponentConstructor E (S fuel) (VObj (BaseLightningElement E)) s = (Ok true, s, []).
Proof.
  intros Hbase Hc. unfold isComponentConstructor.
  destruct Hbase as [Hcallable Hproto]. cbn [isFunction]. rewrite Hcallable. cbn [negb].
  change (Get E (VObj (BaseLightningElement E)) "prototype")
    with (Ok (lookup_chain E (chain_fuel E) (BaseLightningElement E) "prototype")).
  rewrite bind_lift_ok.
  destruct (instanceof_base_ok E
              (lookup_chain E (chain_fuel E) (BaseLightningElement E) "prototype")
              (conj Hcallable Hproto)) as [b ->].
  rewrite bind_lift_ok. destruct b; [reflexivity|].
  cbn [isComponentConstructor_loop]. unfold isCircularModuleDependency.
  rewrite Hc, bool_decide_eq_false_2 by (intros [? ?]; discriminate).
  rewrite bind_ret. cbv beta iota. rewrite decide_True by reflexivity. reflexivity.
Qed.
End BaseClass.

(** X14. The base class is itself recognized by
    [isComponentConstructor], but [getComponentDef] has no definition for
    it: it does not return [lightingElementDef] but goes on to the
    prototype link of the base class as if to a superclass, and when that is
    not a component (it is [Function.prototype] for a base class that is a
    plain function) it throws the TypeError "... is not a valid component"
    that names this prototype link, not the base class, and leaves the state
    as it was. *)
Theorem X14_base_class E fuel n s p m t :
  reachable E s →
  base_ok E →
  circular (object E (BaseLightningElement E)) = None →
  proto (object E (BaseLightningElement E)) = Some p →
  circular (object E p) = None →
  p ≠ BaseLightningElement E →
  isComponentConstructor E (S fuel) (VObj p) s = (Ok false, s, t) →
  dev_check E (VObj (BaseLightningElement E)) = Ok tt →
  read_members E (VObj (BaseLightningElement E)) = Ok m →
  isComponentConstructor E (S (S fuel)) (VObj (BaseLightningElement E)) s = (Ok true, s, []) ∧
  getComponentDef E (S (S fuel)) (VObj (BaseLightningElement E)) n s =
    (Throw (TypeError (NotValidComponent (VObj p))), s,
     EvRegisteredMeta (VObj (BaseLightningElement E))
       :: EvDecoratorsMeta (VObj (BaseLightningElement E)) :: t).
Proof.
  intros Hr Hbase Hcb Hp Hcp Hne Hrej Hdev Hm.
  destruct (reachable_invariants _ _ Hr) as [Hok _].
  pose proof (isComponentConstructor_base E (S fuel) s Hbase Hcb) as Hrec.
  split; [exact Hrec|].
  assert (Hproto : getPrototypeOf E (VObj (BaseLightningElement E)) = Ok (VObj p)).
  { cbn [getPrototypeOf]. rewrite Hp. reflexivity. }
  assert (Hc : cached s (VObj (BaseLightningElement E)) = None).
  { destruct (cached s (VObj (BaseLightningElement E))) as [d|] eqn:Hc; [exfalso|reflexivity].
    destruct (Hok _ _ Hc) as (sp & sd & _ & _ & _ & Hsp & Hsd & _).
    assert (sp = VObj p) as ->.
    { eapply super_of_functional; [exact Hsp|].
      exists VUndefined, s, []. by apply getCtorProto_plain. }
    destruct Hsd as [[[= ?] _]|[_ Hcs]]; [congruence|].
    destruct (Hok _ _ Hcs) as (_ & _ & _ & _ & Hrecp & _).
    eapply recognized_not_rejected; eassumption. }
  destruct (recognized_display_name E _ _ n _ _ _ Hrec) as [name Hname].
  destruct (getComponentDef_rejects E (VObj p) fuel name s s t Hok Hrej) as [Hsuper _].
  assert (Hcreate : ∀ meta,
            createComponentDef E (getComponentDef E (S fuel))
              (VObj (BaseLightningElement E)) meta name s =
              (Throw (TypeError (NotValidComponent (VObj p))), s,
               EvDecoratorsMeta (VObj (BaseLightningElement E)) :: [] ++ t)).
  { intros meta. eapply createComponentDef_rec_fails; try eassumption.
    - by apply getCtorProto_plain.
    - congruence. }
  rewrite (getComponentDef_create_fails E _ _ n _ _ _ _ _ _ Hc Hrec Hname Hcreate).
  reflexivity.
Qed.

Lemma X14_base_class_witness :
  isComponentConstructor (abc_env false []) 3 (VObj 3) init_state = (Ok true, init_state, []) ∧
  getComponentDef (abc_env false []) 3 (VObj 3) VUndefined init_state =
    (Throw (TypeError (NotValidComponent (VObj 1))), init_state,
     [EvRegisteredMeta (VObj 3); EvDecoratorsMeta (VObj 3)]).
Proof.
  refine (X14_base_class (abc_env false []) 1 VUndefined init_state 1 _ [] _ _ _ _ _ _ _ _ _).
  - apply reachable_init.
  - split; [vm_compute; reflexivity|]. exists 4. vm_compute; reflexivity.
  - vm_compute; reflexivity.
  - vm_compute; reflexivity.
  - vm_compute; reflexivity.
  - discriminate.
  - vm_compute; reflexivity.
  - vm_compute; reflexivity.
  - vm_compute; reflexivity.
Defined.

Section Cycle.
Variable E : Env.

(** The slow path between two classes that are each other's superclass
    through placeholders. *)
Lemma loop_cycle a b pa pb s :
  a ≠ BaseLightningElement E → b ≠ BaseLightningElement E →
  circular (object E pb) = Some (VObj b) → b ≠ pb →
  proto (object E b) = Some pa →
  circular (object E pa) = Some (VObj a) → a ≠ pa →
  proto (object E a) = Some pb →
  ∀ fuel,
    (∃ t, isComponentConstructor_loop E fuel (VObj pa) s = (OutOfFuel, s, t)) ∧
    (∃ t, isComponentConstructor_loop E fuel (VObj pb) s = (OutOfFuel, s, t)).
Proof.
  intros Ha Hb Hcb Hbp Hpb Hca Hap Hpa.
  assert (Hstep : ∀ fuel p c q t,
            circular (object E p) = Some (VObj c) → c ≠ p →
            c ≠ BaseLightningElement E →
            proto (object E c) = Some q →
            isComponentConstructor_loop E fuel (VObj q) s = (OutOfFuel, s, t) →
            isComponentConstructor_loop E (S fuel) (VObj p) s =
              (OutOfFuel, s, EvResolveCircular (VObj p) :: t)).
  { intros fuel p c q t Hc Hne Hbase Hq Hrest.
    cbn [isComponentConstructor_loop]. unfold isCircularModuleDependency.
    rewrite Hc, bool_decide_eq_true_2 by eauto.
    unfold bind at 1. unfold bind at 1.
    rewrite (resolve_run E p (VObj c) s Hc).
    rewrite decide_False by congruence. cbv [ret]. cbv beta iota.
    rewrite decide_False by congruence. cbn [isNull getPrototypeOf].
    rewrite Hq, bind_lift_ok. cbn [truthy]. rewrite Hrest. reflexivity. }
  induction fuel as [|fuel [[ta IHa] [tb IHb]]].
  - split; exists []; reflexivity.
  - split; eexists; eapply Hstep; eassumption.
Qed.
End Cycle.

(** X15. Two classes in modules that import each other, each having as
    superclass a placeholder that resolves to the other: when the fast path
    does not recognize such a class, the slow path of
    [isComponentConstructor] goes round from one to the other and never
    leaves the loop; whatever the fuel, neither [isComponentConstructor] nor
    [getComponentDef] has returned, and the state is as it was. *)
Theorem X15_cyclic_superclasses E a b pa pb pr fuel n s :
  isFunction E (VObj a) = true →
  circular (object E a) = None →
  a ≠ BaseLightningElement E → b ≠ BaseLightningElement E →
  proto (object E a) = Some pb → circular (object E pb) = Some (VObj b) → b ≠ pb →
  proto (object E b) = Some pa → circular (object E pa) = Some (VObj a) → a ≠ pa →
  Get E (VObj a) "prototype" = Ok pr →
  instanceof E pr (BaseLightningElement E) = Ok false →
  cached s (VObj a) = None →
  (∃ t, isComponentConstructor E fuel (VObj a) s = (OutOfFuel, s, t)) ∧
  (∃ t, getComponentDef E fuel (VObj a) n s = (OutOfFuel, s, t)).
Proof.
  intros Hf Hc Ha Hb Hpa Hcb Hbp Hpb Hca Hap Hpr Hinst Hcached.
  assert (Hrec : ∀ fuel, ∃ t, isComponentConstructor E fuel (VObj a) s = (OutOfFuel, s, t)).
  { intros k. unfold isComponentConstructor. rewrite Hf, Hpr. cbn [negb].
    rewrite bind_lift_ok, Hinst, bind_lift_ok.
    destruct k as [|k]; [exists []; reflexivity|].
    destruct (loop_cycle E a b pa pb s Ha Hb Hcb Hbp Hpb Hca Hap Hpa k) as [_ [t Ht]].
    exists t. cbn [isComponentConstructor_loop]. unfold isCircularModuleDependency.
    rewrite Hc, bool_decide_eq_false_2 by (intros [? ?]; discriminate).
    rewrite bind_ret. cbv beta iota.
    rewrite decide_False by congruence. cbn [isNull getPrototypeOf].
    rewrite Hpa, bind_lift_ok. cbn [truthy]. exact Ht. }
  split; [apply Hrec|].
  destruct fuel as [|fuel]; [exists []; reflexivity|].
  destruct (Hrec (S fuel)) as [t Ht]. exists t.
  by apply getComponentDef_recognition_fails.
Qed.

(** The classes [K] and [L]. *)
Lemma X15_cyclic_superclasses_witness :
  (∃ t, isComponentConstructor (edge_env true) 1000 (VObj 38) init_state =
          (OutOfFuel, init_state, t)) ∧
  (∃ t, getComponentDef (edge_env true) 1000 (VObj 38) VUndefined init_state =
          (OutOfFuel, init_state, t)).
Proof.
  refine (X15_cyclic_superclasses (edge_env true) 38 40 43 42 (VObj 39) 1000 VUndefined
            init_state _ _ _ _ _ _ _ _ _ _ _ _ _);
    first [discriminate | vm_compute; reflexivity].
Defined.

(** * Further properties: the import rewrites *)

(** ** Strings *)

#[local] Arguments String.append !_ _ / : simpl nomatch.

Lemma ltb_of_nat n : (Z.of_nat n <? 0)%Z = false.
Proof. apply Z.ltb_ge. lia. Qed.

Lemma length_append s1 s2 :
  String.length (s1 +:+ s2) = String.length s1 + String.length s2.
Proof. induction s1 as [|a s1 IH]; simpl; [reflexivity|]. by rewrite IH. Qed.

Lemma append_nil_r s : s +:+ "" = s.
Proof. induction s as [|a s IH]; simpl; [reflexivity|]. by rewrite IH. Qed.

Lemma append_assoc s1 s2 s3 : (s1 +:+ s2) +:+ s3 = s1 +:+ (s2 +:+ s3).
Proof. induction s1 as [|a s1 IH]; simpl; [reflexivity|]. by rewrite IH. Qed.

Lemma append_inv_l s t1 t2 : s +:+ t1 = s +:+ t2 → t1 = t2.
Proof. induction s as [|a s IH]; simpl; [auto|]. intros [= H]. auto. Qed.

Lemma append_longer s t : t ≠ "" → s +:+ t ≠ s.
Proof.
  intros Hne Heq. apply Hne. apply (append_inv_l s).
  transitivity s; [exact Heq|]. symmetry. apply append_nil_r.
Qed.

Lemma string_substring_all s : String.substring 0 (String.length s) s = s.
Proof. induction s as [|a s IH]; simpl; [reflexivity|]. by rewrite IH. Qed.

Lemma string_substring_prefix pre rest :
  String.substring 0 (String.length pre) (pre +:+ rest) = pre.
Proof.
  induction pre as [|a pre IH]; simpl; [by destruct rest|]. by rewrite IH.
Qed.

Lemma string_substring_drop pre rest n :
  String.substring (String.length pre) n (pre +:+ rest) = String.substring 0 n rest.
Proof. induction pre as [|a pre IH]; simpl; [reflexivity|]. exact IH. Qed.

Lemma string_substring_past s n : String.length s ≤ n → String.substring n 0 s = "".
Proof.
  revert n. induction s as [|a s IH]; intros n Hn; simpl.
  - by destruct n.
  - destruct n as [|n]; [reflexivity|]. apply IH. simpl in Hn. lia.
Qed.

(** [(pre + rest).substring(0, pre.length)] is [pre]. *)
Lemma substring_prefix pre rest :
  substring (pre +:+ rest) 0 (Z.of_nat (String.length pre)) = pre.
Proof.
  unfold substring. rewrite length_append.
  replace (Z.min (Z.max 0 0) _) with 0%Z by lia.
  replace (Z.min (Z.max (Z.of_nat (String.length pre)) 0) _)
    with (Z.of_nat (String.length pre)) by lia.
  replace (Z.min 0 _) with 0%Z by lia.
  replace (Z.max 0 (Z.of_nat (String.length pre)) - 0)%Z
    with (Z.of_nat (String.length pre)) by lia.
  rewrite Nat2Z.id. apply string_substring_prefix.
Qed.

(** [(pre + rest).substring(pre.length)] is [rest]. *)
Lemma substring_from_prefix pre rest :
  substring_from (pre +:+ rest) (Z.of_nat (String.length pre)) = rest.
Proof.
  unfold substring_from, substring. rewrite length_append.
  set (n := String.length pre). set (m := String.length rest).
  replace (Z.min (Z.max (Z.of_nat n) 0) (Z.of_nat (n + m))) with (Z.of_nat n) by lia.
  replace (Z.min (Z.max (Z.of_nat (n + m)) 0) (Z.of_nat (n + m)))
    with (Z.of_nat (n + m)) by lia.
  replace (Z.min (Z.of_nat n) (Z.of_nat (n + m))) with (Z.of_nat n) by lia.
  replace (Z.max (Z.of_nat n) (Z.of_nat (n + m)) - Z.of_nat n)%Z with (Z.of_nat m) by lia.
  rewrite !Nat2Z.id. subst n m. rewrite string_substring_drop. apply string_substring_all.
Qed.

(** [s.substring(n)] is empty from [s.length] on. *)
Lemma substring_from_past s n :
  (Z.of_nat (String.length s) ≤ n)%Z → substring_from s n = "".
Proof.
  intros Hn. unfold substring_from, substring.
  set (len := String.length s) in *.
  replace (Z.min (Z.max n 0) (Z.of_nat len)) with (Z.of_nat len) by lia.
  replace (Z.min (Z.max (Z.of_nat len) 0) (Z.of_nat len)) with (Z.of_nat len) by lia.
  replace (Z.min (Z.of_nat len) (Z.of_nat len)) with (Z.of_nat len) by lia.
  replace (Z.max (Z.of_nat len) (Z.of_nat len) - Z.of_nat len)%Z with 0%Z by lia.
  rewrite Nat2Z.id. apply string_substring_past. subst len. lia.
Qed.

Lemma indexOf_bounds s c : (-1 ≤ indexOf s c)%Z.
Proof.
  induction s as [|a s IH]; simpl; [lia|].
  destruct (Ascii.eqb a c); [lia|]. destruct (indexOf s c <? 0)%Z eqn:Hi; lia.
Qed.

Lemma indexOf_absent s c : occurs c s = false → indexOf s c = (-1)%Z.
Proof.
  induction s as [|a s IH]; simpl; [reflexivity|].
  destruct (Ascii.eqb a c); [discriminate|]. simpl. intros H. rewrite (IH H). reflexivity.
Qed.

(** The first occurrence splits the string. *)
Lemma indexOf_found s c :
  occurs c s = true →
  ∃ pre post,
    s = pre +:+ String c post ∧ occurs c pre = false ∧
    indexOf s c = Z.of_nat (String.length pre).
Proof.
  induction s as [|a s IH]; simpl; [discriminate|].
  destruct (Ascii.eqb a c) eqn:Ha.
  - apply Ascii.eqb_eq in Ha as ->. intros _. exists "", s. auto.
  - simpl. intros H. destruct (IH H) as (pre & post & -> & Hpre & Hidx).
    exists (String a pre), post. simpl. rewrite Ha, Hpre, Hidx.
    split; [reflexivity|]. split; [reflexivity|].
    rewrite ltb_of_nat. lia.
Qed.

Lemma indexOf_append_found c pre post :
  occurs c pre = false →
  indexOf (pre +:+ String c post) c = Z.of_nat (String.length pre).
Proof.
  induction pre as [|a pre IH]; simpl.
  - intros _. by rewrite Ascii.eqb_refl.
  - destruct (Ascii.eqb a c); [discriminate|]. simpl. intros H. rewrite (IH H).
    rewrite ltb_of_nat. lia.
Qed.

Lemma occurs_append c s1 s2 : occurs c (s1 +:+ s2) = occurs c s1 || occurs c s2.
Proof.
  induction s1 as [|a s1 IH]; simpl; [reflexivity|]. rewrite IH. by rewrite orb_assoc.
Qed.

Lemma replace_all_absent c r s : occurs c s = false → replace_all c r s = s.
Proof.
  induction s as [|a s IH]; simpl; [reflexivity|].
  destruct (Ascii.eqb a c); [discriminate|]. simpl. intros H. by rewrite IH.
Qed.

Lemma replace_first_absent c r s : occurs c s = false → replace_first c r s = s.
Proof.
  induction s as [|a s IH]; simpl; [reflexivity|].
  destruct (Ascii.eqb a c); [discriminate|]. simpl. intros H. by rewrite IH.
Qed.

Lemma replace_first_found c r pre post :
  occurs c pre = false →
  replace_first c r (pre +:+ String c post) = pre +:+ r +:+ post.
Proof.
  induction pre as [|a pre IH]; simpl.
  - intros _. by rewrite Ascii.eqb_refl.
  - destruct (Ascii.eqb a c); [discriminate|]. simpl. intros H. by rewrite IH.
Qed.

Lemma replace_all_clean c r s :
  occurs c r = false → occurs c (replace_all c r s) = false.
Proof.
  intros Hr. induction s as [|a s IH]; simpl; [reflexivity|].
  destruct (Ascii.eqb a c) eqn:Ha.
  - rewrite occurs_append, Hr, IH. reflexivity.
  - simpl. rewrite Ha, IH. reflexivity.
Qed.

Lemma replace_all_length c r s :
  String.length r = 1 → String.length (replace_all c r s) = String.length s.
Proof.
  intros Hr. induction s as [|a s IH]; simpl; [reflexivity|].
  destruct (Ascii.eqb a c); simpl; [rewrite length_append, Hr, IH|rewrite IH]; reflexivity.
Qed.

Lemma split_absent c s : occurs c s = false → split c s = [s].
Proof.
  induction s as [|a s IH]; simpl; [reflexivity|].
  destruct (Ascii.eqb a c); [discriminate|]. simpl. intros H. by rewrite IH.
Qed.

Lemma split_found c pre post :
  occurs c pre = false →
  split c (pre +:+ String c post) = pre :: split c post.
Proof.
  induction pre as [|a pre IH]; simpl.
  - intros _. by rewrite Ascii.eqb_refl.
  - destruct (Ascii.eqb a c); [discriminate|]. simpl. intros H. by rewrite IH.
Qed.

Lemma split_head c s :
  ∃ parts,
    split c s =
      (if (indexOf s c <? 0)%Z then s else substring s 0 (indexOf s c)) :: parts.
Proof.
  destruct (occurs c s) eqn:Ho.
  - destruct (indexOf_found _ _ Ho) as (pre & post & -> & Hpre & Hidx).
    rewrite (split_found _ _ _ Hpre), Hidx.
    rewrite ltb_of_nat.
    rewrite substring_prefix. eauto.
  - rewrite (split_absent _ _ Ho), (indexOf_absent _ _ Ho). simpl. eauto.
Qed.

(** ** The rewrites *)

Lemma transformSalesforceSchema_plain varname resource :
  occurs "." resource = false →
  transformSalesforceSchema varname resource =
    const_object varname [("objectApiName", resource)].
Proof.
  intros Ho. unfold transformSalesforceSchema. rewrite (indexOf_absent _ _ Ho). reflexivity.
Qed.

Lemma transformSalesforceSchema_field varname objectApiName fieldApiName :
  occurs "." objectApiName = false →
  transformSalesforceSchema varname (objectApiName +:+ "." +:+ fieldApiName) =
    const_object varname
      [("objectApiName", objectApiName); ("fieldApiName", fieldApiName)].
Proof.
  intros Ho. unfold transformSalesforceSchema.
  change (objectApiName +:+ "." +:+ fieldApiName)
    with (objectApiName +:+ String "." fieldApiName).
  rewrite (indexOf_append_found _ _ _ Ho).
  rewrite ltb_of_nat.
  rewrite substring_prefix.
  replace (objectApiName +:+ String "." fieldApiName)
    with ((objectApiName +:+ ".") +:+ fieldApiName) by apply append_assoc.
  replace (Z.of_nat (String.length objectApiName) + 1)%Z
    with (Z.of_nat (String.length (objectApiName +:+ "."))).
  2: { rewrite length_append. simpl. lia. }
  rewrite substring_from_prefix. reflexivity.
Qed.

(** X16. [transformSalesforceSchema] declares [const varname] as an
    object whose [objectApiName] never contains a dot: it is the whole
    resource when the resource has no dot, and otherwise the part before the
    first dot, everything after that dot (further dots included) being the
    [fieldApiName]; so the resource can be read back from the declaration. *)
Theorem X16_schema_split varname resource :
  ∃ objectApiName,
    occurs "." objectApiName = false ∧
    (resource = objectApiName ∧
     transformSalesforceSchema varname resource =
       const_object varname [("objectApiName", objectApiName)]
     ∨
     ∃ fieldApiName,
       resource = objectApiName +:+ "." +:+ fieldApiName ∧
       transformSalesforceSchema varname resource =
         const_object varname
           [("objectApiName", objectApiName); ("fieldApiName", fieldApiName)]).
Proof.
  destruct (occurs "." resource) eqn:Ho.
  - destruct (indexOf_found _ _ Ho) as (pre & post & -> & Hpre & _).
    exists pre. split; [assumption|]. right. exists post. split; [reflexivity|].
    by apply transformSalesforceSchema_field.
  - exists resource. split; [assumption|]. left. split; [reflexivity|].
    by apply transformSalesforceSchema_plain.
Qed.

(** X17. The rewrite of a schema import throws when the import has no
    specifier. Otherwise it declares the local name of the first specifier,
    and of that one only, from the source with as many leading characters
    dropped as [SALESFORCE_SCHEMA_PREFIX] has, whatever these characters
    are; a source that is no longer than the prefix gives an empty
    [objectApiName]. *)
Theorem X17_schema_import SALESFORCE_SCHEMA_PREFIX imp :
  (specifiers imp = [] →
   rewriteSchemaImport SALESFORCE_SCHEMA_PREFIX imp =
     Throw (TypeError (Native "property access")))
  ∧
  (∀ specifier others p resource,
     specifiers imp = specifier :: others →
     source_value imp = p +:+ resource →
     String.length p = String.length SALESFORCE_SCHEMA_PREFIX →
     rewriteSchemaImport SALESFORCE_SCHEMA_PREFIX imp =
       Ok (transformSalesforceSchema (local_name specifier) resource))
  ∧
  (∀ specifier others,
     specifiers imp = specifier :: others →
     String.length (source_value imp) ≤ String.length SALESFORCE_SCHEMA_PREFIX →
     rewriteSchemaImport SALESFORCE_SCHEMA_PREFIX imp =
       Ok (const_object (local_name specifier) [("objectApiName", "")])).
Proof.
  unfold rewriteSchemaImport. split; [|split].
  - intros ->. reflexivity.
  - intros specifier others p resource -> -> <-.
    rewrite substring_from_prefix. reflexivity.
  - intros specifier others -> Hlen.
    rewrite substring_from_past by lia. reflexivity.
Qed.

Lemma X17_schema_import_witness :
  rewriteSchemaImport "@salesforce/schema/"
    {| source_value := "@salesforce/schema/Account.Name"; specifiers := [] |} =
    Throw (TypeError (Native "property access")) ∧
  rewriteSchemaImport "@salesforce/schema/"
    {| source_value := "@salesforce/schema/Account.Name";
       specifiers := [ {| local_name := "NAME" |}; {| local_name := "OTHER" |} ] |} =
    Ok (transformSalesforceSchema "NAME" "Account.Name") ∧
  rewriteSchemaImport "@salesforce/schema/"
    {| source_value := "@salesforce";
       specifiers := [ {| local_name := "NAME" |} ] |} =
    Ok (const_object "NAME" [("objectApiName", "")]).
Proof.
  split; [|split].
  - apply (X17_schema_import "@salesforce/schema/"). reflexivity.
  - match goal with
    | |- rewriteSchemaImport ?P ?imp = _ =>
        pose proof (X17_schema_import P imp) as (_ & Hfirst & _)
    end.
    apply (Hfirst {| local_name := "NAME" |} [ {| local_name := "OTHER" |} ]
             "@salesforce/schema/" "Account.Name"); reflexivity.
  - match goal with
    | |- rewriteSchemaImport ?P ?imp = _ =>
        pose proof (X17_schema_import P imp) as (_ & _ & Hshort)
    end.
    apply (Hshort {| local_name := "NAME" |} []); [reflexivity|]. simpl. lia.
Defined.

(** X18. The apex rewrite of [index.ts] and [pulsar_rewrites.js] leaves
    no dot in the source of an import; a source other than
    [SALESFORCE_APEX] keeps its length, every dot having become a slash; and
    on a source that begins with [SALESFORCE_APEX] running the rewrite a
    second time changes nothing. *)
Theorem X18_apex_dots SALESFORCE_APEX value :
  occurs "." (rewriteApexImport SALESFORCE_APEX value) = false ∧
  (value ≠ SALESFORCE_APEX →
   String.length (rewriteApexImport SALESFORCE_APEX value) = String.length value) ∧
  (∀ rest,
     value = SALESFORCE_APEX +:+ rest →
     rewriteApexImport SALESFORCE_APEX (rewriteApexImport SALESFORCE_APEX value) =
       rewriteApexImport SALESFORCE_APEX value).
Proof.
  unfold rewriteApexImport. split; [|split].
  - case_decide; [reflexivity|]. by apply replace_all_clean.
  - intros Hne. rewrite decide_False by assumption. by apply replace_all_length.
  - intros rest ->.
    destruct (decide (SALESFORCE_APEX +:+ rest = SALESFORCE_APEX)) as [Heq|Hne].
    + case_decide; reflexivity.
    + rewrite decide_False.
      * apply replace_all_absent. by apply replace_all_clean.
      * intros Hw. apply (f_equal String.length) in Hw.
        rewrite replace_all_length, length_append in Hw by reflexivity.
        assert (String.length rest = 0) as Hrest by lia.
        destruct rest; [|discriminate]. apply Hne. apply append_nil_r.
Qed.

Lemma X18_apex_dots_witness :
  occurs "." (rewriteApexImport "@salesforce/apex" "@salesforce/apex/Foo.bar") = false ∧
  String.length (rewriteApexImport "@salesforce/apex" "@salesforce/apex/Foo.bar") =
    String.length "@salesforce/apex/Foo.bar" ∧
  rewriteApexImport "@salesforce/apex"
    (rewriteApexImport "@salesforce/apex" "@salesforce/apex/Foo.bar") =
    rewriteApexImport "@salesforce/apex" "@salesforce/apex/Foo.bar".
Proof.
  pose proof (X18_apex_dots "@salesforce/apex" "@salesforce/apex/Foo.bar")
    as (Hdots & Hlen & Htwice).
  split; [exact Hdots|]. split.
  - apply Hlen. discriminate.
  - apply (Htwice "/Foo.bar"). reflexivity.
Defined.

(** X19. In the later revision of [index.ts] the apex rewrite turns
    [SALESFORCE_APEX] itself into [@pulsarlwc/apex]; of any other source it
    drops as many characters as [SALESFORCE_APEX] has and one more, and
    replaces the first dot of the rest by a slash, so that
    [@salesforce/apex/Class.method] becomes [Class/method]; later dots stay,
    and a rest without a dot is left as it is. *)
Theorem X19_apex_stripped SALESFORCE_APEX :
  rewriteApexImport_stripped SALESFORCE_APEX SALESFORCE_APEX = "@pulsarlwc/apex" ∧
  (∀ sep class method,
     String.length sep = 1 →
     occurs "." class = false →
     rewriteApexImport_stripped SALESFORCE_APEX
       (SALESFORCE_APEX +:+ sep +:+ class +:+ "." +:+ method) =
       class +:+ "/" +:+ method) ∧
  (∀ sep rest,
     String.length sep = 1 →
     occurs "." rest = false →
     rewriteApexImport_stripped SALESFORCE_APEX (SALESFORCE_APEX +:+ sep +:+ rest) = rest).
Proof.
  unfold rewriteApexImport_stripped.
  assert (Hstrip : ∀ sep rest,
            String.length sep = 1 →
            (if decide (SALESFORCE_APEX +:+ sep +:+ rest = SALESFORCE_APEX)
             then "@pulsarlwc/apex"
             else replace_first "." "/"
                    (substring_from (SALESFORCE_APEX +:+ sep +:+ rest)
                       (Z.of_nat (String.length SALESFORCE_APEX) + 1)))
            = replace_first "." "/" rest).
  { intros sep rest Hsep. rewrite decide_False.
    2: { apply append_longer. destruct sep; [discriminate|]. discriminate. }
    replace (SALESFORCE_APEX +:+ sep +:+ rest)
      with ((SALESFORCE_APEX +:+ sep) +:+ rest) by apply append_assoc.
    replace (Z.of_nat (String.length SALESFORCE_APEX) + 1)%Z
      with (Z.of_nat (String.length (SALESFORCE_APEX +:+ sep))).
    2: { rewrite length_append, Hsep. lia. }
    rewrite substring_from_prefix. reflexivity. }
  split; [|split].
  - rewrite decide_True by reflexivity. reflexivity.
  - intros sep class method Hsep Hclass. rewrite Hstrip by assumption.
    by apply replace_first_found.
  - intros sep rest Hsep Hrest. rewrite Hstrip by assumption.
    by apply replace_first_absent.
Qed.

Lemma X19_apex_stripped_witness :
  rewriteApexImport_stripped "@salesforce/apex" "@salesforce/apex/FooComponent.fooThing" =
    "FooComponent/fooThing" ∧
  rewriteApexImport_stripped "@salesforce/apex" "@salesforce/apex/Foo" = "Foo".
Proof.
  pose proof (X19_apex_stripped "@salesforce/apex") as (_ & Hdot & Hplain).
  split.
  - apply (Hdot "/" "FooComponent" "fooThing"); reflexivity.
  - apply (Hplain "/" "Foo"); reflexivity.
Defined.



(** X21. For a schema [Object.Field] the later revision of [index.ts]
    declares the whole of [Field] as [fieldApiName], but the statement it
    prints shows [Field] only up to its first dot: the two agree exactly
    when the schema has no second dot. *)
Theorem X21_printed_schema varname objectApiName fieldApiName :
  occurs "." objectApiName = false →
  transformSalesforceSchema varname (objectApiName +:+ "." +:+ fieldApiName) =
    const_object varname
      [("objectApiName", objectApiName); ("fieldApiName", fieldApiName)] ∧
  newSchemaStatement varname (objectApiName +:+ "." +:+ fieldApiName) =
    "const " +:+ varname +:+ " = { objectApiName: '" +:+ objectApiName
      +:+ "', fieldApiName: '"
      +:+ (if (indexOf fieldApiName "." <? 0)%Z then fieldApiName
           else substring fieldApiName 0 (indexOf fieldApiName "."))
      +:+ "' }" ∧
  ((if (indexOf fieldApiName "." <? 0)%Z then fieldApiName
    else substring fieldApiName 0 (indexOf fieldApiName ".")) = fieldApiName
   ↔ occurs "." fieldApiName = false).
Proof.
  intros Ho. split; [by apply transformSalesforceSchema_field|]. split.
  - unfold newSchemaStatement.
    change (objectApiName +:+ "." +:+ fieldApiName)
      with (objectApiName +:+ String "." fieldApiName).
    rewrite (split_found _ _ _ Ho).
    destruct (split_head "." fieldApiName) as [parts ->]. reflexivity.
  - destruct (occurs "." fieldApiName) eqn:Hf.
    + destruct (indexOf_found _ _ Hf) as (pre & post & -> & Hpre & Hidx).
      rewrite Hidx.
      rewrite ltb_of_nat.
      rewrite substring_prefix. split; [|discriminate].
      intros Heq. exfalso. symmetry in Heq. revert Heq. apply append_longer. discriminate.
    + rewrite (indexOf_absent _ _ Hf). simpl. split; auto.
Qed.

Lemma X21_printed_schema_witness :
  transformSalesforceSchema "F" "Account.Owner.Name" =
    const_object "F" [("objectApiName", "Account"); ("fieldApiName", "Owner.Name")] ∧
  newSchemaStatement "F" "Account.Owner.Name" =
    "const F = { objectApiName: 'Account', fieldApiName: 'Owner' }".
Proof.
  pose proof (X21_printed_schema "F" "Account" "Owner.Name" eq_refl) as (Hast & Hlog & _).
  split; [exact Hast|exact Hlog].
Defined.

(** * Further properties: the rollup configuration *)

(** X22. [generateTargetName] is [flags.cjs.js] for the format [cjs] and
    [flags.js] for every other format: two formats get the same file name
    exactly when both or neither of them is [cjs], so the [es] and the [cjs]
    build never write the same file. *)
Theorem X22_target_names format1 format2 :
  generateTargetName format1 = generateTargetName format2
  ↔ (format1 = "cjs" ↔ format2 = "cjs").
Proof.
  unfold generateTargetName. do 2 case_decide; simpl; split; try tauto; try discriminate.
  all: intros [H1 H2]; exfalso; auto.
Qed.
